(** * A shallow embedding of the static-analysis core of the eBPF verifier

    The development follows the three components of the analysis core:
    - the control-flow graph [cfg_t] and its structural passes
      (crab/cfg.hpp);
    - the SplitDBM numerical domain (crab/split_dbm.cpp);
    - the interleaved forward fixpoint iterator (crab/fwd_analyzer.cpp).

    Definitions come first, statements and proofs afterwards. *)

From Stdlib Require Import ZArith Lia.
From stdpp Require Import base option list sorting relations gmap sets.

Local Open Scope Z_scope.
Local Open Scope nat_scope.

(** ** Outcomes of a call

    [CRAB_ERROR] raises and never returns: such a call ends in [Abort].
    Loops of the source that carry no syntactic bound are run on fuel;
    [OutOfFuel] is kept apart from [Abort] so that totality of a loop can be
    stated as "never [OutOfFuel]". *)

Inductive result (A : Type) : Type :=
| Ok (a : A)
| Abort
| OutOfFuel.
Arguments Ok {A} a.
Arguments Abort {A}.
Arguments OutOfFuel {A}.

Definition result_bind {A B : Type} (f : A → result B) (r : result A) : result B :=
  match r with
  | Ok a => f a
  | Abort => Abort
  | OutOfFuel => OutOfFuel
  end.

#[global] Instance result_ret : MRet result := λ A a, Ok a.
#[global] Instance result_mbind : MBind result := λ A B f r, result_bind f r.

(** Left-to-right iteration of a fallible step over a range. *)
Fixpoint foldM {A B : Type} (f : B → A → result B) (b : B) (l : list A) : result B :=
  match l with
  | [] => Ok b
  | x :: l' => match f b x with
               | Ok b' => foldM f b' l'
               | Abort => Abort
               | OutOfFuel => OutOfFuel
               end
  end.

(** ** Labels and label sets

    [label_t] is totally ordered; [std::set<label_t>] iterates in ascending
    order, which [sorted_labels_of] makes explicit. *)

Definition sorted_labels_of (s : gset nat) : list nat := merge_sort Nat.le (elements s).

(** [*s.begin()]: the least element. *)
Definition first_label (s : gset nat) : option nat := head (sorted_labels_of s).

(** ** Basic blocks (class basic_block_t) *)

Record basic_block_t (Instruction : Type) : Type := BasicBlock {
  m_label : nat;
  m_ts : list Instruction;
  m_prev : gset nat;
  m_next : gset nat
}.
Arguments BasicBlock {Instruction} _ _ _ _.
Arguments m_label {Instruction} _.
Arguments m_ts {Instruction} _.
Arguments m_prev {Instruction} _.
Arguments m_next {Instruction} _.

Record cfg_t (Instruction : Type) : Type := Cfg {
  m_entry : nat;
  m_exit : nat;
  m_blocks : gmap nat (basic_block_t Instruction)
}.
Arguments Cfg {Instruction} _ _ _.
Arguments m_entry {Instruction} _.
Arguments m_exit {Instruction} _.
Arguments m_blocks {Instruction} _.

Section cfg_model.
Context {Instruction : Type}.

Abbreviation block := (basic_block_t Instruction).
Abbreviation cfg := (cfg_t Instruction).

(** [explicit basic_block_t(label_t _label)] *)
Definition new_block (l : nat) : block := BasicBlock l [] ∅ ∅.

(** [basic_block_t::insert(const Instruction&)] *)
Definition bb_insert (i : Instruction) (b : block) : block :=
  BasicBlock (m_label b) (m_ts b ++ [i]) (m_prev b) (m_next b).

Definition in_degree (b : block) : nat := size (m_prev b).
Definition out_degree (b : block) : nat := size (m_next b).

(** The two halves of [operator>>] and of [operator-=], each acting on one
    of the two blocks involved. *)
Definition add_next (l : nat) (b : block) : block :=
  BasicBlock (m_label b) (m_ts b) (m_prev b) (m_next b ∪ {[l]}).
Definition add_prev (l : nat) (b : block) : block :=
  BasicBlock (m_label b) (m_ts b) (m_prev b ∪ {[l]}) (m_next b).
Definition erase_next (l : nat) (b : block) : block :=
  BasicBlock (m_label b) (m_ts b) (m_prev b) (m_next b ∖ {[l]}).
Definition erase_prev (l : nat) (b : block) : block :=
  BasicBlock (m_label b) (m_ts b) (m_prev b ∖ {[l]}) (m_next b).

(** [basic_block_t::move_back]: all statements of [other] at the back. *)
Definition move_back (other : block) (b : block) : block :=
  BasicBlock (m_label b) (m_ts b ++ m_ts other) (m_prev b) (m_next b).

(** [basic_block_t::swap_instructions]: the block takes the statements of
    [ts] (and [ts] the block's former ones, which the callers drop). *)
Definition swap_instructions (ts : list Instruction) (b : block) : block :=
  BasicBlock (m_label b) ts (m_prev b) (m_next b).

(** [cfg_t(entry, exit)]: [emplace] keeps an existing binding. *)
Definition emplace_block (l : nat) (m : gmap nat block) : gmap nat block :=
  match m !! l with
  | Some _ => m
  | None => <[l := new_block l]> m
  end.

Definition cfg_new (entry exit : nat) : cfg :=
  Cfg entry exit (emplace_block exit (emplace_block entry ∅)).

(** [cfg_t::get_node]: a missing label is a [CRAB_ERROR]. *)
Definition get_node (c : cfg) (l : nat) : result block :=
  match m_blocks c !! l with
  | Some b => Ok b
  | None => Abort
  end.

(** A write through a [basic_block_t&] obtained from the map. *)
Definition update_node (c : cfg) (l : nat) (f : block → block) : cfg :=
  Cfg (m_entry c) (m_exit c) (alter f l (m_blocks c)).

Definition set_exit (c : cfg) (l : nat) : cfg := Cfg (m_entry c) l (m_blocks c).

(** [cfg_t::insert] *)
Definition insert_block (c : cfg) (l : nat) : cfg :=
  Cfg (m_entry c) (m_exit c) (emplace_block l (m_blocks c)).

(** [get_node(a) >> get_node(b)] *)
Definition connect (c : cfg) (a b : nat) : result cfg :=
  ba ← get_node c a;
  bb ← get_node c b;
  Ok (update_node (update_node c a (add_next (m_label bb))) b (add_prev (m_label ba))).

(** [get_node(a) -= get_node(b)] *)
Definition disconnect (c : cfg) (a b : nat) : result cfg :=
  ba ← get_node c a;
  bb ← get_node c b;
  Ok (update_node (update_node c a (erase_next (m_label bb))) b (erase_prev (m_label ba))).

(** [cfg_t::next_nodes], [cfg_t::prev_nodes] *)
Definition next_nodes (c : cfg) (l : nat) : result (list nat) :=
  b ← get_node c l; Ok (sorted_labels_of (m_next b)).
Definition prev_nodes (c : cfg) (l : nat) : result (list nat) :=
  b ← get_node c l; Ok (sorted_labels_of (m_prev b)).

(** [cfg_t::labels] *)
Definition labels (c : cfg) : list nat := sorted_labels_of (dom (m_blocks c)).

(** The [dead_edges] vector of [cfg_t::remove]: every neighbour is looked
    up (and must exist) while the vector is filled. *)
Definition checked_edges (c : cfg) (mk : nat → nat * nat) (ids : list nat) : result (list (nat * nat)) :=
  foldM (λ acc id, _ ← get_node c id; Ok (acc ++ [mk id])) [] ids.

Definition dead_edges (c : cfg) (l : nat) (bb : block) : result (list (nat * nat)) :=
  ps ← checked_edges c (λ id, (id, l)) (filter (λ id, l ≠ id) (sorted_labels_of (m_prev bb)));
  ns ← checked_edges c (λ id, (l, id)) (filter (λ id, l ≠ id) (sorted_labels_of (m_next bb)));
  Ok (ps ++ ns).

(** [cfg_t::remove] *)
Definition remove (c : cfg) (l : nat) : result cfg :=
  if decide (l = m_entry c) then Abort
  else if decide (l = m_exit c) then Abort
  else
    bb ← get_node c l;
    es ← dead_edges c l bb;
    c' ← foldM (λ c0 e, disconnect c0 e.1 e.2) c es;
    Ok (Cfg (m_entry c') (m_exit c') (delete l (m_blocks c'))).

(** [get_child], [get_parent]: the first element of the successor
    (predecessor) range. *)
Definition get_child_label (c : cfg) (l : nat) : result nat :=
  b ← get_node c l;
  match first_label (m_next b) with
  | Some n => Ok n
  | None => Abort
  end.

Definition get_parent_label (c : cfg) (l : nat) : result nat :=
  b ← get_node c l;
  match first_label (m_prev b) with
  | Some n => Ok n
  | None => Abort
  end.

(** One round of the inner [while (bb.out_degree() == 1)] loop of
    [cfg_t::simplify] for the block labelled [label]. [None] is a loop exit
    (the condition fails, or the [break]); [Some] carries the CFG and the
    worklist after one merge. *)
Definition merge_next (c : cfg) (worklist : gset nat) (label : nat)
  : result (option (cfg * gset nat)) :=
  bb ← get_node c label;
  if decide (out_degree bb = 1) then
    n ← get_child_label c label;
    next_bb ← get_node c n;
    if decide (n = label ∨ in_degree next_bb ≠ 1) then Ok None
    else
      let worklist := worklist ∖ {[m_label next_bb]} in
      let c := if decide (m_label next_bb = m_exit c) then set_exit c label else c in
      let c := update_node c label (move_back next_bb) in
      c ← disconnect c label n;
      next_bb' ← get_node c n;
      c ← foldM (λ c0 next_next_label, connect c0 label next_next_label) c
             (sorted_labels_of (m_next next_bb'));
      c ← remove c (m_label next_bb');
      Ok (Some (c, worklist))
  else Ok None.

Fixpoint merge_chain (fuel : nat) (c : cfg) (worklist : gset nat) (label : nat)
  : result (cfg * gset nat) :=
  match fuel with
  | 0 => OutOfFuel
  | S fuel' =>
      r ← merge_next c worklist label;
      match r with
      | None => Ok (c, worklist)
      | Some (c', worklist') => merge_chain fuel' c' worklist' label
      end
  end.

(** The guard at the top of the worklist loop:
    [bb.in_degree() == 1 && get_parent(label).out_degree() == 1]. *)
Definition is_chain_interior (c : cfg) (label : nat) : result bool :=
  bb ← get_node c label;
  if decide (in_degree bb = 1) then
    p ← get_parent_label c label;
    pb ← get_node c p;
    Ok (bool_decide (out_degree pb = 1))
  else Ok false.

(** The outer [while (!worklist.empty())] loop. *)
Fixpoint simplify_loop (fuel : nat) (c : cfg) (worklist : gset nat) : result cfg :=
  match first_label worklist with
  | None => Ok c
  | Some label =>
      match fuel with
      | 0 => OutOfFuel
      | S fuel' =>
          let worklist := worklist ∖ {[label]} in
          skip ← is_chain_interior c label;
          if (skip : bool) then simplify_loop fuel' c worklist
          else
            r ← merge_chain (S (size (m_blocks c))) c worklist label;
            simplify_loop fuel' r.1 r.2
      end
  end.

(** [cfg_t::simplify] *)
Definition simplify (c : cfg) : result cfg :=
  simplify_loop (size (dom (m_blocks c))) c (dom (m_blocks c)).

(** [mark_alive_blocks], generic in the graph view ([cfg_t] or
    [cfg_rev_t]) through its [next_nodes]. *)
Fixpoint mark_alive_blocks (fuel : nat) (view_next : nat → result (list nat))
    (curId : nat) (visited : gset nat) : result (gset nat) :=
  match fuel with
  | 0 => OutOfFuel
  | S fuel' =>
      if decide (curId ∈ visited) then Ok visited
      else
        children ← view_next curId;
        foldM (λ vis child, mark_alive_blocks fuel' view_next child vis)
              (visited ∪ {[curId]}) children
  end.

(** [cfg_t::remove_unreachable_blocks] *)
Definition remove_unreachable_blocks (c : cfg) : result cfg :=
  alive ← mark_alive_blocks (S (size (m_blocks c))) (next_nodes c) (m_entry c) ∅;
  let dead := filter (λ l, l ∉ alive) (labels c) in
  if decide (m_exit c ∈ dead) then Abort
  else foldM remove c dead.

(** [cfg_t::remove_useless_blocks]: the same walk over the reversed view,
    whose entry is the exit and whose successors are the predecessors. *)
Definition remove_useless_blocks (c : cfg) : result cfg :=
  useful ← mark_alive_blocks (S (size (m_blocks c))) (prev_nodes c) (m_exit c) ∅;
  if decide (m_exit c ∈ useful) then
    let useless := filter (λ l, l ∉ useful) (labels c) in
    foldM remove c useless
  else Abort.

(** *** Properties of a CFG used in the statements *)

(** The block [b] once every label of [gone] has been erased from its
    predecessor and successor sets. *)
Definition restrict_block (gone : gset nat) (b : block) : block :=
  BasicBlock (m_label b) (m_ts b) (m_prev b ∖ gone) (m_next b ∖ gone).

(** The CFG induced on the labels outside [gone]. *)
Definition cfg_without (gone : gset nat) (c : cfg) : cfg :=
  Cfg (m_entry c) (m_exit c)
      (restrict_block gone <$> filter (λ kv, kv.1 ∉ gone) (m_blocks c)).

(** An edge of the CFG as the successor sets record it. *)
Definition cfg_edge (c : cfg) (a b : nat) : Prop :=
  ∃ ba, m_blocks c !! a = Some ba ∧ b ∈ m_next ba.

Definition reachable (c : cfg) : nat → nat → Prop := rtc (cfg_edge c).

(** An edge as a graph view reports it through its [next_nodes]. *)
Definition view_edge (view_next : nat → result (list nat)) (x y : nat) : Prop :=
  ∃ ns, view_next x = Ok ns ∧ y ∈ ns.

(** CFG symmetry between blocks of the map. *)
Definition cfg_symmetric (c : cfg) : Prop :=
  ∀ a b ba bb, m_blocks c !! a = Some ba → m_blocks c !! b = Some bb →
    (b ∈ m_next ba ↔ a ∈ m_prev bb).

(** Every block is stored under its own label. *)
Definition cfg_keys (c : cfg) : Prop :=
  ∀ l b, m_blocks c !! l = Some b → m_label b = l.

(** Every label a block refers to is a block of the map. *)
Definition cfg_closed (c : cfg) : Prop :=
  ∀ l b x, m_blocks c !! l = Some b → x ∈ m_prev b ∪ m_next b → is_Some (m_blocks c !! x).

Definition cfg_wf (c : cfg) : Prop := cfg_keys c ∧ cfg_symmetric c ∧ cfg_closed c.

(** What a run of [operator-=] over the edge list [es] erases from the
    predecessor set, respectively the successor set, of block [k]. *)
Fixpoint erased_prev (k : nat) (es : list (nat * nat)) : gset nat :=
  match es with
  | [] => ∅
  | e :: es' => (if decide (e.2 = k) then {[ e.1 ]} else ∅) ∪ erased_prev k es'
  end.

Fixpoint erased_next (k : nat) (es : list (nat * nat)) : gset nat :=
  match es with
  | [] => ∅
  | e :: es' => (if decide (e.1 = k) then {[ e.2 ]} else ∅) ∪ erased_next k es'
  end.

(** The CFGs built from the constructor by the edge-mutating operations. *)
Inductive cfg_produced : cfg → Prop :=
| produced_new entry exit : cfg_produced (cfg_new entry exit)
| produced_insert c l : cfg_produced c → cfg_produced (insert_block c l)
| produced_stmt c l i : cfg_produced c → cfg_produced (update_node c l (bb_insert i))
| produced_stmts c l ts :
    cfg_produced c → cfg_produced (update_node c l (swap_instructions ts))
| produced_connect c a b c' : cfg_produced c → connect c a b = Ok c' → cfg_produced c'
| produced_disconnect c a b c' : cfg_produced c → disconnect c a b = Ok c' → cfg_produced c'
| produced_remove c l c' : cfg_produced c → remove c l = Ok c' → cfg_produced c'
| produced_simplify c c' : cfg_produced c → simplify c = Ok c' → cfg_produced c'.

End cfg_model.

(** ** Seed scenarios *)

(** [connect], for a builder that knows both blocks exist. *)
Definition connect_or_keep {Instruction : Type} (c : cfg_t Instruction) (a b : nat)
  : cfg_t Instruction :=
  match connect c a b with
  | Ok c' => c'
  | _ => c
  end.

(** Labels [0, 1, 2] with [0 → 1 → 2], [entry = 0], [exit = 2], and the
    given statements in the three blocks. *)
Definition chain3 {Instruction : Type} (s0 s1 s2 : list Instruction) : cfg_t Instruction :=
  let c := insert_block (cfg_new 0 2) 1 in
  let c := update_node c 0 (swap_instructions s0) in
  let c := update_node c 1 (swap_instructions s1) in
  let c := update_node c 2 (swap_instructions s2) in
  connect_or_keep (connect_or_keep c 0 1) 1 2.

(** Labels [0, 1] with [0 → 1 → 0], [entry = 0], [exit = 1]. *)
Definition two_cycle {Instruction : Type} (s0 s1 : list Instruction) : cfg_t Instruction :=
  let c := cfg_new 0 1 in
  let c := update_node c 0 (swap_instructions s0) in
  let c := update_node c 1 (swap_instructions s1) in
  connect_or_keep (connect_or_keep c 0 1) 1 0.

(** Labels [0, 1, 2, 3] with [0 → 1 → 3] and block [2] isolated,
    [entry = 0], [exit = 3]. *)
Definition with_isolated {Instruction : Type} : cfg_t Instruction :=
  let c := insert_block (insert_block (cfg_new 0 3) 1) 2 in
  connect_or_keep (connect_or_keep c 0 1) 1 3.

Section cfg_views.
Context {Instruction : Type}.

Abbreviation block := (basic_block_t Instruction).
Abbreviation cfg := (cfg_t Instruction).

(** [cfg_t::dfs_rec]: the labels visited so far and the blocks handed to
    the callback [f], in the order of the calls. *)
Fixpoint dfs_rec (fuel : nat) (c : cfg) (curId : nat) (acc : gset nat * list block)
  : result (gset nat * list block) :=
  match fuel with
  | 0 => OutOfFuel
  | S fuel' =>
      if decide (curId ∈ acc.1) then Ok acc
      else
        cur ← get_node c curId;
        foldM (λ acc n, dfs_rec fuel' c n acc) (acc.1 ∪ {[curId]}, acc.2 ++ [cur])
              (sorted_labels_of (m_next cur))
  end.

(** What a run of [dfs_rec] from [acc] to [r] adds to the blocks handed to
    the callback: the blocks of the newly visited labels, each once. *)
Definition dfs_added (c : cfg) (acc r : gset nat * list block) : Prop :=
  acc.1 ⊆ r.1 ∧
  ∃ new, r.2 = acc.2 ++ new ∧ NoDup (m_label <$> new) ∧
    ∀ blk, blk ∈ new ↔
      m_blocks c !! m_label blk = Some blk ∧ m_label blk ∈ r.1 ∧ m_label blk ∉ acc.1.

(** [cfg_t::dfs]: the blocks the callback receives. *)
Definition dfs (c : cfg) : result (list block) :=
  r ← dfs_rec (S (size (m_blocks c))) c (m_entry c) (∅, []);
  Ok r.2.

(** [basic_block_rev_t]: a view of a block with its statements reversed and
    its two edge sets swapped. *)
Record basic_block_rev_t : Type := BasicBlockRev { _bb : block }.

Definition rev_label (r : basic_block_rev_t) : nat := m_label (_bb r).
(** The statements as [begin() .. end()] of the view iterate them. *)
Definition rev_statements (r : basic_block_rev_t) : list Instruction := reverse (m_ts (_bb r)).
Definition rev_next_blocks_set (r : basic_block_rev_t) : gset nat := m_prev (_bb r).
Definition rev_prev_blocks_set (r : basic_block_rev_t) : gset nat := m_next (_bb r).

(** [cfg_rev_t]: the CFG it views and the map of block views built by the
    constructor. *)
Record cfg_rev_t : Type := CfgRev {
  _cfg : cfg;
  _rev_bbs : gmap nat basic_block_rev_t
}.

Definition cfg_rev_new (c : cfg) : cfg_rev_t := CfgRev c (BasicBlockRev <$> m_blocks c).

Definition rev_entry (r : cfg_rev_t) : nat := m_exit (_cfg r).
Definition rev_exit (r : cfg_rev_t) : nat := m_entry (_cfg r).
Definition rev_next_nodes (r : cfg_rev_t) (l : nat) : result (list nat) := prev_nodes (_cfg r) l.
Definition rev_prev_nodes (r : cfg_rev_t) (l : nat) : result (list nat) := next_nodes (_cfg r) l.
Definition rev_get_node (r : cfg_rev_t) (l : nat) : result basic_block_rev_t :=
  match _rev_bbs r !! l with
  | Some b => Ok b
  | None => Abort
  end.

(** Every statement of the CFG, block after block. *)
Definition all_statements (c : cfg) : list Instruction :=
  concat ((λ kv : nat * block, m_ts kv.2) <$> map_to_list (m_blocks c)).

(** The entry block has no incoming edge. *)
Definition entry_has_no_pred (c : cfg) : Prop :=
  ∀ be, m_blocks c !! m_entry c = Some be → m_prev be = ∅.

End cfg_views.

(** The seed CFGs over numbered statements. *)
Definition seed_chain : cfg_t nat := chain3 [1] [2] [3].
Definition seed_isolated : cfg_t nat := with_isolated.
Definition seed_pair : cfg_t nat := cfg_new 0 1.

(** ** Weighted graphs

    Vertices are natural numbers, weights ([Wt]) are integers. [Wt] is
    declared in crab/split_dbm.hpp, which is not among the sources; the
    range of [Wt] enters through [convert_NtoW] and through the arithmetic
    of the domain ([SplitDBM.Wt_of]), which is exact only on results that
    convert. *)

Abbreviation vert_id := nat (only parsing).
Abbreviation Wt := Z (only parsing).
Abbreviation variable_t := nat (only parsing).
Abbreviation edge_vector := (list ((nat * nat) * Z)) (only parsing).

(** Modelled from the spec: the container [graph_t] (crab/adapt_sgraph.hpp)
    is not among the sources. The spec asks for "a weighted directed graph
    over VertexId with weight type Wt" with "a lookup, an add_edge, a
    set_edge (overwrite), an update_edge (keep min), iteration of
    successors/predecessors, and an O(1) edge-weight read". Vertex slots are
    [0 .. g_size - 1]; the slots of [g_free] are the forgotten ones, handed
    out again by [new_vertex]. Ranges are iterated in ascending order. *)
Record graph_t : Type := Graph {
  g_size : nat;
  g_free : list nat;
  g_edges : gmap (nat * nat) Z
}.

Module graph.

Definition empty : graph_t := Graph 0 [] ∅.

Definition growTo (n : nat) (g : graph_t) : graph_t :=
  Graph (Nat.max n (g_size g)) (g_free g) (g_edges g).

Definition size (g : graph_t) : nat := g_size g.

Definition is_empty (g : graph_t) : bool := bool_decide (g_edges g = ∅).

Definition verts (g : graph_t) : list nat :=
  filter (λ v, v ∉ g_free g) (seq 0 (g_size g)).

Definition lookup (g : graph_t) (s d : nat) : option Z := g_edges g !! (s, d).

Definition elem (g : graph_t) (s d : nat) : bool := bool_decide (is_Some (lookup g s d)).

(** Reading the weight of an absent edge is undefined in the source; the
    model reads [0]. *)
Definition edge_val (g : graph_t) (s d : nat) : Z := default 0%Z (lookup g s d).

Definition e_succs (g : graph_t) (s : nat) : list (nat * Z) :=
  omap (λ d, (λ w, (d, w)) <$> lookup g s d) (seq 0 (g_size g)).

Definition e_preds (g : graph_t) (d : nat) : list (nat * Z) :=
  omap (λ s, (λ w, (s, w)) <$> lookup g s d) (seq 0 (g_size g)).

Definition succs (g : graph_t) (s : nat) : list nat := (e_succs g s).*1.
Definition preds (g : graph_t) (d : nat) : list nat := (e_preds g d).*1.

Definition set_edge (g : graph_t) (s : nat) (w : Z) (d : nat) : graph_t :=
  Graph (g_size g) (g_free g) (<[(s, d) := w]> (g_edges g)).

(** [add_edge] expects the edge to be absent. *)
Definition add_edge (g : graph_t) (s : nat) (w : Z) (d : nat) : graph_t := set_edge g s w d.

Definition update_edge (g : graph_t) (s : nat) (w : Z) (d : nat) : graph_t :=
  match lookup g s d with
  | Some w0 => set_edge g s (Z.min w0 w) d
  | None => set_edge g s w d
  end.

Definition forget (g : graph_t) (v : nat) : graph_t :=
  Graph (g_size g) (v :: g_free g)
        (filter (λ e, e.1.1 ≠ v ∧ e.1.2 ≠ v) (g_edges g)).

Definition new_vertex (g : graph_t) : nat * graph_t :=
  match g_free g with
  | v :: free => (v, Graph (g_size g) free (g_edges g))
  | [] => (g_size g, Graph (S (g_size g)) [] (g_edges g))
  end.

(** [SubGraph<G>(g, v_ex)], read side: the view of [g] without the vertex
    [v_ex] and its edges. *)
Definition excl (g : graph_t) (v_ex : nat) : graph_t :=
  Graph (g_size g) (v_ex :: g_free g)
        (filter (λ e, e.1.1 ≠ v_ex ∧ e.1.2 ≠ v_ex) (g_edges g)).

(** [GrPerm(perm, g)]: the view whose vertex [i] stands for the vertex
    [perm[i]] of [g]; an entry [-1] ([None]) stands for no vertex. *)
Definition perm_edges (perm : list (option nat)) (g : graph_t) : gmap (nat * nat) Z :=
  list_to_map
    (omap (λ ij : nat * nat,
             s ← mjoin (perm !! ij.1); d ← mjoin (perm !! ij.2);
             w ← lookup g s d; Some (ij, w))
          (i ← seq 0 (length perm); (λ j, (i, j)) <$> seq 0 (length perm))).

Definition GrPerm (perm : list (option nat)) (g : graph_t) : graph_t :=
  Graph (length perm) [] (perm_edges perm g).

End graph.

(** ** Numbers, bounds, intervals and linear expressions

    [number_t] is an unbounded integer. *)

(** Modelled from the spec: [bound_t] and [interval_t] (crab/interval.hpp)
    are not among the sources; an interval is bottom or a pair of bounds,
    each finite or infinite. *)
Inductive bound_t : Type :=
| MinusInfinity
| Number (n : Z)
| PlusInfinity.

Inductive interval_t : Type :=
| IntervalBottom
| Interval (lb ub : bound_t).

Module interval.

Definition top : interval_t := Interval MinusInfinity PlusInfinity.

Definition is_bottom (i : interval_t) : bool :=
  match i with IntervalBottom => true | _ => false end.

Definition is_top (i : interval_t) : bool :=
  match i with Interval MinusInfinity PlusInfinity => true | _ => false end.

Definition lb (i : interval_t) : bound_t :=
  match i with IntervalBottom => PlusInfinity | Interval l _ => l end.

Definition ub (i : interval_t) : bound_t :=
  match i with IntervalBottom => MinusInfinity | Interval _ u => u end.

Definition is_infinite (b : bound_t) : bool :=
  match b with Number _ => false | _ => true end.

Definition singleton (i : interval_t) : option Z :=
  match i with
  | Interval (Number l) (Number u) => if decide (l = u) then Some l else None
  | _ => None
  end.

End interval.

(** Modelled from the spec: [linear_expression_t] (crab/linear_expression.hpp)
    is not among the sources; "a linear expression e = Σ cᵢ·yᵢ + c₀", its
    terms in the order the source iterates them. *)
Record linear_expression_t : Type := LinExp {
  terms : list (nat * Z);
  constant : Z
}.

Module linexp.

Definition plus_const (e : linear_expression_t) (k : Z) : linear_expression_t :=
  LinExp (terms e) (constant e + k)%Z.

Definition negate (e : linear_expression_t) : linear_expression_t :=
  LinExp (prod_map id Z.opp <$> terms e) (- constant e)%Z.

End linexp.

(** Modelled from the spec: [linear_constraint_t] is not among the sources;
    a constraint relates its expression to zero by one of four kinds, and an
    inequality is signed or unsigned. *)
Inductive cst_kind : Type := EQUALITY | DISEQUATION | INEQUALITY | STRICT_INEQUALITY.

Record linear_constraint_t : Type := LinCst {
  expression : linear_expression_t;
  kind : cst_kind;
  is_signed : bool
}.

Module lincst.

Definition is_inequality (c : linear_constraint_t) : bool :=
  match kind c with INEQUALITY => true | _ => false end.
Definition is_strict_inequality (c : linear_constraint_t) : bool :=
  match kind c with STRICT_INEQUALITY => true | _ => false end.
Definition is_equality (c : linear_constraint_t) : bool :=
  match kind c with EQUALITY => true | _ => false end.
Definition is_disequation (c : linear_constraint_t) : bool :=
  match kind c with DISEQUATION => true | _ => false end.
Definition is_unsigned (c : linear_constraint_t) : bool := negb (is_signed c).

End lincst.

(** ** The SplitDBM state *)

Module SplitDBM.

Record t : Type := Dbm {
  vert_map : gmap nat nat;
  rev_map : list (option nat);
  g : graph_t;
  potential : list Z;
  unstable : gset nat;
  _is_bottom : bool
}.

(** Modelled from the spec: the constructors and the accessors [is_bottom],
    [is_top], [set_to_bottom] live in crab/split_dbm.hpp, which is not among
    the sources. "SplitDBM is created as top (empty graph + vertex 0) or
    bottom"; a state is top when it is not bottom and its graph has no
    edge. *)
Definition top : t := Dbm ∅ [None] (graph.growTo 1 graph.empty) [0%Z] ∅ false.
Definition bottom : t := Dbm ∅ [] graph.empty [] ∅ true.
Definition is_bottom (s : t) : bool := _is_bottom s.
Definition is_top (s : t) : bool := negb (_is_bottom s) && graph.is_empty (g s).
Definition set_to_bottom (s : t) : t := bottom.

Definition with_g (s : t) (g' : graph_t) : t :=
  Dbm (vert_map s) (rev_map s) g' (potential s) (unstable s) (_is_bottom s).
Definition with_potential (s : t) (p : list Z) : t :=
  Dbm (vert_map s) (rev_map s) (g s) p (unstable s) (_is_bottom s).

(** [potential[v]]; out of range the source reads past the vector, the
    model reads [0]. *)
Definition pot (p : list Z) (v : nat) : Z := default 0%Z (p !! v).

(** [vert_map] is a flat map: it is iterated in the order of its keys. *)
Definition key_le (a b : nat * nat) : Prop := a.1 ≤ b.1.
#[global] Instance key_le_dec (a b : nat * nat) : Decision (key_le a b) :=
  decide (a.1 ≤ b.1).
Definition vmap_items (m : gmap nat nat) : list (nat * nat) :=
  merge_sort key_le (map_to_list m).

(** Modelled from the spec: [get_interval] / [operator[]] are declared in
    the absent header. "Unary bound x ≤ k is edge 0 → vx weight k; x ≥ k is
    edge vx → 0 weight −k". *)
Definition get_interval (s : t) (x : nat) : interval_t :=
  match vert_map s !! x with
  | None => interval.top
  | Some v =>
      Interval (match graph.lookup (g s) v 0 with
                | Some w => Number (- w)
                | None => MinusInfinity
                end)
               (match graph.lookup (g s) 0 v with
                | Some w => Number w
                | None => PlusInfinity
                end)
  end.

(** What the domain takes from code that is not among the sources: the
    conversion to [Wt], the graph algorithms of [GrOps]
    (crab/graph_ops.hpp), the evaluation of expressions, and the predicates
    of [linear_constraint_t]. Out-parameters are returned. *)
Class Collaborators : Type := {
  (** [convert_NtoW(n, overflow)]: the weight and the overflow flag *)
  convert_NtoW : Z → Z * bool;
  (** what an operation on [Wt] leaves when its exact result does not fit
      the type *)
  Wt_wrap : Z → Z;
  (** [GrOps::meet(l, r, is_closed)] *)
  GrOps_meet : graph_t → graph_t → graph_t * bool;
  (** [GrOps::join(l, r)] *)
  GrOps_join : graph_t → graph_t → graph_t;
  (** [GrOps::close_after_meet(g, pot, l, r, delta)] *)
  close_after_meet : graph_t → list Z → graph_t → graph_t → list ((nat * nat) * Z) →
                     list ((nat * nat) * Z);
  (** [GrOps::close_after_assign(g, pot, v, delta)] *)
  close_after_assign : graph_t → list Z → nat → list ((nat * nat) * Z) →
                       list ((nat * nat) * Z);
  (** [GrOps::close_after_widen(g, pot, unstable, delta)] *)
  close_after_widen : graph_t → list Z → gset nat → list ((nat * nat) * Z) →
                      list ((nat * nat) * Z);
  (** [GrOps::apply_delta(g, delta)] *)
  apply_delta : graph_t → list ((nat * nat) * Z) → graph_t;
  (** [repair_potential(src, dest)]: the repaired potential, or [None] for
      [false] (a negative cycle) *)
  repair_potential : graph_t → list Z → nat → nat → option (list Z);
  (** [eval_interval(e)] *)
  eval_interval : t → linear_expression_t → interval_t;
  (** [eval_expression(e, overflow)] *)
  eval_expression : t → linear_expression_t → Z * bool;
  (** [add_disequation(e)] *)
  add_disequation : t → linear_expression_t → t;
  (** [cst.is_tautology()], [cst.is_contradiction()] *)
  is_tautology : linear_constraint_t → bool;
  is_contradiction : linear_constraint_t → bool
}.

Section domain.
Context `{Collaborators}.

(** Arithmetic on [Wt]. Modelled from the spec: the weight type is declared
    in an absent header; "a signed integral numeric type". An operation
    whose exact result converts to [Wt] without overflow is exact; any
    other result is what the type leaves, [Wt_wrap] of the exact result
    ("it will silently overflow", says [diffcsts_of_lin_leq]). *)
Definition Wt_of (z : Z) : Z := if (convert_NtoW z).2 then Wt_wrap z else z.
Definition Wt_add (a b : Z) : Z := Wt_of (a + b).
Definition Wt_sub (a b : Z) : Z := Wt_of (a - b).
Definition Wt_mul (a b : Z) : Z := Wt_of (a * b).
Definition Wt_neg (a : Z) : Z := Wt_of (- a).
(** Division on [Wt] truncates. *)
Definition Wt_div (a b : Z) : Z := Wt_of (a ÷ b).

(** [SplitDBM::get_vert] *)
Definition get_vert (s : t) (v : nat) : nat * t :=
  match vert_map s !! v with
  | Some n => (n, s)
  | None =>
      let '(vert, g') := graph.new_vertex (g s) in
      let vm := <[v := vert]> (vert_map s) in
      if decide (vert < length (rev_map s)) then
        (vert, Dbm vm (<[vert := Some v]> (rev_map s)) g'
                   (<[vert := 0%Z]> (potential s)) (unstable s) (_is_bottom s))
      else
        (vert, Dbm vm (rev_map s ++ [Some v]) g'
                   (potential s ++ [0%Z]) (unstable s) (_is_bottom s))
  end.

(** [SplitDBM::normalize] *)
Definition normalize (s : t) : t :=
  if decide (unstable s = ∅) then s
  else
    let delta := close_after_widen (graph.excl (g s) 0) (potential s) (unstable s) [] in
    let delta := close_after_assign (g s) (potential s) 0 delta in
    Dbm (vert_map s) (rev_map s) (apply_delta (g s) delta) (potential s) ∅ (_is_bottom s).

(** [SplitDBM::operator-=(variable_t)] *)
Definition forget (s : t) (v : nat) : t :=
  if is_bottom s then s
  else
    let s := normalize s in
    match vert_map s !! v with
    | Some n =>
        Dbm (delete v (vert_map s)) (<[n := None]> (rev_map s)) (graph.forget (g s) n)
            (potential s) (unstable s) (_is_bottom s)
    | None => s
    end.

(** [SplitDBM::set] *)
Definition set_lb (s : t) (v : nat) (intv : interval_t) : t :=
  match interval.lb intv with
  | Number n =>
      let '(lb, overflow) := convert_NtoW n in
      if (overflow : bool) then s
      else
        with_g (with_potential s (<[v := Wt_add (pot (potential s) 0) lb]> (potential s)))
               (graph.set_edge (g s) v (Wt_neg lb) 0)
  | _ => s
  end.

Definition set (s : t) (x : nat) (intv : interval_t) : t :=
  if is_bottom s then s
  else if interval.is_bottom intv then set_to_bottom s
  else
    let s := forget s x in
    if interval.is_top intv then s
    else
      let '(v, s) := get_vert s x in
      match interval.ub intv with
      | Number n =>
          let '(ub, overflow) := convert_NtoW n in
          if (overflow : bool) then s
          else
            let s := with_g (with_potential s (<[v := Wt_add (pot (potential s) 0) ub]> (potential s)))
                            (graph.set_edge (g s) 0 ub v) in
            set_lb s v intv
      | _ => set_lb s v intv
      end.

(** [SplitDBM::narrow]; the receiver is left normalized. *)
Definition narrow (s o : t) : t :=
  if is_bottom s || is_bottom o then bottom
  else if is_top s then o
  else normalize s.

(** [SplitDBM::operator<=]: the loop that fills [vert_renaming]; [None] is
    its [return false]. *)
Fixpoint leq_renaming (s o : t) (items : list (nat * nat)) (vert_renaming : list (option nat))
  : option (list (option nat)) :=
  match items with
  | [] => Some vert_renaming
  | (v, n) :: items' =>
      if decide (length (graph.succs (g o) n) = 0 ∧ length (graph.preds (g o) n) = 0)
      then leq_renaming s o items' vert_renaming
      else
        match vert_map s !! v with
        | None => None
        | Some m => leq_renaming s o items' (<[n := Some m]> vert_renaming)
        end
  end.

(** A lookup at renamed vertices; the entry [-1] ([None]) names no vertex
    and finds no edge. *)
Definition lookup_renamed (gr : graph_t) (x y : option nat) : option Z :=
  x' ← x; y' ← y; graph.lookup gr x' y'.

(** The body of the inner loop over the edges [ox → oy] of [o]; [false] is
    its [return false]. *)
Definition leq_edge (s : t) (vert_renaming : list (option nat)) (x : option nat)
    (edge : nat * Z) : bool :=
  let y := mjoin (vert_renaming !! edge.1) in
  let ow := edge.2 in
  if (match lookup_renamed (g s) x y with
      | Some wx => bool_decide (wx ≤ ow)%Z
      | None => false
      end)
  then true
  else
    match lookup_renamed (g s) x (Some 0), lookup_renamed (g s) (Some 0) y with
    | Some wx, Some wy => bool_decide (Wt_add wx wy ≤ ow)%Z
    | _, _ => false
    end.

(** [SplitDBM::operator<=]: the answer and the receiver, which the call
    normalizes. *)
Definition leq (s o : t) : bool * t :=
  if is_bottom s then (true, s)
  else if is_bottom o then (false, s)
  else if is_top o then (true, s)
  else if is_top s then (false, s)
  else
    let s := normalize s in
    if decide (size (vert_map s) < size (vert_map o)) then (false, s)
    else
      let vert_renaming := <[0 := Some 0]> (replicate (graph.size (g o)) None) in
      match leq_renaming s o (vmap_items (vert_map o)) vert_renaming with
      | None => (false, s)
      | Some vert_renaming =>
          (forallb
             (λ ox,
                if decide (length (graph.succs (g o) ox) = 0) then true
                else forallb (leq_edge s vert_renaming (mjoin (vert_renaming !! ox)))
                             (graph.e_succs (g o) ox))
             (graph.verts (g o)),
           s)
      end.

(** [SplitDBM::operator|]: the deferred relations of one operand, read off
    the unary bounds of [gx] for every edge of [g_excl]. *)
Definition deferred_relations (sz : nat) (gx g_excl : graph_t) : graph_t :=
  foldl (λ acc s,
           foldl (λ acc d,
                    match graph.lookup gx s 0, graph.lookup gx 0 d with
                    | Some ws, Some wd => graph.add_edge acc s (Wt_add ws wd) d
                    | _, _ => acc
                    end)
                 acc (graph.succs g_excl s))
        (graph.growTo sz graph.empty) (graph.verts g_excl).

(** Meet with the deferred relations, re-closed when the meet says so. *)
Definition meet_and_close (gx g_deferred : graph_t) (pot_r : list Z) : graph_t :=
  let '(g_r, is_closed) := GrOps_meet gx g_deferred in
  if (is_closed : bool) then g_r
  else apply_delta g_r (close_after_meet (graph.excl g_r 0) pot_r gx g_deferred []).

(** The two loops that re-apply the independent relations. *)
Definition reapply_bounds (gx gy : graph_t) (lbs ubs : list nat) (join_g : graph_t) : graph_t :=
  foldl (λ acc s,
           let dx_s := graph.edge_val gx s 0 in
           let dy_s := graph.edge_val gy s 0 in
           foldl (λ acc d,
                    if decide (s = d) then acc
                    else graph.update_edge acc s
                           (Z.max (Wt_add dx_s (graph.edge_val gx 0 d))
                                  (Wt_add dy_s (graph.edge_val gy 0 d))) d)
                 acc ubs)
        join_g lbs.

(** The garbage collection of unused vertices at the end of the join. *)
Definition collect_garbage (join_g : graph_t) (out_vmap : gmap nat nat)
    (out_revmap : list (option nat)) : graph_t * gmap nat nat * list (option nat) :=
  foldl (λ '(join_g, out_vmap, out_revmap) v,
           if decide (v = 0) then (join_g, out_vmap, out_revmap)
           else if decide (length (graph.succs join_g v) = 0 ∧ length (graph.preds join_g v) = 0)
           then
             match mjoin (out_revmap !! v) with
             | Some x => (graph.forget join_g v, delete x out_vmap, <[v := None]> out_revmap)
             | None => (graph.forget join_g v, out_vmap, out_revmap)
             end
           else (join_g, out_vmap, out_revmap))
        (join_g, out_vmap, out_revmap) (graph.verts join_g).

Definition join (s _o : t) : t :=
  if is_bottom s || is_top _o then _o
  else if is_top s || is_bottom _o then s
  else
    let s := normalize s in
    let o := normalize _o in
    (* the variables of both operands, with their vertices in each *)
    let common :=
      omap (λ vn : nat * nat, (λ m, (vn.1, vn.2, m)) <$> vert_map o !! vn.1)
           (vmap_items (vert_map s)) in
    let perm_x := Some 0 :: ((λ c : nat * nat * nat, Some c.1.2) <$> common) in
    let perm_y := Some 0 :: ((λ c : nat * nat * nat, Some c.2) <$> common) in
    let pot_rx :=
      0%Z :: ((λ c : nat * nat * nat, Wt_sub (pot (potential s) c.1.2) (pot (potential s) 0)) <$> common) in
    let pot_ry :=
      0%Z :: ((λ c : nat * nat * nat, Wt_sub (pot (potential o) c.2) (pot (potential o) 0)) <$> common) in
    let out_vmap : gmap nat nat :=
      list_to_map (imap (λ i (c : nat * nat * nat), (c.1.1, S i)) common) in
    let out_revmap := None :: ((λ c : nat * nat * nat, Some c.1.1) <$> common) in
    let sz := length perm_x in
    let gx := graph.GrPerm perm_x (g s) in
    let gy := graph.GrPerm perm_y (g o) in
    let gx_excl := graph.excl gx 0 in
    let gy_excl := graph.excl gy 0 in
    let g_ix_ry := deferred_relations sz gx gy_excl in
    let g_rx := meet_and_close gx g_ix_ry pot_rx in
    let g_rx_iy := deferred_relations sz gy gx_excl in
    let g_ry := meet_and_close gy g_rx_iy pot_ry in
    let join_g := GrOps_join g_rx g_ry in
    let both (a b : nat) (lt : Z → Z → bool) : bool :=
      match graph.lookup gx a b, graph.lookup gy a b with
      | Some wx, Some wy => lt wx wy
      | _, _ => false
      end in
    let ub_up := filter (λ v, both 0 v Z.ltb) (graph.verts gx_excl) in
    let ub_down := filter (λ v, both 0 v (λ wx wy, Z.ltb wy wx)) (graph.verts gx_excl) in
    let lb_down := filter (λ v, both v 0 Z.ltb) (graph.verts gx_excl) in
    let lb_up := filter (λ v, both v 0 (λ wx wy, Z.ltb wy wx)) (graph.verts gx_excl) in
    let join_g := reapply_bounds gx gy lb_up ub_up join_g in
    let join_g := reapply_bounds gx gy lb_down ub_down join_g in
    let '(join_g, out_vmap, out_revmap) := collect_garbage join_g out_vmap out_revmap in
    Dbm out_vmap out_revmap join_g pot_rx ∅ false.

(** [SplitDBM::diffcsts_of_assign], the loop over the terms of the
    expression. The result is the residual, the unbounded variable and the
    bounded terms; [None] is the [return] that abandons the derivation. *)
Fixpoint assign_terms (s : t) (extract_upper_bounds : bool) (ts : list (nat * Z))
    (residual : Z) (unbounded_var : option nat) (bounded : list (nat * Z))
  : option (Z * option nat * list (nat * Z)) :=
  match ts with
  | [] => Some (residual, unbounded_var, bounded)
  | (y, n) :: ts' =>
      let '(coeff, overflow) := convert_NtoW n in
      if (overflow : bool) then
        assign_terms s extract_upper_bounds ts' residual unbounded_var bounded
      else if decide (coeff < 0)%Z then
        let y_val := if extract_upper_bounds then interval.lb (get_interval s y)
                     else interval.ub (get_interval s y) in
        match y_val with
        | Number k =>
            assign_terms s extract_upper_bounds ts'
              (Wt_add residual (Wt_mul (convert_NtoW k).1 coeff)) unbounded_var bounded
        | _ => None
        end
      else
        let y_val := if extract_upper_bounds then interval.ub (get_interval s y)
                     else interval.lb (get_interval s y) in
        match y_val with
        | Number k =>
            let '(ymax, overflow) := convert_NtoW k in
            if (overflow : bool) then
              assign_terms s extract_upper_bounds ts' residual unbounded_var bounded
            else
              assign_terms s extract_upper_bounds ts'
                (Wt_add residual (Wt_mul ymax coeff)) unbounded_var (bounded ++ [(y, ymax)])
        | _ =>
            if decide (is_Some unbounded_var ∨ coeff ≠ 1%Z) then None
            else assign_terms s extract_upper_bounds ts' residual (Some y) bounded
        end
  end.

(** [SplitDBM::diffcsts_of_assign(x, exp, extract_upper_bounds, diff_csts)]:
    the vector [diff_csts] after the call. *)
Definition diffcsts_of_assign (s : t) (x : nat) (exp : linear_expression_t)
    (extract_upper_bounds : bool) (diff_csts : list (nat * Z)) : list (nat * Z) :=
  let '(residual, overflow) := convert_NtoW (constant exp) in
  if (overflow : bool) then diff_csts
  else
    match assign_terms s extract_upper_bounds (terms exp) residual None [] with
    | None => diff_csts
    | Some (residual, Some unbounded_var, _) => diff_csts ++ [(unbounded_var, residual)]
    | Some (residual, None, bounded) =>
        diff_csts ++ ((λ vn : nat * Z, (vn.1, Wt_sub residual vn.2)) <$> bounded)
    end.

(** The bound of [y] that a term [coeff·y] consumes when the bounds of the
    given polarity are derived: the opposite bound under a negative
    coefficient. *)
Definition term_bound (s : t) (extract_upper_bounds : bool) (y : nat) (coeff : Z) : bound_t :=
  if decide (coeff < 0)%Z then
    if extract_upper_bounds then interval.lb (get_interval s y)
    else interval.ub (get_interval s y)
  else
    if extract_upper_bounds then interval.ub (get_interval s y)
    else interval.lb (get_interval s y).

Definition bound_number (b : bound_t) : Z :=
  match b with Number n => n | _ => 0%Z end.

(** The conversion of [n] to [Wt] is exact. *)
Definition fits (n : Z) : Prop := convert_NtoW n = (n, false).

(** A term whose coefficient converts and whose consumed bound is finite
    and converts. *)
Definition term_fits (s : t) (extract_upper_bounds : bool) (yn : nat * Z) : Prop :=
  fits yn.2 ∧ ∃ v, term_bound s extract_upper_bounds yn.1 yn.2 = Number v ∧ fits v.

(** The constant plus the bounded contributions [coeff · bound] of the
    terms. *)
Definition assign_residual (s : t) (extract_upper_bounds : bool) (ts : list (nat * Z))
    (k : Z) : Z :=
  foldl (λ r (yn : nat * Z),
           (r + bound_number (term_bound s extract_upper_bounds yn.1 yn.2) * yn.2)%Z)
        k ts.

(** [z] converts to [Wt] without overflow, so an operation on [Wt] whose
    exact result is [z] is exact. *)
Definition in_Wt (z : Z) : Prop := (convert_NtoW z).2 = false.

(** Nothing overflows in the loop of [diffcsts_of_assign] started with
    [residual]: every product [bound · coeff] and every partial sum of the
    residual converts to [Wt]. *)
Fixpoint assign_in_range (s : t) (extract_upper_bounds : bool) (ts : list (nat * Z))
    (residual : Z) : Prop :=
  match ts with
  | [] => True
  | yn :: ts' =>
      let p := (bound_number (term_bound s extract_upper_bounds yn.1 yn.2) * yn.2)%Z in
      in_Wt p ∧ in_Wt (residual + p) ∧
      assign_in_range s extract_upper_bounds ts' (residual + p)
  end.

(** The constraints the specification describes for the all-bounded case.
    Modelled from the spec: "if all variables are bounded, emit
    x − yᵢ ≤ residual − (coeff · bound_of_yᵢ) for each term". *)
Definition spec_diffcsts_of_assign (s : t) (exp : linear_expression_t)
    (extract_upper_bounds : bool) (diff_csts : list (nat * Z)) : list (nat * Z) :=
  let residual := assign_residual s extract_upper_bounds (terms exp) (constant exp) in
  diff_csts ++
  ((λ yn : nat * Z,
      (yn.1, (residual - yn.2 * bound_number (term_bound s extract_upper_bounds yn.1 yn.2))%Z))
     <$> terms exp).

(** The overload [diffcsts_of_assign(x, e, diffs_lb, diffs_ub)].
    Modelled from the spec: it is defined in the absent header; "derive
    diffs_lb, diffs_ub via diffcsts_of_assign", one call per polarity. *)
Definition diffcsts_of_assign_both (s : t) (x : nat) (exp : linear_expression_t)
  : list (nat * Z) * list (nat * Z) :=
  (diffcsts_of_assign s x exp false [], diffcsts_of_assign s x exp true []).

(** Install or tighten the edge [src → dst] with weight [w]; [None] is the
    [continue] taken when the edge in place is at least as tight. *)
Definition tighten (gr : graph_t) (src : nat) (w : Z) (dst : nat) (found : option Z)
  : option graph_t :=
  match found with
  | Some w0 => if decide (w0 ≤ w)%Z then None else Some (graph.set_edge gr src w dst)
  | None => Some (graph.add_edge gr src w dst)
  end.

(** [SplitDBM::close_over_edge]. Each range is the one of the graph as it
    stands when its loop starts. *)
Definition close_over_edge (s : t) (ii jj : nat) : t :=
  let gr := g s in
  let c := graph.edge_val (graph.excl gr 0) ii jj in
  let '(gr, src_dec) :=
    foldl (λ '(gr, src_dec) (edge : nat * Z),
             let se := edge.1 in
             let wt_sij := Wt_add edge.2 c in
             if decide (se = jj) then (gr, src_dec)
             else
               match tighten gr se wt_sij jj (graph.lookup (graph.excl gr 0) se jj) with
               | None => (gr, src_dec)
               | Some gr' => (gr', src_dec ++ [(se, edge.2)])
               end)
          (gr, []) (graph.e_preds (graph.excl gr 0) ii) in
  let '(gr, dest_dec) :=
    foldl (λ '(gr, dest_dec) (edge : nat * Z),
             let de := edge.1 in
             let wt_ijd := Wt_add edge.2 c in
             if decide (de = ii) then (gr, dest_dec)
             else
               match tighten gr ii wt_ijd de (graph.lookup (graph.excl gr 0) ii de) with
               | None => (gr, dest_dec)
               | Some gr' => (gr', dest_dec ++ [(de, edge.2)])
               end)
          (gr, []) (graph.e_succs (graph.excl gr 0) jj) in
  let gr :=
    foldl (λ gr (sp : nat * Z),
             let wt_sij := Wt_add c sp.2 in
             foldl (λ gr (dp : nat * Z),
                      let wt_sijd := Wt_add wt_sij dp.2 in
                      match tighten gr sp.1 wt_sijd dp.1 (graph.lookup gr sp.1 dp.1) with
                      | None => gr
                      | Some gr' => gr'
                      end)
                   gr dest_dec)
          gr src_dec in
  with_g s gr.

(** What the loop of [diffcsts_of_lin_leq] keeps between rounds. *)
Record lin_leq_acc : Type := LinLeqAcc {
  exp_ub : Z;
  unbounded_lb : option (nat * Z);
  unbounded_ub : option (nat * Z);
  pos_terms : list ((Z * nat) * Z);
  neg_terms : list ((Z * nat) * Z)
}.

(** [SplitDBM::diffcsts_of_lin_leq], the loop over the terms; [None] is
    the [return] that abandons the derivation. *)
Fixpoint lin_leq_terms (s : t) (ts : list (nat * Z)) (a : lin_leq_acc) : option lin_leq_acc :=
  match ts with
  | [] => Some a
  | (y, n) :: ts' =>
      let '(coeff, overflow) := convert_NtoW n in
      if (overflow : bool) then lin_leq_terms s ts' a
      else if decide (0 < coeff)%Z then
        match interval.lb (get_interval s y) with
        | Number k =>
            let '(ymin, overflow) := convert_NtoW k in
            if (overflow : bool) then lin_leq_terms s ts' a
            else lin_leq_terms s ts'
                   (LinLeqAcc (Wt_sub (exp_ub a) (Wt_mul ymin coeff)) (unbounded_lb a) (unbounded_ub a)
                              (pos_terms a ++ [((coeff, y), ymin)]) (neg_terms a))
        | _ =>
            match unbounded_lb a with
            | Some _ => None
            | None => lin_leq_terms s ts'
                        (LinLeqAcc (exp_ub a) (Some (y, coeff)) (unbounded_ub a)
                                   (pos_terms a) (neg_terms a))
            end
        end
      else
        match interval.ub (get_interval s y) with
        | Number k =>
            let '(ymax, overflow) := convert_NtoW k in
            if (overflow : bool) then lin_leq_terms s ts' a
            else lin_leq_terms s ts'
                   (LinLeqAcc (Wt_sub (exp_ub a) (Wt_mul ymax coeff)) (unbounded_lb a) (unbounded_ub a)
                              (pos_terms a) (neg_terms a ++ [((Wt_neg coeff, y), ymax)]))
        | _ =>
            match unbounded_ub a with
            | Some _ => None
            | None => lin_leq_terms s ts'
                        (LinLeqAcc (exp_ub a) (unbounded_lb a) (Some (y, Wt_neg coeff))
                                   (pos_terms a) (neg_terms a))
            end
        end
  end.

(** [SplitDBM::diffcsts_of_lin_leq(exp, csts, lbs, ubs)]: the three vectors
    after the call, each started empty. *)
Definition diffcsts_of_lin_leq (s : t) (exp : linear_expression_t)
  : list ((nat * nat) * Z) * list (nat * Z) * list (nat * Z) :=
  let '(k, overflow) := convert_NtoW (constant exp) in
  if (overflow : bool) then ([], [], [])
  else if ((convert_NtoW (constant exp - 1)).2 : bool) then ([], [], [])
  else
    match lin_leq_terms s (terms exp) (LinLeqAcc (Wt_neg k) None None [] []) with
    | None => ([], [], [])
    | Some a =>
        let exp_ub := exp_ub a in
        match unbounded_lb a, unbounded_ub a with
        | Some (x, lbcoeff), Some (y, ubcoeff) =>
            if decide (lbcoeff ≠ 1 ∨ ubcoeff ≠ 1)%Z then ([], [], [])
            else ([((x, y), exp_ub)], [], [])
        | Some (x, lbcoeff), None =>
            ((if decide (lbcoeff = 1%Z)
              then (λ nk : (Z * nat) * Z, ((x, nk.1.2), Wt_sub exp_ub nk.2)) <$> neg_terms a
              else []),
             [],
             [(x, Wt_div exp_ub lbcoeff)])
        | None, Some (y, ubcoeff) =>
            ((if decide (ubcoeff = 1%Z)
              then (λ nk : (Z * nat) * Z, ((nk.1.2, y), Wt_add exp_ub nk.2)) <$> pos_terms a
              else []),
             [(y, Wt_div (Wt_neg exp_ub) ubcoeff)],
             [])
        | None, None =>
            ((neg ← neg_terms a;
              (λ pos : (Z * nat) * Z, ((pos.1.2, neg.1.2), Wt_add (Wt_sub exp_ub neg.2) pos.2))
                <$> pos_terms a),
             (λ neg : (Z * nat) * Z, (neg.1.2, Wt_add (Wt_div (Wt_neg exp_ub) neg.1.1) neg.2))
               <$> neg_terms a,
             (λ pos : (Z * nat) * Z, (pos.1.2, Wt_add (Wt_div exp_ub pos.1.1) pos.2)) <$> pos_terms a)
        end
    end.

(** A loop whose body may [return false] after [set_to_bottom()]: [None]
    is that exit. *)
Fixpoint until_bottom {A : Type} (f : t → A → option t) (s : t) (l : list A) : option t :=
  match l with
  | [] => Some s
  | x :: l' => match f s x with
               | Some s' => until_bottom f s' l'
               | None => None
               end
  end.

(** The edge [src → dst] was just written: repair the potential, or
    fail. *)
Definition repaired (s : t) (src dst : nat) : option t :=
  with_potential s <$> repair_potential (g s) (potential s) src dst.

(** [SplitDBM::add_linear_leq]: [false] comes with the bottom state. *)
Definition add_linear_leq (s : t) (exp : linear_expression_t) : bool * t :=
  let '(csts, lbs, ubs) := diffcsts_of_lin_leq s exp in
  let after_lbs :=
    until_bottom (λ s (vn : nat * Z),
                    let '(vert, s) := get_vert s vn.1 in
                    match graph.lookup (g s) vert 0 with
                    | Some w => if decide (w ≤ Wt_neg vn.2)%Z then Some s
                                else repaired (with_g s (graph.set_edge (g s) vert (Wt_neg vn.2) 0)) vert 0
                    | None => repaired (with_g s (graph.set_edge (g s) vert (Wt_neg vn.2) 0)) vert 0
                    end) s lbs in
  let after_ubs :=
    s ← after_lbs;
    until_bottom (λ s (vn : nat * Z),
                    let '(vert, s) := get_vert s vn.1 in
                    match graph.lookup (g s) 0 vert with
                    | Some w => if decide (w ≤ vn.2)%Z then Some s
                                else repaired (with_g s (graph.set_edge (g s) 0 vn.2 vert)) 0 vert
                    | None => repaired (with_g s (graph.set_edge (g s) 0 vn.2 vert)) 0 vert
                    end) s ubs in
  let after_csts :=
    s ← after_ubs;
    until_bottom (λ s (dk : (nat * nat) * Z),
                    let '(src, s) := get_vert s dk.1.2 in
                    let '(dest, s) := get_vert s dk.1.1 in
                    s ← repaired (with_g s (graph.update_edge (g s) src dk.2 dest)) src dest;
                    Some (close_over_edge s src dest)) s csts in
  match after_csts with
  | None => (false, set_to_bottom s)
  | Some s =>
      let delta := close_after_assign (g s) (potential s) 0 [] in
      (true, with_g s (apply_delta (g s) delta))
  end.

(** [SplitDBM::operator+=(linear_constraint_t)] *)
Definition add_constraint (s : t) (cst : linear_constraint_t) : t :=
  if lincst.is_inequality cst && lincst.is_unsigned cst then s
  else if is_bottom s then s
  else
    let s := normalize s in
    if is_tautology cst then s
    else if is_contradiction cst then set_to_bottom s
    else if lincst.is_inequality cst then
      let '(ok, s) := add_linear_leq s (expression cst) in
      if (ok : bool) then s else set_to_bottom s
    else if lincst.is_strict_inequality cst then
      (* [nc] is built with kind INEQUALITY, so [nc.is_inequality()] holds *)
      let '(ok, s) := add_linear_leq s (linexp.plus_const (expression cst) 1) in
      if (ok : bool) then s else set_to_bottom s
    else if lincst.is_equality cst then
      let '(ok, s) := add_linear_leq s (expression cst) in
      if (ok : bool) then
        let '(ok, s) := add_linear_leq s (linexp.negate (expression cst)) in
        if (ok : bool) then s else set_to_bottom s
      else set_to_bottom s
    else if lincst.is_disequation cst then add_disequation s (expression cst)
    else s.

(** [SplitDBM::assign(variable_t, linear_expression_t)] *)
Definition assign_diffs (s : t) (x : nat) (e : linear_expression_t)
    (lb_w ub_w : option Z) (x_int : interval_t) : t :=
  let '(diffs_lb, diffs_ub) := diffcsts_of_assign_both s x e in
  if decide (diffs_lb ≠ [] ∨ diffs_ub ≠ []) then
    let '(e_val, overflow) := eval_expression s e in
    if (overflow : bool) then forget s x
    else
      let '(vert, g') := graph.new_vertex (g s) in
      let s :=
        if decide (vert = length (rev_map s)) then
          Dbm (vert_map s) (rev_map s ++ [Some x]) g'
              (potential s ++ [Wt_add (pot (potential s) 0) e_val]) (unstable s) (_is_bottom s)
        else
          Dbm (vert_map s) (<[vert := Some x]> (rev_map s)) g'
              (<[vert := Wt_add (pot (potential s) 0) e_val]> (potential s))
              (unstable s) (_is_bottom s) in
      let '(s, delta) :=
        foldl (λ '(s, delta) (vn : nat * Z),
                 let '(v, s) := get_vert s vn.1 in
                 (s, delta ++ [((vert, v), Wt_neg vn.2)]))
              (s, []) diffs_lb in
      let '(s, delta) :=
        foldl (λ '(s, delta) (vn : nat * Z),
                 let '(v, s) := get_vert s vn.1 in
                 (s, delta ++ [((v, vert), vn.2)]))
              (s, delta) diffs_ub in
      let s := with_g s (apply_delta (g s) delta) in
      let delta := close_after_assign (graph.excl (g s) 0) (potential s) vert [] in
      let s := with_g s (apply_delta (g s) delta) in
      let s := match lb_w with
               | Some w => with_g s (graph.update_edge (g s) vert w 0)
               | None => s
               end in
      let s := match ub_w with
               | Some w => with_g s (graph.update_edge (g s) 0 w vert)
               | None => s
               end in
      let s := forget s x in
      match vert_map s !! x with
      | Some _ => s
      | None => Dbm (<[x := vert]> (vert_map s)) (rev_map s) (g s) (potential s)
                    (unstable s) (_is_bottom s)
      end
  else set s x x_int.

Definition assign (s : t) (x : nat) (e : linear_expression_t) : t :=
  if is_bottom s then s
  else
    let s := normalize s in
    let x_int := eval_interval s e in
    let lb := match interval.lb x_int with
              | Number n => Some (convert_NtoW (- n))
              | _ => None
              end in
    let ub := match interval.ub x_int with
              | Number n => Some (convert_NtoW n)
              | _ => None
              end in
    if (match lb with Some (_, true) => true | _ => false end) then forget s x
    else if (match ub with Some (_, true) => true | _ => false end) then forget s x
    else
      match interval.singleton x_int with
      | Some x_n => set s x (Interval (Number x_n) (Number x_n))
      | None => assign_diffs s x e (fst <$> lb) (fst <$> ub) x_int
      end.

End domain.
(** *** The remaining lattice operations and the renaming

    [GrOps::widen] and [GrOps::select_potentials] are taken as parameters,
    like the collaborators above: crab/graph_ops.hpp is not among the
    sources. *)

Section lattice.
Context `{Collaborators}.

(** [GrOps::widen(l, r, destabilized)]: the graph and the destabilized
    vertices. *)
Variable GrOps_widen : graph_t → graph_t → graph_t * list nat.
(** [GrOps::select_potentials(g, pi)]: the new potentials, or [None] for
    [false]. *)
Variable GrOps_select_potentials : graph_t → list Z → option (list Z).

(** [vert_map.insert(vmap_elt_t(k, v))]: an existing binding of [k] is
    kept. *)
Definition vmap_insert (k v : nat) (m : gmap nat nat) : gmap nat nat :=
  match m !! k with
  | Some _ => m
  | None => <[k := v]> m
  end.

(** [SplitDBM::forget(const variable_vector_t&)] *)
Definition forget_all (s : t) (variables : list nat) : t :=
  if is_bottom s || is_top s then s
  else
    foldl (λ s v, match vert_map s !! v with
                  | Some _ => forget s v
                  | None => s
                  end) s variables.

(** The name a variable gets in [SplitDBM::rename]: [to[pos]] for the first
    position [pos] of the variable in [from], the variable itself when it
    is not in [from]. [None] when [to] has no position [pos]: the source
    then reads past the end of [to]. *)
Definition renamed (from to : list nat) (k : nat) : option nat :=
  match list_find (λ v, v = k) from with
  | Some (pos, _) => to !! pos
  | None => Some k
  end.

(** One round of the loop of [SplitDBM::rename] over [vert_map]. *)
Definition rename_step (from to : list nat)
    (acc : option (gmap nat nat * list (option nat))) (kv : nat * nat)
  : option (gmap nat nat * list (option nat)) :=
  match acc with
  | None => None
  | Some (new_vert_map, rev_map) =>
      match list_find (λ v, v = kv.1) from with
      | Some (pos, _) =>
          match to !! pos with
          | Some new_v =>
              Some (vmap_insert new_v kv.2 new_vert_map, <[kv.2 := Some new_v]> rev_map)
          | None => None
          end
      | None => Some (vmap_insert kv.1 kv.2 new_vert_map, rev_map)
      end
  end.

(** [SplitDBM::rename]; [None] when the loop reads past the end of [to]. *)
Definition rename (s : t) (from to : list nat) : option t :=
  if is_top s || is_bottom s then Some s
  else
    match foldl (rename_step from to) (Some (∅, rev_map s)) (vmap_items (vert_map s)) with
    | Some (new_vert_map, rev_map') =>
        Some (Dbm new_vert_map rev_map' (g s) (potential s) (unstable s) (_is_bottom s))
    | None => None
    end.

(** The variables of both operands with their vertices in each, in the
    order of [vert_map]: the loop shared by [operator|] and [widen]. *)
Definition common_vars (s o : t) : list (nat * nat * nat) :=
  omap (λ vn : nat * nat, (λ m, (vn.1, vn.2, m)) <$> vert_map o !! vn.1)
       (vmap_items (vert_map s)).

(** [SplitDBM::widen] *)
Definition widen (s _o : t) : t :=
  if is_bottom s then _o
  else if is_bottom _o then s
  else
    let o := normalize _o in
    let common := common_vars s o in
    let perm_x := Some 0 :: ((λ c : nat * nat * nat, Some c.1.2) <$> common) in
    let perm_y := Some 0 :: ((λ c : nat * nat * nat, Some c.2) <$> common) in
    let out_vmap : gmap nat nat :=
      list_to_map (imap (λ i (c : nat * nat * nat), (c.1.1, S i)) common) in
    let out_revmap := None :: ((λ c : nat * nat * nat, Some c.1.1) <$> common) in
    let widen_pot :=
      0%Z :: ((λ c : nat * nat * nat, Wt_sub (pot (potential s) c.1.2) (pot (potential s) 0))
                <$> common) in
    let gx := graph.GrPerm perm_x (g s) in
    let gy := graph.GrPerm perm_y (g o) in
    let '(widen_g, destabilized) := GrOps_widen gx gy in
    Dbm out_vmap out_revmap widen_g widen_pot (unstable s ∪ list_to_set destabilized) false.

(** What the two loops of [operator&] build: the vertex map, its inverse,
    the two permutations and the potentials. *)
Record meet_acc : Type := MeetAcc {
  meet_verts : gmap nat nat;
  meet_rev : list (option nat);
  meet_perm_x : list (option nat);
  meet_perm_y : list (option nat);
  meet_pi : list Z
}.

(** The loop over the left operand: its vertices onto a contiguous range. *)
Definition meet_left (s : t) : meet_acc :=
  foldl (λ a (vn : nat * nat),
           MeetAcc (vmap_insert vn.1 (length (meet_perm_x a)) (meet_verts a))
                   (meet_rev a ++ [Some vn.1])
                   (meet_perm_x a ++ [Some vn.2])
                   (meet_perm_y a ++ [None])
                   (meet_pi a ++ [Wt_sub (pot (potential s) vn.2) (pot (potential s) 0)]))
        (MeetAcc ∅ [None] [Some 0] [Some 0] [0%Z]) (vmap_items (vert_map s)).

(** The loop over the right operand: the missing mappings. *)
Definition meet_right (o : t) (a : meet_acc) : meet_acc :=
  foldl (λ a (vn : nat * nat),
           match meet_verts a !! vn.1 with
           | None =>
               MeetAcc (vmap_insert vn.1 (length (meet_perm_y a)) (meet_verts a))
                       (meet_rev a ++ [Some vn.1])
                       (meet_perm_x a ++ [None])
                       (meet_perm_y a ++ [Some vn.2])
                       (meet_pi a ++ [Wt_sub (pot (potential o) vn.2) (pot (potential o) 0)])
           | Some vv =>
               MeetAcc (meet_verts a) (meet_rev a) (meet_perm_x a)
                       (<[vv := Some vn.2]> (meet_perm_y a)) (meet_pi a)
           end)
        a (vmap_items (vert_map o)).

(** What [operator&] hands to [GrOps::select_potentials] outside its
    shortcuts: the syntactic meet of the permuted graphs (with its
    [is_closed] flag) and the potentials collected by the two loops. *)
Definition meet_operands (s o : t) : meet_acc :=
  meet_right (normalize o) (meet_left (normalize s)).
Definition meet_graph (s o : t) : graph_t * bool :=
  let a := meet_operands s o in
  GrOps_meet (graph.GrPerm (meet_perm_x a) (g (normalize s)))
             (graph.GrPerm (meet_perm_y a) (g (normalize o))).

(** [SplitDBM::operator&] *)
Definition meet (s o : t) : t :=
  if is_bottom s || is_bottom o then bottom
  else if is_top s then o
  else if is_top o then s
  else
    let s := normalize s in
    let o := normalize o in
    let a := meet_right o (meet_left s) in
    let gx := graph.GrPerm (meet_perm_x a) (g s) in
    let gy := graph.GrPerm (meet_perm_y a) (g o) in
    let '(meet_g, is_closed) := GrOps_meet gx gy in
    match GrOps_select_potentials meet_g (meet_pi a) with
    | None => bottom
    | Some pi =>
        let meet_g :=
          if (is_closed : bool) then meet_g
          else
            let delta := close_after_meet (graph.excl meet_g 0) pi gx gy [] in
            let meet_g := apply_delta meet_g delta in
            let delta := close_after_assign meet_g pi 0 [] in
            apply_delta meet_g delta in
        Dbm (meet_verts a) (meet_rev a) meet_g pi ∅ false
    end.

End lattice.

(** The edges of [g1] are edges of [g2], with weights at most as large. *)
Definition graph_tightened (g1 g2 : graph_t) : Prop :=
  ∀ i j w, graph.lookup g1 i j = Some w → ∃ w', graph.lookup g2 i j = Some w' ∧ (w' ≤ w)%Z.

(** [vert_map] and [rev_map] name the same pairs, and no variable sits on
    vertex [0]. *)
Definition maps_agree (s : t) : Prop :=
  (∀ x v, vert_map s !! x = Some v ↔ rev_map s !! v = Some (Some x)) ∧
  rev_map s !! 0 = Some None.

End SplitDBM.

(** ** A model of the collaborators

    Modelled from the spec: none of the functions below is among the
    sources. Each follows the words of the spec and is used to run the
    domain on concrete states. *)

Module spec_model.

(** "a signed integral numeric type": the 64-bit range. *)
Definition convert_NtoW (n : Z) : Z * bool :=
  if decide (- 2 ^ 63 ≤ n < 2 ^ 63)%Z then (n, false) else (0%Z, true).

(** A result that does not fit wraps around in two's complement. *)
Definition Wt_wrap (z : Z) : Z := ((z + 2 ^ 63) `mod` 2 ^ 64 - 2 ^ 63)%Z.

(** "Take syntactic edge meet (minimum weight)"; the meet is never reported
    closed, so the caller always re-closes. *)
Definition meet (l r : graph_t) : graph_t * bool :=
  (Graph (Nat.max (g_size l) (g_size r)) []
         (union_with (λ a b, Some (Z.min a b)) (g_edges l) (g_edges r)),
   false).

(** "take pointwise edge join on the two closed graphs": the edges of both,
    at the larger weight. *)
Definition join (l r : graph_t) : graph_t :=
  Graph (Nat.max (g_size l) (g_size r)) []
        (intersection_with (λ a b, Some (Z.max a b)) (g_edges l) (g_edges r)).

(** One round of relaxation through the vertex [k]. *)
Definition relax_through (vs : list nat) (es : gmap (nat * nat) Z) (k : nat) : gmap (nat * nat) Z :=
  foldl (λ es i,
           foldl (λ es j,
                    if decide (i = j) then es
                    else
                      match es !! (i, k), es !! (k, j) with
                      | Some a, Some b =>
                          match es !! (i, j) with
                          | Some w => if decide (a + b < w)%Z then <[(i, j) := (a + b)%Z]> es else es
                          | None => <[(i, j) := (a + b)%Z]> es
                          end
                      | _, _ => es
                      end)
                 es vs)
        es vs.

(** "Closure (transitive tightness)": the tightest edges along paths. *)
Definition closure (gr : graph_t) : gmap (nat * nat) Z :=
  foldl (relax_through (graph.verts gr)) (g_edges gr) (graph.verts gr).

(** The edges of the closure that the graph lacks or holds looser, among
    those that [keep] selects. *)
Definition closure_delta (gr : graph_t) (keep : nat * nat → bool)
  : list ((nat * nat) * Z) :=
  filter (λ e, keep e.1 = true ∧ g_edges gr !! e.1 ≠ Some e.2) (map_to_list (closure gr)).

(** "re-close (close_after_meet)" *)
Definition close_after_meet (gr : graph_t) (pot : list Z) (l r : graph_t)
    (delta : list ((nat * nat) * Z)) : list ((nat * nat) * Z) :=
  delta ++ closure_delta gr (λ _, true).

(** "close_after_assign from vertex 0, which re-derives unary bounds": the
    closure edges at the vertex [v]. *)
Definition close_after_assign (gr : graph_t) (pot : list Z) (v : nat)
    (delta : list ((nat * nat) * Z)) : list ((nat * nat) * Z) :=
  delta ++ closure_delta gr (λ e, bool_decide (e.1 = v ∨ e.2 = v)).

(** "re-close edges incident to unstable vertices" *)
Definition close_after_widen (gr : graph_t) (pot : list Z) (unstable : gset nat)
    (delta : list ((nat * nat) * Z)) : list ((nat * nat) * Z) :=
  delta ++ closure_delta gr (λ e, bool_decide (e.1 ∈ unstable ∨ e.2 ∈ unstable)).

(** [apply_delta]: the edges of [delta] are written over the graph. *)
Definition apply_delta (gr : graph_t) (delta : list ((nat * nat) * Z)) : graph_t :=
  foldl (λ gr e, graph.set_edge gr e.1.1 e.2 e.1.2) gr delta.

(** "Bellman-Ford-style relaxation ... returns false iff a negative cycle
    is created": potentials are lowered along the edges, one round per
    vertex slot; an edge still violated afterwards betrays a negative
    cycle. *)
Definition relax_potential (gr : graph_t) (pot : list Z) : list Z :=
  foldl (λ pot (e : (nat * nat) * Z),
           let candidate := (SplitDBM.pot pot e.1.1 + e.2)%Z in
           if decide (candidate < SplitDBM.pot pot e.1.2)%Z then <[e.1.2 := candidate]> pot else pot)
        pot (map_to_list (g_edges gr)).

Definition repair_potential (gr : graph_t) (pot : list Z) (src dst : nat) : option (list Z) :=
  let pot' := Nat.iter (S (g_size gr)) (relax_potential gr) pot in
  if decide (relax_potential gr pot' = pot') then Some pot' else None.

(** Bounds under addition and under multiplication by a constant. *)
Definition bound_add (a b : bound_t) : bound_t :=
  match a, b with
  | Number x, Number y => Number (x + y)
  | MinusInfinity, _ | _, MinusInfinity => MinusInfinity
  | _, _ => PlusInfinity
  end.

Definition bound_scale (c : Z) (b : bound_t) : bound_t :=
  match b with
  | Number x => Number (c * x)
  | MinusInfinity => if decide (0 < c)%Z then MinusInfinity
                     else if decide (c < 0)%Z then PlusInfinity else Number 0
  | PlusInfinity => if decide (0 < c)%Z then PlusInfinity
                    else if decide (c < 0)%Z then MinusInfinity else Number 0
  end.

(** "Evaluate e to an interval" *)
Definition eval_interval (s : SplitDBM.t) (e : linear_expression_t) : interval_t :=
  foldl (λ acc (yn : nat * Z),
           let i := SplitDBM.get_interval s yn.1 in
           let lo := if decide (0 ≤ yn.2)%Z then interval.lb i else interval.ub i in
           let hi := if decide (0 ≤ yn.2)%Z then interval.ub i else interval.lb i in
           Interval (bound_add (interval.lb acc) (bound_scale yn.2 lo))
                    (bound_add (interval.ub acc) (bound_scale yn.2 hi)))
        (Interval (Number (constant e)) (Number (constant e))) (terms e).

(** "potential[vx'] = potential[0] + eval(e)": the expression at the values
    the potential gives the variables. *)
Definition eval_expression (s : SplitDBM.t) (e : linear_expression_t) : Z * bool :=
  foldl (λ (acc : Z * bool) (yn : nat * Z),
           let '(coeff, overflow) := convert_NtoW yn.2 in
           if acc.2 || overflow then (0%Z, true)
           else
             let v := default 0 (SplitDBM.vert_map s !! yn.1) in
             ((acc.1 + (SplitDBM.pot (SplitDBM.potential s) v
                        - SplitDBM.pot (SplitDBM.potential s) 0) * coeff)%Z, false))
        (convert_NtoW (constant e)) (terms e).

(** A disequation may be dropped: "documented precision loss". *)
Definition add_disequation (s : SplitDBM.t) (e : linear_expression_t) : SplitDBM.t := s.

(** A constraint over a constant expression is decided by its constant. *)
Definition holds_at (k : Z) (c : cst_kind) : bool :=
  match c with
  | EQUALITY => bool_decide (k = 0)%Z
  | DISEQUATION => bool_decide (k ≠ 0)%Z
  | INEQUALITY => bool_decide (k ≤ 0)%Z
  | STRICT_INEQUALITY => bool_decide (k < 0)%Z
  end.

Definition is_tautology (c : linear_constraint_t) : bool :=
  match terms (expression c) with
  | [] => holds_at (constant (expression c)) (kind c)
  | _ => false
  end.

Definition is_contradiction (c : linear_constraint_t) : bool :=
  match terms (expression c) with
  | [] => negb (holds_at (constant (expression c)) (kind c))
  | _ => false
  end.

#[global] Instance collaborators : SplitDBM.Collaborators := {|
  SplitDBM.convert_NtoW := convert_NtoW;
  SplitDBM.Wt_wrap := Wt_wrap;
  SplitDBM.GrOps_meet := meet;
  SplitDBM.GrOps_join := join;
  SplitDBM.close_after_meet := close_after_meet;
  SplitDBM.close_after_assign := close_after_assign;
  SplitDBM.close_after_widen := close_after_widen;
  SplitDBM.apply_delta := apply_delta;
  SplitDBM.repair_potential := repair_potential;
  SplitDBM.eval_interval := eval_interval;
  SplitDBM.eval_expression := eval_expression;
  SplitDBM.add_disequation := add_disequation;
  SplitDBM.is_tautology := is_tautology;
  SplitDBM.is_contradiction := is_contradiction
|}.

End spec_model.

(** ** Seed states

    The variables [x], [y] and [z]. *)
Definition var_x : nat := 0.
Definition var_y : nat := 1.
Definition var_z : nat := 2.

(** State A: [x ∈ [0, 10]], [y ∈ [0, 10]]. *)
Definition state_A : SplitDBM.t :=
  let s := SplitDBM.set SplitDBM.top var_x (Interval (Number 0) (Number 10)) in
  SplitDBM.set s var_y (Interval (Number 0) (Number 10)).

(** State B: [x ∈ [20, 30]], [y ∈ [20, 30]], [y − x ≤ 0]. *)
Definition state_B : SplitDBM.t :=
  let s := SplitDBM.set SplitDBM.top var_x (Interval (Number 20) (Number 30)) in
  let s := SplitDBM.set s var_y (Interval (Number 20) (Number 30)) in
  SplitDBM.add_constraint s (LinCst (LinExp [(var_x, (-1)%Z); (var_y, 1%Z)] 0) INEQUALITY true).


Definition pot_r (s : SplitDBM.t) : list Z :=
  0%Z :: ((λ n, SplitDBM.Wt_sub (SplitDBM.pot (SplitDBM.potential s) n)
                                (SplitDBM.pot (SplitDBM.potential s) 0)) <$> [1; 2]).

(** [x ∈ [0, 10]] alone, and [x ∈ [0, 20]] beside a variable [y] that has a
    vertex but no edge. *)
Definition state_x10 : SplitDBM.t :=
  SplitDBM.set SplitDBM.top var_x (Interval (Number 0) (Number 10)).

Definition state_x20_y : SplitDBM.t :=
  (SplitDBM.get_vert
     (SplitDBM.set SplitDBM.top var_x (Interval (Number 0) (Number 20))) var_y).2.

(** The valuations of the variables that a state admits: every edge
    [i → j] of weight [w] bounds [value(j) − value(i)] by [w], where
    [value(0) = 0]. *)
Definition vertex_value (s : SplitDBM.t) (ρ : nat → Z) (v : nat) : Z :=
  match v with
  | 0 => 0%Z
  | _ => match mjoin (SplitDBM.rev_map s !! v) with
         | Some x => ρ x
         | None => 0%Z
         end
  end.

Definition admits (s : SplitDBM.t) (ρ : nat → Z) : Prop :=
  SplitDBM.is_bottom s = false ∧
  ∀ i j w, graph.lookup (SplitDBM.g s) i j = Some w →
    (vertex_value s ρ j - vertex_value s ρ i ≤ w)%Z.


(** ** The forward fixpoint iterator (crab/fwd_analyzer.cpp) *)

(** Modelled from the spec: [wto_t] (crab/wto.hpp) is not among the
    sources. "A hierarchical decomposition of the CFG into a sequence of
    components, each of which is either a vertex (a single label) or a cycle
    (a head label followed by a nested sequence of components)". *)
Inductive wto_component_t : Type :=
| wto_vertex (node : nat)
| wto_cycle (head : nat) (components : list wto_component_t).

Module wto.

(** [member_component_visitor]: is [node] the vertex, the head, or inside
    the nested components? *)
Fixpoint is_member (node : nat) (c : wto_component_t) : bool :=
  match c with
  | wto_vertex n => bool_decide (n = node)
  | wto_cycle h components => bool_decide (h = node) || existsb (is_member node) components
  end.

(** Modelled from the spec: "nesting(label) returns the chain of enclosing
    cycle heads, outermost first". *)
Fixpoint nesting_in (label : nat) (chain : list nat) (c : wto_component_t)
  : option (list nat) :=
  match c with
  | wto_vertex n => if decide (n = label) then Some chain else None
  | wto_cycle h components =>
      if decide (h = label) then Some chain
      else
        (fix first (cs : list wto_component_t) : option (list nat) :=
           match cs with
           | [] => None
           | c' :: cs' =>
               match nesting_in label (chain ++ [h]) c' with
               | Some r => Some r
               | None => first cs'
               end
           end) components
  end.

Definition nesting (w : list wto_component_t) (label : nat) : list nat :=
  default [] (list_find is_Some (nesting_in label [] <$> w) ≫= λ p, p.2).

(** "nesting(a) > nesting(b) iff b's chain is a strict prefix of a's
    chain" *)
Definition nesting_gt (a b : list nat) : bool :=
  bool_decide (b `prefix_of` a ∧ a ≠ b).

End wto.

Module fwd_analyzer.

(** What the iterator takes from [ebpf_domain_t] (crab/ebpf_domain.hpp),
    which is not among the sources: the lattice operations and the
    transformer that a statement applies to a state. *)
Class AbstractDomain (D Instruction : Type) : Type := {
  bottom : D;
  setup_entry : D;
  join : D → D → D;
  meet : D → D → D;
  widen : D → D → D;
  narrow : D → D → D;
  leq : D → D → bool;
  transformer : Instruction → D → D
}.

(** The tables [_pre], [_post] and the flag [_skip] of
    [interleaved_fwd_fixpoint_iterator_t]. *)
Record iterator_t (D : Type) : Type := Iterator {
  _pre : gmap nat D;
  _post : gmap nat D;
  _skip : bool
}.
Arguments Iterator {D} _ _ _.
Arguments _pre {D} _.
Arguments _post {D} _.
Arguments _skip {D} _.

(** "number of iterations until triggering widening" *)
Definition _widening_delay : nat := 1.

Section iterator.
Context {D Instruction : Type} `{AbstractDomain D Instruction}.
Variable _cfg : cfg_t Instruction.
Variable _wto : list wto_component_t.

Definition set_pre (label : nat) (v : D) (st : iterator_t D) : iterator_t D :=
  Iterator (<[label := v]> (_pre st)) (_post st) (_skip st).

(** [_pre.at(node)], [_post.at(node)]: a missing label throws. *)
Definition get_pre (node : nat) (st : iterator_t D) : result D :=
  match _pre st !! node with Some d => Ok d | None => Abort end.

Definition get_post (node : nat) (st : iterator_t D) : result D :=
  match _post st !! node with Some d => Ok d | None => Abort end.

Definition transform_to_post (label : nat) (pre : D) (st : iterator_t D)
  : result (iterator_t D) :=
  b ← get_node _cfg label;
  Ok (Iterator (_pre st)
               (<[label := foldl (λ d statement, transformer statement d) pre (m_ts b)]> (_post st))
               (_skip st)).

Definition extrapolate (node : nat) (iteration : nat) (before after : D) : D :=
  if decide (iteration ≤ _widening_delay) then join before after
  else widen before after.

Definition refine (node : nat) (iteration : nat) (before after : D) : D :=
  if decide (iteration = 1) then meet before after
  else narrow before after.

Definition join_all_prevs (node : nat) (st : iterator_t D) : result D :=
  prevs ← prev_nodes _cfg node;
  foldM (λ res prev, p ← get_post prev st; Ok (join res p)) bottom prevs.

(** The constructor: every label starts at bottom, the entry at
    [setup_entry]. *)
Definition iterator_new : iterator_t D :=
  let tbl : gmap nat D := list_to_map ((λ l, (l, bottom)) <$> labels _cfg) in
  Iterator (<[m_entry _cfg := setup_entry]> tbl) tbl true.

(** [operator()(wto_vertex_t&)] *)
Definition visit_vertex (node : nat) (st : iterator_t D) : result (iterator_t D) :=
  let st := if _skip st && bool_decide (node = m_entry _cfg)
            then Iterator (_pre st) (_post st) false else st in
  if _skip st then Ok st
  else
    pre ← (if decide (node = m_entry _cfg) then get_pre node st else join_all_prevs node st);
    transform_to_post node pre (set_pre node pre st).

(** The value at the head before the first round, when the entry is not
    in the cycle: the join over the predecessors outside the cycle. *)
Definition cycle_initial_pre (head : nat) (st : iterator_t D) : result D :=
  let cycle_nesting := wto.nesting _wto head in
  prevs ← prev_nodes _cfg head;
  foldM (λ pre prev,
           if wto.nesting_gt (wto.nesting _wto prev) cycle_nesting then Ok pre
           else p ← get_post prev st; Ok (join pre p))
        bottom prevs.

(** [operator()(wto_cycle_t&)] and its two loops. The loops have no bound
    in the source; they run on fuel. *)
Fixpoint visit (fuel : nat) (c : wto_component_t) (st : iterator_t D) {struct fuel}
  : result (iterator_t D) :=
  match fuel with
  | 0 => OutOfFuel
  | S fuel' =>
      match c with
      | wto_vertex node => visit_vertex node st
      | wto_cycle head components =>
          let entry_in_this_cycle :=
            if _skip st then wto.is_member (m_entry _cfg) c else false in
          let st := if _skip st then Iterator (_pre st) (_post st) (negb entry_in_this_cycle)
                    else st in
          if _skip st then Ok st
          else
            pre ← (if entry_in_this_cycle then get_pre (m_entry _cfg) st
                   else cycle_initial_pre head st);
            r ← increasing fuel' head components 1 pre st;
            decreasing fuel' head components 1 r.2 r.1
      end
  end
with increasing (fuel : nat) (head : nat) (components : list wto_component_t)
    (iteration : nat) (pre : D) (st : iterator_t D) {struct fuel}
  : result (iterator_t D * D) :=
  match fuel with
  | 0 => OutOfFuel
  | S fuel' =>
      st ← transform_to_post head pre (set_pre head pre st);
      st ← foldM (λ st x, visit fuel' x st) st components;
      new_pre ← join_all_prevs head st;
      if leq new_pre pre then Ok (set_pre head new_pre st, new_pre)
      else increasing fuel' head components (S iteration)
             (extrapolate head iteration pre new_pre) st
  end
with decreasing (fuel : nat) (head : nat) (components : list wto_component_t)
    (iteration : nat) (pre : D) (st : iterator_t D) {struct fuel}
  : result (iterator_t D) :=
  match fuel with
  | 0 => OutOfFuel
  | S fuel' =>
      st ← transform_to_post head pre st;
      st ← foldM (λ st x, visit fuel' x st) st components;
      new_pre ← join_all_prevs head st;
      if leq pre new_pre then Ok st
      else
        let pre := refine head iteration pre new_pre in
        decreasing fuel' head components (S iteration) pre (set_pre head pre st)
  end.

(** [run_forward_analyzer] *)
Definition run_forward_analyzer (fuel : nat) : result (gmap nat D * gmap nat D) :=
  st ← foldM (λ st c, visit fuel c st) iterator_new _wto;
  Ok (_pre st, _post st).

End iterator.
End fwd_analyzer.

(** ** A counter loop

    An instance of the domain interface for the loop of seed scenario 6:
    one counter [i], kept as a range [lo .. hi] with [hi = None] for no
    upper bound. *)
Inductive counter_instr : Type := SetZero | Increment.

Inductive counter_range : Type :=
| RangeBottom
| Range (lo : nat) (hi : option nat).

Module counter.

Definition hi_le (a b : option nat) : bool :=
  match a, b with
  | _, None => true
  | None, Some _ => false
  | Some x, Some y => bool_decide (x ≤ y)
  end.

Definition hi_max (a b : option nat) : option nat :=
  match a, b with
  | Some x, Some y => Some (Nat.max x y)
  | _, _ => None
  end.

Definition hi_min (a b : option nat) : option nat :=
  match a, b with
  | Some x, Some y => Some (Nat.min x y)
  | Some x, None | None, Some x => Some x
  | None, None => None
  end.

Definition leq (a b : counter_range) : bool :=
  match a, b with
  | RangeBottom, _ => true
  | _, RangeBottom => false
  | Range l1 h1, Range l2 h2 => bool_decide (l2 ≤ l1) && hi_le h1 h2
  end.

Definition join (a b : counter_range) : counter_range :=
  match a, b with
  | RangeBottom, r | r, RangeBottom => r
  | Range l1 h1, Range l2 h2 => Range (Nat.min l1 l2) (hi_max h1 h2)
  end.

Definition meet (a b : counter_range) : counter_range :=
  match a, b with
  | RangeBottom, _ | _, RangeBottom => RangeBottom
  | Range l1 h1, Range l2 h2 =>
      let l := Nat.max l1 l2 in
      let h := hi_min h1 h2 in
      if hi_le (Some l) h then Range l h else RangeBottom
  end.

Definition widen (a b : counter_range) : counter_range :=
  match a, b with
  | RangeBottom, r | r, RangeBottom => r
  | Range l1 h1, Range l2 h2 =>
      Range (if decide (l2 < l1) then 0 else l1) (if hi_le h2 h1 then h1 else None)
  end.

Definition narrow (a b : counter_range) : counter_range :=
  match a, b with
  | RangeBottom, _ | _, RangeBottom => RangeBottom
  | Range l1 h1, Range l2 h2 => Range l1 (match h1 with None => h2 | _ => h1 end)
  end.

Definition transformer (i : counter_instr) (d : counter_range) : counter_range :=
  match d with
  | RangeBottom => RangeBottom
  | Range lo hi =>
      match i with
      | SetZero => Range 0 (Some 0)
      | Increment => Range (S lo) (S <$> hi)
      end
  end.

#[global] Instance domain : fwd_analyzer.AbstractDomain counter_range counter_instr := {|
  fwd_analyzer.bottom := RangeBottom;
  fwd_analyzer.setup_entry := Range 0 None;
  fwd_analyzer.join := join;
  fwd_analyzer.meet := meet;
  fwd_analyzer.widen := widen;
  fwd_analyzer.narrow := narrow;
  fwd_analyzer.leq := leq;
  fwd_analyzer.transformer := transformer
|}.

(** Labels [0] (entry, [i := 0]), [1] (the loop head, [i := i + 1]) and
    [2] (exit), with [0 → 1], [1 → 1] and [1 → 2]. *)
Definition loop_cfg : cfg_t counter_instr :=
  let c := insert_block (cfg_new 0 2) 1 in
  let c := update_node c 0 (bb_insert SetZero) in
  let c := update_node c 1 (bb_insert Increment) in
  connect_or_keep (connect_or_keep (connect_or_keep c 0 1) 1 1) 1 2.

Definition loop_wto : list wto_component_t :=
  [wto_vertex 0; wto_cycle 1 []; wto_vertex 2].



End counter.


(** ** The labels of a weak topological order and the keys of the tables *)

(** The labels a component mentions: its vertex, or its head and the
    labels of its nested components. *)
Fixpoint wto_labels (c : wto_component_t) : list nat :=
  match c with
  | wto_vertex node => [node]
  | wto_cycle head components => head :: mjoin (wto_labels <$> components)
  end.

(** Both tables of the iterator have exactly the labels [L] as keys. *)
Definition tables_cover {D : Type} (L : gset nat) (st : fwd_analyzer.iterator_t D) : Prop :=
  dom (fwd_analyzer._pre st) = L ∧ dom (fwd_analyzer._post st) = L.

(* ===================================================================== *)
(** * Statements and proofs *)
(* ===================================================================== *)

Lemma chain3_simplify {Instruction : Type} (s0 s1 s2 : list Instruction) :
  simplify (chain3 s0 s1 s2) = Ok (Cfg 0 0 {[ 0 := BasicBlock 0 ((s0 ++ s1) ++ s2) ∅ ∅ ]}).
Proof. vm_compute. reflexivity. Qed.

Lemma two_cycle_simplify {Instruction : Type} (s0 s1 : list Instruction) :
  simplify (two_cycle s0 s1) = Ok (two_cycle s0 s1).
Proof. vm_compute. reflexivity. Qed.

Lemma with_isolated_simplify {Instruction : Type} :
  simplify (with_isolated (Instruction := Instruction))
  = Ok (Cfg 0 0 {[ 0 := BasicBlock 0 [] ∅ ∅; 2 := BasicBlock 2 [] ∅ ∅ ]}).
Proof. vm_compute. reflexivity. Qed.

(** ** Generic facts about fallible calls *)

Lemma bind_Ok {A B : Type} (f : A → result B) (r : result A) (b : B) :
  r ≫= f = Ok b ↔ ∃ a, r = Ok a ∧ f a = Ok b.
Proof.
  destruct r as [a| |]; simpl; split.
  - intros H. exists a. split; [reflexivity | exact H].
  - intros (a' & Ha & Hf). injection Ha as ->. exact Hf.
  - discriminate.
  - intros (a' & Ha & _). discriminate.
  - discriminate.
  - intros (a' & Ha & _). discriminate.
Qed.

Lemma bind_fuel {A B : Type} (f : A → result B) (r : result A) :
  r ≠ OutOfFuel → (∀ a, r = Ok a → f a ≠ OutOfFuel) → r ≫= f ≠ OutOfFuel.
Proof.
  destruct r as [a| |]; simpl; intros Hr Hf.
  - apply Hf. reflexivity.
  - discriminate.
  - contradiction.
Qed.

(** Splits a hypothesis [x ← r; k = Ok b] into its two halves. *)
Tactic Notation "bind_inv" hyp(H) "as" ident(a) ident(Ha) :=
  apply bind_Ok in H; destruct H as (a & Ha & H).

Lemma foldM_invariant {A B : Type} (P : B → Prop) (f : B → A → result B) (l : list A)
    (b b' : B) :
  foldM f b l = Ok b' → P b →
  (∀ b0 x b1, x ∈ l → P b0 → f b0 x = Ok b1 → P b1) → P b'.
Proof.
  revert b. induction l as [|x l IH]; simpl; intros b Hfold Hb Hstep.
  - injection Hfold as <-. exact Hb.
  - destruct (f b x) as [b1| |] eqn:E; try discriminate.
    apply (IH b1 Hfold).
    + apply (Hstep b x b1); [left | exact Hb | exact E].
    + intros b0 y b0' Hy. apply Hstep. right. exact Hy.
Qed.

Lemma foldM_fuel {A B : Type} (P : B → Prop) (f : B → A → result B) (l : list A) :
  (∀ b x, x ∈ l → P b → f b x ≠ OutOfFuel) →
  (∀ b x b', x ∈ l → P b → f b x = Ok b' → P b') →
  ∀ b, P b → foldM f b l ≠ OutOfFuel.
Proof.
  induction l as [|x l IH]; simpl; intros Hne Hstep b Hb.
  - discriminate.
  - destruct (f b x) as [b1| |] eqn:E.
    + apply IH.
      * intros b0 y Hy. apply Hne. right. exact Hy.
      * intros b0 y b0' Hy. apply Hstep. right. exact Hy.
      * apply (Hstep b x b1); [left | exact Hb | exact E].
    + discriminate.
    + exfalso. apply (Hne b x); [left | exact Hb | exact E].
Qed.

Lemma foldM_app {A B : Type} (f : B → A → result B) (l1 l2 : list A) (b : B) :
  foldM f b (l1 ++ l2) = foldM f b l1 ≫= λ b1, foldM f b1 l2.
Proof.
  revert b. induction l1 as [|x l1 IH]; simpl; intros b; [reflexivity|].
  destruct (f b x); simpl; [apply IH | reflexivity | reflexivity].
Qed.

(** ** Sorted label ranges *)

Lemma elem_of_sorted_labels (s : gset nat) (x : nat) :
  x ∈ sorted_labels_of s ↔ x ∈ s.
Proof.
  unfold sorted_labels_of. rewrite merge_sort_Permutation. apply elem_of_elements.
Qed.

Lemma NoDup_sorted_labels (s : gset nat) : NoDup (sorted_labels_of s).
Proof.
  unfold sorted_labels_of. rewrite merge_sort_Permutation. apply NoDup_elements.
Qed.

Lemma length_sorted_labels (s : gset nat) : length (sorted_labels_of s) = size s.
Proof.
  unfold sorted_labels_of. rewrite merge_sort_Permutation. reflexivity.
Qed.

Lemma first_label_elem (s : gset nat) (l : nat) : first_label s = Some l → l ∈ s.
Proof.
  unfold first_label. intros H. apply elem_of_sorted_labels.
  destruct (sorted_labels_of s) as [|y ys]; simpl in H; [discriminate|].
  injection H as ->. left.
Qed.

Lemma first_label_singleton (s : gset nat) (l : nat) :
  size s = 1 → first_label s = Some l → s = {[ l ]}.
Proof.
  intros Hsz Hl. apply first_label_elem in Hl.
  apply size_1_elem_of in Hsz as [y Hy]. apply leibniz_equiv in Hy.
  subst s. apply elem_of_singleton in Hl. subst. reflexivity.
Qed.

Lemma first_label_None (s : gset nat) : first_label s = None → s = ∅.
Proof.
  unfold first_label. intros H. apply leibniz_equiv, size_empty_inv.
  rewrite <- length_sorted_labels.
  destruct (sorted_labels_of s); [reflexivity | discriminate].
Qed.

(** ** The CFG: primitives *)

Section cfg_facts.
Context {Instruction : Type}.
Implicit Types (c : cfg_t Instruction) (blk : basic_block_t Instruction).

Lemma get_node_Ok c l blk : get_node c l = Ok blk ↔ m_blocks c !! l = Some blk.
Proof.
  unfold get_node. destruct (m_blocks c !! l); split; intros H; congruence.
Qed.

Lemma get_node_fuel c l : get_node c l ≠ OutOfFuel.
Proof. unfold get_node. destruct (m_blocks c !! l); discriminate. Qed.

Lemma block_eq blk1 blk2 :
  m_label blk1 = m_label blk2 → m_ts blk1 = m_ts blk2 →
  m_prev blk1 = m_prev blk2 → m_next blk1 = m_next blk2 → blk1 = blk2.
Proof. destruct blk1, blk2; simpl; intros; subst; reflexivity. Qed.

(** Effect of an edge insertion on every block of the map. *)
Lemma connect_lookup c a b c' :
  connect c a b = Ok c' →
  ∃ ba bb, m_blocks c !! a = Some ba ∧ m_blocks c !! b = Some bb ∧
    m_entry c' = m_entry c ∧ m_exit c' = m_exit c ∧
    ∀ k, m_blocks c' !! k =
      (λ blk, BasicBlock (m_label blk) (m_ts blk)
                (if decide (b = k) then m_prev blk ∪ {[m_label ba]} else m_prev blk)
                (if decide (a = k) then m_next blk ∪ {[m_label bb]} else m_next blk))
      <$> m_blocks c !! k.
Proof.
  unfold connect. intros H. bind_inv H as ba Ha. bind_inv H as bb Hb.
  apply get_node_Ok in Ha, Hb. injection H as <-.
  exists ba, bb. repeat split; try assumption.
  intros k. simpl. rewrite !lookup_alter.
  destruct (m_blocks c !! k) as [blk|] eqn:E.
  - repeat case_decide; subst; rewrite ?E; simpl; rewrite ?E; simpl;
      try congruence; f_equal; destruct blk; reflexivity.
  - repeat case_decide; subst; rewrite ?E; simpl; rewrite ?E; simpl; congruence.
Qed.

(** Effect of an edge removal on every block of the map. *)
Lemma disconnect_lookup c a b c' :
  disconnect c a b = Ok c' →
  ∃ ba bb, m_blocks c !! a = Some ba ∧ m_blocks c !! b = Some bb ∧
    m_entry c' = m_entry c ∧ m_exit c' = m_exit c ∧
    ∀ k, m_blocks c' !! k =
      (λ blk, BasicBlock (m_label blk) (m_ts blk)
                (if decide (b = k) then m_prev blk ∖ {[m_label ba]} else m_prev blk)
                (if decide (a = k) then m_next blk ∖ {[m_label bb]} else m_next blk))
      <$> m_blocks c !! k.
Proof.
  unfold disconnect. intros H. bind_inv H as ba Ha. bind_inv H as bb Hb.
  apply get_node_Ok in Ha, Hb. injection H as <-.
  exists ba, bb. repeat split; try assumption.
  intros k. simpl. rewrite !lookup_alter.
  destruct (m_blocks c !! k) as [blk|] eqn:E.
  - repeat case_decide; subst; rewrite ?E; simpl; rewrite ?E; simpl;
      try congruence; f_equal; destruct blk; reflexivity.
  - repeat case_decide; subst; rewrite ?E; simpl; rewrite ?E; simpl; congruence.
Qed.

Lemma fmap_lookup_Some (f : nat → basic_block_t Instruction → basic_block_t Instruction)
    (m m' : gmap nat (basic_block_t Instruction)) :
  (∀ k, m' !! k = f k <$> m !! k) →
  ∀ k blk', m' !! k = Some blk' → ∃ blk, m !! k = Some blk ∧ blk' = f k blk.
Proof.
  intros Hl k blk' H. rewrite Hl in H.
  destruct (m !! k) as [blk|]; simpl in H; [|discriminate].
  injection H as <-. exists blk. split; reflexivity.
Qed.

Lemma connect_wf c a b c' : cfg_wf c → connect c a b = Ok c' → cfg_wf c'.
Proof.
  intros (Hkeys & Hsym & Hclosed) H.
  apply connect_lookup in H as (ba & bb & Ea & Eb & _ & _ & Hl).
  pose proof (Hkeys _ _ Ea) as La. pose proof (Hkeys _ _ Eb) as Lb.
  rewrite La, Lb in Hl. clear La Lb.
  split; [|split].
  - intros l blk' E. apply (fmap_lookup_Some _ _ _ Hl) in E as (blk & E & ->).
    simpl. apply (Hkeys _ _ E).
  - intros x y bx' by' Ex Ey.
    apply (fmap_lookup_Some _ _ _ Hl) in Ex as (bx & Ex & ->).
    apply (fmap_lookup_Some _ _ _ Hl) in Ey as (by0 & Ey & ->).
    simpl. pose proof (Hsym x y bx by0 Ex Ey).
    repeat case_decide; set_solver.
  - intros l blk' x E Hx.
    apply (fmap_lookup_Some _ _ _ Hl) in E as (blk & E & ->).
    rewrite Hl. apply fmap_is_Some. simpl in Hx.
    pose proof (Hclosed l blk x E).
    repeat case_decide; subst;
      (apply elem_of_union in Hx as [Hx|Hx];
       [try apply elem_of_union in Hx as [Hx|Hx] | try apply elem_of_union in Hx as [Hx|Hx]];
       try apply elem_of_singleton in Hx; subst; eauto; set_solver).
Qed.

Lemma disconnect_wf c a b c' : cfg_wf c → disconnect c a b = Ok c' → cfg_wf c'.
Proof.
  intros (Hkeys & Hsym & Hclosed) H.
  apply disconnect_lookup in H as (ba & bb & Ea & Eb & _ & _ & Hl).
  pose proof (Hkeys _ _ Ea) as La. pose proof (Hkeys _ _ Eb) as Lb.
  rewrite La, Lb in Hl. clear La Lb.
  split; [|split].
  - intros l blk' E. apply (fmap_lookup_Some _ _ _ Hl) in E as (blk & E & ->).
    simpl. apply (Hkeys _ _ E).
  - intros x y bx' by' Ex Ey.
    apply (fmap_lookup_Some _ _ _ Hl) in Ex as (bx & Ex & ->).
    apply (fmap_lookup_Some _ _ _ Hl) in Ey as (by0 & Ey & ->).
    simpl. pose proof (Hsym x y bx by0 Ex Ey).
    repeat case_decide; set_solver.
  - intros l blk' x E Hx.
    apply (fmap_lookup_Some _ _ _ Hl) in E as (blk & E & ->).
    rewrite Hl. apply fmap_is_Some. simpl in Hx.
    apply (Hclosed l blk x E).
    repeat case_decide; set_solver.
Qed.

Lemma update_node_wf c l (f : basic_block_t Instruction → basic_block_t Instruction) :
  (∀ blk, m_label (f blk) = m_label blk ∧ m_prev (f blk) = m_prev blk ∧
          m_next (f blk) = m_next blk) →
  cfg_wf c → cfg_wf (update_node c l f).
Proof.
  intros Hf (Hkeys & Hsym & Hclosed).
  assert (Hl : ∀ k blk', m_blocks (update_node c l f) !! k = Some blk' →
            ∃ blk, m_blocks c !! k = Some blk ∧ m_label blk' = m_label blk ∧
                   m_prev blk' = m_prev blk ∧ m_next blk' = m_next blk).
  { intros k blk'. simpl. rewrite lookup_alter. case_decide.
    - subst k. destruct (m_blocks c !! l) as [blk|]; simpl; [|discriminate].
      intros [= <-]. exists blk. split; [reflexivity | apply Hf].
    - intros E. exists blk'. auto. }
  assert (Hs : ∀ k, is_Some (m_blocks c !! k) → is_Some (m_blocks (update_node c l f) !! k)).
  { intros k. simpl. rewrite lookup_alter. case_decide; [subst; apply fmap_is_Some | auto]. }
  split; [|split].
  - intros k blk' E. apply Hl in E as (blk & E & -> & _). apply (Hkeys _ _ E).
  - intros x y bx' by' Ex Ey.
    apply Hl in Ex as (bx & Ex & _ & _ & ->). apply Hl in Ey as (by0 & Ey & _ & -> & _).
    apply (Hsym _ _ _ _ Ex Ey).
  - intros k blk' x E Hx. apply Hl in E as (blk & E & _ & Hp & Hn).
    rewrite Hp, Hn in Hx. apply Hs. apply (Hclosed _ _ _ E Hx).
Qed.

Lemma set_exit_wf c l : cfg_wf c → cfg_wf (set_exit c l).
Proof. intros H. exact H. Qed.

Lemma insert_block_wf c l : cfg_wf c → cfg_wf (insert_block c l).
Proof.
  intros (Hkeys & Hsym & Hclosed). unfold insert_block, emplace_block.
  destruct (m_blocks c !! l) as [blk|] eqn:E.
  { exact (conj Hkeys (conj Hsym Hclosed)). }
  split; [|split].
  - intros k blk' Ek. simpl in Ek. rewrite lookup_insert in Ek. case_decide.
    + injection Ek as <-. subst k. reflexivity.
    + apply (Hkeys _ _ Ek).
  - intros x y bx by0 Ex Ey. simpl in Ex, Ey. rewrite lookup_insert in Ex, Ey.
    repeat case_decide; simplify_eq; simpl.
    + reflexivity.
    + split; [|set_solver]. intros Hy.
      destruct (Hclosed x bx y Ex) as [? ?]; [set_solver | congruence].
    + split; [set_solver|]. intros Hx.
      destruct (Hclosed y by0 x Ey) as [? ?]; [set_solver | congruence].
    + apply (Hsym _ _ _ _ Ex Ey).
  - intros k blk' x Ek Hx. simpl in Ek |- *. rewrite lookup_insert in Ek.
    rewrite lookup_insert. case_decide.
    + injection Ek as <-. set_solver.
    + case_decide; [eauto | apply (Hclosed _ _ _ Ek Hx)].
Qed.

Lemma cfg_new_wf (entry exit : nat) : cfg_wf (cfg_new (Instruction := Instruction) entry exit).
Proof.
  apply (insert_block_wf (insert_block (Cfg entry exit ∅) entry) exit).
  apply insert_block_wf. repeat split.
  - intros l blk E. simpl in E. rewrite lookup_empty in E. discriminate.
  - intros Hy. simpl in *. rewrite lookup_empty in *. discriminate.
  - intros Hx. simpl in *. rewrite lookup_empty in *. discriminate.
  - intros l blk x E. simpl in E. rewrite lookup_empty in E. discriminate.
Qed.

(** *** Removal of a block *)

Lemma elem_of_erased_prev k (es : list (nat * nat)) x :
  x ∈ erased_prev k es ↔ (x, k) ∈ es.
Proof.
  induction es as [|[a b] es IH]; simpl.
  - rewrite elem_of_nil. set_solver.
  - rewrite elem_of_union, IH, elem_of_cons. simpl. destruct (decide (b = k)) as [->|Hne].
    + rewrite elem_of_singleton. split; intros [Hc|Hc]; auto; left; congruence.
    + split; intros [Hc|Hc]; auto; [set_solver | congruence].
Qed.

Lemma elem_of_erased_next k (es : list (nat * nat)) x :
  x ∈ erased_next k es ↔ (k, x) ∈ es.
Proof.
  induction es as [|[a b] es IH]; simpl.
  - rewrite elem_of_nil. set_solver.
  - rewrite elem_of_union, IH, elem_of_cons. simpl. destruct (decide (a = k)) as [->|Hne].
    + rewrite elem_of_singleton. split; intros [Hc|Hc]; auto; left; congruence.
    + split; intros [Hc|Hc]; auto; [set_solver | congruence].
Qed.

Lemma foldM_disconnect_lookup (es : list (nat * nat)) c c' :
  cfg_wf c → foldM (λ c0 e, disconnect c0 e.1 e.2) c es = Ok c' →
  m_entry c' = m_entry c ∧ m_exit c' = m_exit c ∧
  ∀ k, m_blocks c' !! k =
    (λ blk, BasicBlock (m_label blk) (m_ts blk)
              (m_prev blk ∖ erased_prev k es) (m_next blk ∖ erased_next k es))
    <$> m_blocks c !! k.
Proof.
  revert c. induction es as [|[a b] es IH]; simpl; intros c Hwf H.
  - injection H as <-. repeat split. intros k.
    destruct (m_blocks c !! k) as [blk|]; simpl; [|reflexivity].
    f_equal. apply block_eq; simpl; try reflexivity; set_solver.
  - destruct (disconnect c a b) as [c1| |] eqn:E; try discriminate.
    pose proof (disconnect_wf _ _ _ _ Hwf E) as Hwf1.
    destruct (IH _ Hwf1 H) as (He & Hx & Hl).
    apply disconnect_lookup in E as (ba & bb & Ea & Eb & He1 & Hx1 & Hl1).
    destruct Hwf as (Hkeys & _ & _).
    rewrite (Hkeys _ _ Ea), (Hkeys _ _ Eb) in Hl1.
    split; [congruence|]. split; [congruence|].
    intros k. rewrite Hl, Hl1.
    destruct (m_blocks c !! k) as [blk|]; simpl; [|reflexivity].
    f_equal. apply block_eq; simpl; try reflexivity;
      repeat case_decide; set_solver.
Qed.

Lemma checked_edges_Ok c (mk : nat → nat * nat) ids es :
  checked_edges c mk ids = Ok es → es = map mk ids.
Proof.
  unfold checked_edges.
  enough (G : ∀ acc, foldM (λ acc0 id, _ ← get_node c id; Ok (acc0 ++ [mk id])) acc ids = Ok es →
              es = acc ++ map mk ids) by apply G.
  induction ids as [|id ids IH]; simpl; intros acc H.
  - injection H as <-. symmetry. apply app_nil_r.
  - destruct (get_node c id); simpl in H; try discriminate.
    apply IH in H. rewrite H, <- app_assoc. reflexivity.
Qed.

Lemma lookup_cfg_without gone c k :
  m_blocks (cfg_without gone c) !! k =
  if decide (k ∈ gone) then None else restrict_block gone <$> m_blocks c !! k.
Proof.
  simpl. rewrite lookup_fmap, map_lookup_filter.
  destruct (m_blocks c !! k) as [blk|]; simpl; case_decide; try reflexivity.
  - rewrite option_guard_False; [reflexivity | simpl; tauto].
  - rewrite option_guard_True; [reflexivity | assumption].
Qed.

Lemma cfg_without_wf gone c : cfg_wf c → cfg_wf (cfg_without gone c).
Proof.
  intros (Hkeys & Hsym & Hclosed).
  assert (Hl : ∀ k blk', m_blocks (cfg_without gone c) !! k = Some blk' →
            k ∉ gone ∧ ∃ blk, m_blocks c !! k = Some blk ∧ blk' = restrict_block gone blk).
  { intros k blk'. rewrite lookup_cfg_without. case_decide; [discriminate|].
    destruct (m_blocks c !! k) as [blk|]; simpl; [|discriminate].
    intros [= <-]. eauto. }
  split; [|split].
  - intros k blk' E. apply Hl in E as (_ & blk & E & ->). apply (Hkeys _ _ E).
  - intros x y bx' by' Ex Ey.
    apply Hl in Ex as (Hx & bx & Ex & ->). apply Hl in Ey as (Hy & by0 & Ey & ->).
    simpl. pose proof (Hsym _ _ _ _ Ex Ey). set_solver.
  - intros k blk' x E Hx. apply Hl in E as (Hk & blk & E & ->). simpl in Hx.
    rewrite lookup_cfg_without.
    assert (x ∉ gone) by set_solver. rewrite decide_False by assumption.
    apply fmap_is_Some. apply (Hclosed _ _ _ E). set_solver.
Qed.

Lemma cfg_without_union g1 g2 c :
  cfg_without g2 (cfg_without g1 c) = cfg_without (g1 ∪ g2) c.
Proof.
  unfold cfg_without at 1. simpl m_entry. simpl m_exit.
  change (restrict_block g2 <$> filter (λ kv, kv.1 ∉ g2) (m_blocks (cfg_without g1 c)))
    with (m_blocks (cfg_without g2 (cfg_without g1 c))).
  unfold cfg_without at 3. f_equal.
  change (restrict_block (g1 ∪ g2) <$> filter (λ kv, kv.1 ∉ g1 ∪ g2) (m_blocks c))
    with (m_blocks (cfg_without (g1 ∪ g2) c)).
  apply map_eq. intros k. rewrite !lookup_cfg_without.
  repeat case_decide; try reflexivity; try set_solver.
  destruct (m_blocks c !! k) as [blk|]; simpl; [|reflexivity].
  f_equal. apply block_eq; simpl; try reflexivity; set_solver.
Qed.

(** On a well-formed CFG, [remove] leaves exactly the CFG induced on the
    other labels. *)
Lemma remove_wf_eq c l c' : cfg_wf c → remove c l = Ok c' → c' = cfg_without {[ l ]} c.
Proof.
  intros Hwf H. unfold remove in H.
  repeat case_decide; try discriminate.
  bind_inv H as bl Ha. bind_inv H as es Hes. bind_inv H as c1 Hc1. injection H as <-.
  apply get_node_Ok in Ha.
  unfold dead_edges in Hes. bind_inv Hes as ps Hps. bind_inv Hes as ns Hns.
  injection Hes as <-.
  apply checked_edges_Ok in Hps, Hns. subst ps ns.
  apply foldM_disconnect_lookup in Hc1 as (He & Hx & Hl); [|exact Hwf].
  unfold cfg_without. rewrite He, Hx. f_equal.
  change (restrict_block {[l]} <$> filter (λ kv, kv.1 ∉ ({[l]} : gset nat)) (m_blocks c))
    with (m_blocks (cfg_without {[l]} c)).
  apply map_eq. intros k. rewrite lookup_cfg_without, lookup_delete.
  destruct (decide (l = k)) as [->|Hne].
  { rewrite decide_True by set_solver. reflexivity. }
  rewrite decide_False by set_solver. rewrite Hl.
  destruct (m_blocks c !! k) as [blk|] eqn:Ek; simpl; [|reflexivity].
  f_equal. destruct Hwf as (Hkeys & Hsym & Hclosed).
  pose proof (Hsym _ _ _ _ Ek Ha) as S1. pose proof (Hsym _ _ _ _ Ha Ek) as S2.
  apply block_eq; simpl; try reflexivity.
  - apply set_eq. intros x. rewrite !elem_of_difference, elem_of_erased_prev.
    rewrite elem_of_app, !list_elem_of_fmap, elem_of_singleton.
    split.
    + intros [Hin Hno]. split; [exact Hin|]. intros ->. apply Hno. right.
      exists k. split; [reflexivity|]. apply list_elem_of_filter. split; [exact Hne|].
      apply elem_of_sorted_labels. apply S2. exact Hin.
    + intros [Hin Hno]. split; [exact Hin|]. intros [(y & [= -> ->] & _)|(y & [= -> ->] & _)]; congruence.
  - apply set_eq. intros x. rewrite !elem_of_difference, elem_of_erased_next.
    rewrite elem_of_app, !list_elem_of_fmap, elem_of_singleton.
    split.
    + intros [Hin Hno]. split; [exact Hin|]. intros ->. apply Hno. left.
      exists k. split; [reflexivity|]. apply list_elem_of_filter. split; [exact Hne|].
      apply elem_of_sorted_labels. apply S1. exact Hin.
    + intros [Hin Hno]. split; [exact Hin|]. intros [(y & [= -> ->] & _)|(y & [= -> ->] & _)]; congruence.
Qed.

Lemma remove_wf c l c' : cfg_wf c → remove c l = Ok c' → cfg_wf c'.
Proof.
  intros Hwf H. rewrite (remove_wf_eq _ _ _ Hwf H). apply cfg_without_wf, Hwf.
Qed.

Lemma foldM_remove_eq (ls : list nat) c c' :
  cfg_wf c → foldM remove c ls = Ok c' → c' = cfg_without (list_to_set ls) c.
Proof.
  revert c. induction ls as [|l ls IH]; simpl; intros c Hwf H.
  - injection H as <-. destruct c as [e x m]. unfold cfg_without. simpl. f_equal.
    apply map_eq. intros k.
    change (restrict_block ∅ <$> filter (λ kv, kv.1 ∉ (∅ : gset nat)) m)
      with (m_blocks (cfg_without ∅ (Cfg e x m))).
    rewrite lookup_cfg_without. rewrite decide_False by set_solver. simpl.
    destruct (m !! k) as [blk|]; simpl; [|reflexivity].
    f_equal. apply block_eq; simpl; try reflexivity; set_solver.
  - destruct (remove c l) as [c1| |] eqn:E; try discriminate.
    pose proof (remove_wf_eq _ _ _ Hwf E) as ->.
    rewrite (IH _ (cfg_without_wf _ _ Hwf) H). apply cfg_without_union.
Qed.

(** *** [simplify] keeps the CFG well formed *)

Lemma foldM_connect_wf (ls : list nat) c c' a :
  cfg_wf c → foldM (λ c0 n, connect c0 a n) c ls = Ok c' → cfg_wf c'.
Proof.
  intros Hwf H.
  apply (foldM_invariant cfg_wf _ _ _ _ H); [exact Hwf|].
  intros c0 n c1 _ Hwf0 H0. exact (connect_wf _ _ _ _ Hwf0 H0).
Qed.

Lemma move_back_wf c l other : cfg_wf c → cfg_wf (update_node c l (move_back other)).
Proof. apply update_node_wf. intros blk. repeat split. Qed.

Lemma merge_next_wf c wl label c' wl' :
  cfg_wf c → merge_next c wl label = Ok (Some (c', wl')) → cfg_wf c'.
Proof.
  intros Hwf H. unfold merge_next in H.
  bind_inv H as bb Hbb. case_decide; [|discriminate].
  bind_inv H as n Hn. bind_inv H as next_bb Hnb. case_decide; [discriminate|].
  bind_inv H as c3 Hc3. bind_inv H as next_bb' Hnb'. bind_inv H as c4 Hc4.
  bind_inv H as c5 Hc5. injection H as <- _.
  eapply remove_wf; [|exact Hc5].
  eapply foldM_connect_wf; [|exact Hc4].
  eapply disconnect_wf; [|exact Hc3].
  apply move_back_wf. case_decide; [apply set_exit_wf|]; exact Hwf.
Qed.

Lemma merge_chain_wf fuel c wl label c' wl' :
  cfg_wf c → merge_chain fuel c wl label = Ok (c', wl') → cfg_wf c'.
Proof.
  revert c wl. induction fuel as [|fuel IH]; simpl; intros c wl Hwf H; [discriminate|].
  bind_inv H as r Hr. destruct r as [[c1 wl1]|].
  - apply (IH c1 wl1); [|exact H]. exact (merge_next_wf _ _ _ _ _ Hwf Hr).
  - injection H as <- _. exact Hwf.
Qed.

Lemma simplify_loop_wf fuel c wl c' :
  cfg_wf c → simplify_loop fuel c wl = Ok c' → cfg_wf c'.
Proof.
  revert c wl. induction fuel as [|fuel IH]; cbn [simplify_loop]; intros c wl Hwf H.
  - destruct (first_label wl); [discriminate|]. injection H as <-. exact Hwf.
  - destruct (first_label wl) as [label|]; [|injection H as <-; exact Hwf].
    bind_inv H as skip Hskip. destruct skip.
    + exact (IH _ _ Hwf H).
    + bind_inv H as r Hr. destruct r as [c1 wl1].
      apply (IH c1 wl1); [|exact H]. exact (merge_chain_wf _ _ _ _ _ _ Hwf Hr).
Qed.

Lemma simplify_wf c c' : cfg_wf c → simplify c = Ok c' → cfg_wf c'.
Proof. apply simplify_loop_wf. Qed.

Lemma cfg_produced_wf c : cfg_produced c → cfg_wf c.
Proof.
  induction 1 as [entry exit|c l _ IH|c l i _ IH|c l ts _ IH|c a b c' _ IH H|c a b c' _ IH H
                  |c l c' _ IH H|c c' _ IH H].
  - apply cfg_new_wf.
  - apply insert_block_wf, IH.
  - apply update_node_wf; [|exact IH]. intros blk. repeat split.
  - apply update_node_wf; [|exact IH]. intros blk. repeat split.
  - exact (connect_wf _ _ _ _ IH H).
  - exact (disconnect_wf _ _ _ _ IH H).
  - exact (remove_wf _ _ _ IH H).
  - exact (simplify_wf _ _ IH H).
Qed.

(** *** [simplify] always comes back: its loops never run out of fuel *)

Lemma foldM_connect_size (ls : list nat) c c' a :
  foldM (λ c0 n, connect c0 a n) c ls = Ok c' → dom (m_blocks c') = dom (m_blocks c).
Proof.
  intros H0.
  apply (foldM_invariant (λ c0, dom (m_blocks c0) = dom (m_blocks c)) _ _ _ _ H0); [reflexivity|].
  intros c0 n c1 _ Hd H. rewrite <- Hd.
  unfold connect in H. bind_inv H as ba Ha. bind_inv H as bb Hb. injection H as <-.
  simpl. rewrite !dom_alter_L. reflexivity.
Qed.

Lemma disconnect_dom c a b c' :
  disconnect c a b = Ok c' → dom (m_blocks c') = dom (m_blocks c).
Proof.
  intros H. unfold disconnect in H. bind_inv H as ba Ha. bind_inv H as bb Hb.
  injection H as <-. simpl. rewrite !dom_alter_L. reflexivity.
Qed.

Lemma remove_dom c l c' :
  remove c l = Ok c' → l ∈ dom (m_blocks c) ∧ dom (m_blocks c') = dom (m_blocks c) ∖ {[ l ]}.
Proof.
  intros H. unfold remove in H. repeat case_decide; try discriminate.
  bind_inv H as bl Ha. bind_inv H as es Hes. bind_inv H as c1 Hc1. injection H as <-.
  apply get_node_Ok in Ha. split; [apply elem_of_dom; eauto|].
  simpl. rewrite dom_delete_L. f_equal.
  apply (foldM_invariant (λ c0, dom (m_blocks c0) = dom (m_blocks c)) _ _ _ _ Hc1); [reflexivity|].
  intros c0 e c2 _ Hd H. rewrite <- Hd. exact (disconnect_dom _ _ _ _ H).
Qed.

Lemma remove_fuel c l : remove c l ≠ OutOfFuel.
Proof.
  unfold remove. repeat case_decide; try discriminate.
  apply bind_fuel; [apply get_node_fuel|]. intros bl _.
  apply bind_fuel.
  { unfold dead_edges. apply bind_fuel.
    - unfold checked_edges. apply (foldM_fuel (λ _, True)); auto.
      intros acc x _ _. apply bind_fuel; [apply get_node_fuel | discriminate].
    - intros ps _. apply bind_fuel; [|discriminate].
      unfold checked_edges. apply (foldM_fuel (λ _, True)); auto.
      intros acc x _ _. apply bind_fuel; [apply get_node_fuel | discriminate]. }
  intros es _. apply bind_fuel; [|discriminate].
  apply (foldM_fuel (λ _, True)); auto.
  intros c0 e _ _. unfold disconnect.
  apply bind_fuel; [apply get_node_fuel|]. intros ba _.
  apply bind_fuel; [apply get_node_fuel | discriminate].
Qed.

Lemma merge_next_fuel c wl label : merge_next c wl label ≠ OutOfFuel.
Proof.
  unfold merge_next. apply bind_fuel; [apply get_node_fuel|]. intros bb _.
  case_decide; [|discriminate].
  apply bind_fuel.
  { unfold get_child_label. apply bind_fuel; [apply get_node_fuel|].
    intros b0 _. destruct (first_label (m_next b0)); discriminate. }
  intros n _. apply bind_fuel; [apply get_node_fuel|]. intros next_bb _.
  case_decide; [discriminate|].
  apply bind_fuel.
  { unfold disconnect. apply bind_fuel; [apply get_node_fuel|]. intros ba _.
    apply bind_fuel; [apply get_node_fuel | discriminate]. }
  intros c3 _. apply bind_fuel; [apply get_node_fuel|]. intros next_bb' _.
  apply bind_fuel.
  { apply (foldM_fuel (λ _, True)); auto. intros c0 x _ _. unfold connect.
    apply bind_fuel; [apply get_node_fuel|]. intros ba _.
    apply bind_fuel; [apply get_node_fuel | discriminate]. }
  intros c4 _. apply bind_fuel; [apply remove_fuel | discriminate].
Qed.

(** A merge deletes one block and only shrinks the worklist. *)
Lemma merge_next_shrinks c wl label c' wl' :
  merge_next c wl label = Ok (Some (c', wl')) →
  size (m_blocks c') < size (m_blocks c) ∧ wl' ⊆ wl.
Proof.
  intros H. unfold merge_next in H.
  bind_inv H as bb Hbb. case_decide; [|discriminate].
  bind_inv H as n Hn. bind_inv H as next_bb Hnb. case_decide; [discriminate|].
  bind_inv H as c3 Hc3. bind_inv H as next_bb' Hnb'. bind_inv H as c4 Hc4.
  bind_inv H as c5 Hc5. injection H as <- <-.
  split; [|set_solver].
  apply remove_dom in Hc5 as [Hin Hd]. apply foldM_connect_size in Hc4.
  apply disconnect_dom in Hc3.
  rewrite <- !(size_dom (D := gset nat)), Hd.
  assert (Hdc : dom (m_blocks c) = dom (m_blocks c4)).
  { rewrite Hc4, Hc3. simpl. rewrite dom_alter_L. case_decide; reflexivity. }
  rewrite Hdc. apply subset_size. set_solver.
Qed.

Lemma merge_chain_fuel fuel c wl label :
  size (m_blocks c) < fuel → merge_chain fuel c wl label ≠ OutOfFuel.
Proof.
  revert c wl. induction fuel as [|fuel IH]; simpl; intros c wl Hsz; [lia|].
  apply bind_fuel; [apply merge_next_fuel|].
  intros [[c1 wl1]|] Hr; [|discriminate].
  apply IH. apply merge_next_shrinks in Hr as [Hlt _]. lia.
Qed.

Lemma merge_chain_worklist fuel c wl label c' wl' :
  merge_chain fuel c wl label = Ok (c', wl') → wl' ⊆ wl.
Proof.
  revert c wl. induction fuel as [|fuel IH]; simpl; intros c wl H; [discriminate|].
  bind_inv H as r Hr. destruct r as [[c1 wl1]|].
  - apply merge_next_shrinks in Hr as [_ Hsub]. apply IH in H. set_solver.
  - injection H as _ <-. reflexivity.
Qed.

Lemma is_chain_interior_fuel c label : is_chain_interior c label ≠ OutOfFuel.
Proof.
  unfold is_chain_interior. apply bind_fuel; [apply get_node_fuel|]. intros bb _.
  case_decide; [|discriminate].
  apply bind_fuel.
  { unfold get_parent_label. apply bind_fuel; [apply get_node_fuel|].
    intros b0 _. destruct (first_label (m_prev b0)); discriminate. }
  intros p _. apply bind_fuel; [apply get_node_fuel | discriminate].
Qed.

Lemma simplify_loop_fuel fuel c wl :
  size wl ≤ fuel → simplify_loop fuel c wl ≠ OutOfFuel.
Proof.
  revert c wl. induction fuel as [|fuel IH]; cbn [simplify_loop]; intros c wl Hsz.
  - destruct (first_label wl) as [label|] eqn:E; [|discriminate].
    apply first_label_elem in E. assert (wl ≡ ∅) by (apply size_empty_inv; lia).
    set_solver.
  - destruct (first_label wl) as [label|] eqn:E; [|discriminate].
    apply first_label_elem in E.
    assert (Hlt : size (wl ∖ {[label]}) ≤ fuel).
    { assert (size wl = size ({[label]} : gset nat) + size (wl ∖ {[label]})) as Hs.
      { rewrite <- size_union by set_solver. f_equal. apply leibniz_equiv.
        rewrite <- union_difference_singleton; [reflexivity|]. exact E. }
      rewrite size_singleton in Hs. lia. }
    apply bind_fuel; [apply is_chain_interior_fuel|]. intros [|] _.
    + apply IH, Hlt.
    + apply bind_fuel; [apply merge_chain_fuel; lia|].
      intros [c1 wl1] Hr. simpl. apply IH.
      apply merge_chain_worklist in Hr. apply subseteq_size in Hr. lia.
Qed.

Lemma simplify_fuel c : simplify c ≠ OutOfFuel.
Proof. apply simplify_loop_fuel. reflexivity. Qed.

(** *** When the primitives succeed *)

Lemma connect_Ok c a b :
  is_Some (m_blocks c !! a) → is_Some (m_blocks c !! b) → ∃ c', connect c a b = Ok c'.
Proof.
  intros [ba Ha] [bb Hb]. unfold connect, get_node. rewrite Ha, Hb. simpl. eauto.
Qed.

Lemma disconnect_Ok c a b :
  is_Some (m_blocks c !! a) → is_Some (m_blocks c !! b) → ∃ c', disconnect c a b = Ok c'.
Proof.
  intros [ba Ha] [bb Hb]. unfold disconnect, get_node. rewrite Ha, Hb. simpl. eauto.
Qed.

Lemma connect_dom c a b c' :
  connect c a b = Ok c' → dom (m_blocks c') = dom (m_blocks c).
Proof.
  intros H. unfold connect in H. bind_inv H as ba Ha. bind_inv H as bb Hb.
  injection H as <-. simpl. rewrite !dom_alter_L. reflexivity.
Qed.

Lemma foldM_connect_Ok (ls : list nat) c a :
  is_Some (m_blocks c !! a) → (∀ x, x ∈ ls → is_Some (m_blocks c !! x)) →
  ∃ c', foldM (λ c0 n, connect c0 a n) c ls = Ok c'.
Proof.
  revert c. induction ls as [|x ls IH]; simpl; intros c Ha Hls; [eauto|].
  destruct (connect_Ok c a x Ha) as [c1 E]; [apply Hls; left|].
  rewrite E. apply connect_dom in E.
  apply IH.
  - apply elem_of_dom. rewrite E. apply elem_of_dom, Ha.
  - intros y Hy. apply elem_of_dom. rewrite E. apply elem_of_dom, Hls. right. exact Hy.
Qed.

Lemma foldM_disconnect_Ok (es : list (nat * nat)) c :
  (∀ e, e ∈ es → is_Some (m_blocks c !! e.1) ∧ is_Some (m_blocks c !! e.2)) →
  ∃ c', foldM (λ c0 e, disconnect c0 e.1 e.2) c es = Ok c'.
Proof.
  revert c. induction es as [|e es IH]; simpl; intros c Hes; [eauto|].
  destruct (disconnect_Ok c e.1 e.2) as [c1 E]; [apply Hes; left..|].
  rewrite E. apply disconnect_dom in E. apply IH.
  intros e' He'. rewrite <- !elem_of_dom, E, !elem_of_dom. apply Hes. right. exact He'.
Qed.

Lemma checked_edges_total c (mk : nat → nat * nat) ids :
  (∀ id, id ∈ ids → is_Some (m_blocks c !! id)) → checked_edges c mk ids = Ok (map mk ids).
Proof.
  unfold checked_edges. intros Hids.
  enough (G : ∀ acc, foldM (λ acc0 id, _ ← get_node c id; Ok (acc0 ++ [mk id])) acc ids
              = Ok (acc ++ map mk ids)) by apply G.
  induction ids as [|id ids IH]; simpl; intros acc.
  - rewrite app_nil_r. reflexivity.
  - destruct (Hids id) as [blk E]; [left|]. unfold get_node at 1. rewrite E. simpl.
    rewrite IH; [|intros y Hy; apply Hids; right; exact Hy].
    rewrite <- app_assoc. reflexivity.
Qed.

Lemma remove_Ok c l :
  cfg_wf c → is_Some (m_blocks c !! l) → l ≠ m_entry c → l ≠ m_exit c →
  remove c l = Ok (cfg_without {[ l ]} c).
Proof.
  intros Hwf [bl El] Hentry Hexit.
  enough (∃ c', remove c l = Ok c') as [c' E].
  { rewrite E. f_equal. exact (remove_wf_eq _ _ _ Hwf E). }
  destruct Hwf as (Hkeys & Hsym & Hclosed).
  unfold remove. rewrite !decide_False by assumption.
  unfold get_node. rewrite El. simpl. unfold dead_edges.
  rewrite !checked_edges_total; simpl.
  - destruct (foldM_disconnect_Ok
      (map (λ id, (id, l)) (filter (λ id, l ≠ id) (sorted_labels_of (m_prev bl))) ++
       map (λ id, (l, id)) (filter (λ id, l ≠ id) (sorted_labels_of (m_next bl)))) c)
      as [c1 E1].
    + intros e He. apply elem_of_app in He as [He|He];
        apply list_elem_of_fmap in He as (id & -> & Hid);
        apply list_elem_of_filter in Hid as [_ Hid];
        apply elem_of_sorted_labels in Hid; simpl; split; eauto;
        apply (Hclosed l bl id El); set_solver.
    + rewrite E1. simpl. eauto.
  - intros id Hid. apply list_elem_of_filter in Hid as [_ Hid].
    apply elem_of_sorted_labels in Hid. apply (Hclosed l bl id El). set_solver.
  - intros id Hid. apply list_elem_of_filter in Hid as [_ Hid].
    apply elem_of_sorted_labels in Hid. apply (Hclosed l bl id El). set_solver.
Qed.

Lemma foldM_connect_lookup (ls : list nat) c a c' :
  cfg_wf c → foldM (λ c0 n, connect c0 a n) c ls = Ok c' →
  m_entry c' = m_entry c ∧ m_exit c' = m_exit c ∧
  ∀ k, m_blocks c' !! k =
    (λ blk, BasicBlock (m_label blk) (m_ts blk)
              (if decide (k ∈ ls) then m_prev blk ∪ {[ a ]} else m_prev blk)
              (if decide (a = k) then m_next blk ∪ list_to_set ls else m_next blk))
    <$> m_blocks c !! k.
Proof.
  revert c. induction ls as [|x ls IH]; simpl; intros c Hwf H.
  - injection H as <-. repeat split. intros k.
    destruct (m_blocks c !! k) as [blk|]; simpl; [|reflexivity].
    f_equal. apply block_eq; simpl; try reflexivity;
      try (rewrite decide_False by set_solver; reflexivity);
      case_decide; set_solver.
  - destruct (connect c a x) as [c1| |] eqn:E; try discriminate.
    pose proof (connect_wf _ _ _ _ Hwf E) as Hwf1.
    destruct (IH _ Hwf1 H) as (He & Hx & Hl).
    apply connect_lookup in E as (ba & bb & Ea & Eb & He1 & Hx1 & Hl1).
    destruct Hwf as (Hkeys & _ & _).
    rewrite (Hkeys _ _ Ea), (Hkeys _ _ Eb) in Hl1.
    split; [congruence|]. split; [congruence|].
    intros k. rewrite Hl, Hl1.
    destruct (m_blocks c !! k) as [blk|]; simpl; [|reflexivity].
    f_equal. apply block_eq; simpl; try reflexivity.
    + destruct (decide (x = k)) as [->|Hne].
      * rewrite (decide_True (P := k ∈ k :: ls)) by left.
        case_decide; set_solver.
      * destruct (decide (k ∈ ls)) as [Hin|Hnin].
        -- rewrite (decide_True (P := k ∈ x :: ls)) by (right; exact Hin). reflexivity.
        -- rewrite (decide_False (P := k ∈ x :: ls)); [reflexivity|].
           intros Hc. apply elem_of_cons in Hc as [->|Hc]; contradiction.
    + case_decide; set_solver.
Qed.

Lemma first_label_of_singleton (n : nat) : first_label {[ n ]} = Some n.
Proof.
  destruct (first_label {[ n ]}) as [l|] eqn:E.
  - apply first_label_elem in E. apply elem_of_singleton in E. congruence.
  - apply first_label_None in E. set_solver.
Qed.

(** *** One merge of the inner loop *)

Lemma lookup_update_node c l (f : basic_block_t Instruction → basic_block_t Instruction) k :
  m_blocks (update_node c l f) !! k =
  if decide (l = k) then f <$> m_blocks c !! k else m_blocks c !! k.
Proof.
  simpl. rewrite lookup_alter. case_decide; [subst; reflexivity | reflexivity].
Qed.

Lemma merge_next_spec c wl b n bb nb :
  cfg_wf c →
  m_blocks c !! b = Some bb → m_next bb = {[ n ]} →
  m_blocks c !! n = Some nb → in_degree nb = 1 →
  n ≠ b → n ≠ m_entry c →
  ∃ c' bb',
    merge_next c wl b = Ok (Some (c', wl ∖ {[ n ]})) ∧
    m_blocks c' !! n = None ∧
    m_blocks c' !! b = Some bb' ∧
    m_ts bb' = m_ts bb ++ m_ts nb ∧
    m_next bb' = m_next nb ∧
    m_entry c' = m_entry c ∧
    m_exit c' = (if decide (n = m_exit c) then b else m_exit c) ∧
    dom (m_blocks c') = dom (m_blocks c) ∖ {[ n ]}.
Proof.
  intros Hwf Hb Hnext Hn Hdeg Hnb Hentry.
  pose proof Hwf as (Hkeys & Hsym & Hclosed).
  pose proof (Hkeys _ _ Hb) as Hlb. pose proof (Hkeys _ _ Hn) as Hln.
  (* the predecessor set of [n] is [{b}], and [n] is no successor of itself *)
  assert (Hprev : m_prev nb = {[ b ]}).
  { apply size_1_elem_of in Hdeg as [p Hp]. apply leibniz_equiv in Hp.
    assert (b ∈ m_prev nb) as Hin by (apply (Hsym _ _ _ _ Hb Hn); set_solver).
    rewrite Hp in Hin |- *. apply elem_of_singleton in Hin. congruence. }
  assert (Hnoself : n ∉ m_next nb).
  { intros Hin. apply (Hsym _ _ _ _ Hn Hn) in Hin. set_solver. }
  set (c1 := if decide (n = m_exit c) then set_exit c b else c).
  assert (Hwf1 : cfg_wf c1) by (unfold c1; case_decide; [apply set_exit_wf|]; exact Hwf).
  assert (Hb1 : m_blocks c1 = m_blocks c) by (unfold c1; case_decide; reflexivity).
  assert (He1 : m_entry c1 = m_entry c) by (unfold c1; case_decide; reflexivity).
  assert (Hx1 : m_exit c1 = if decide (n = m_exit c) then b else m_exit c)
    by (unfold c1; case_decide; reflexivity).
  set (c2 := update_node c1 b (move_back nb)).
  assert (Hwf2 : cfg_wf c2) by (apply move_back_wf, Hwf1).
  assert (Hb2 : m_blocks c2 !! b = Some (move_back nb bb)).
  { unfold c2. rewrite lookup_update_node, decide_True, Hb1, Hb by reflexivity. reflexivity. }
  assert (Hn2 : m_blocks c2 !! n = Some nb).
  { unfold c2. rewrite lookup_update_node, decide_False, Hb1 by congruence. exact Hn. }
  destruct (disconnect_Ok c2 b n) as [c3 E3]; [eauto..|].
  pose proof (disconnect_wf _ _ _ _ Hwf2 E3) as Hwf3.
  pose proof (disconnect_dom _ _ _ _ E3) as Hd3.
  pose proof E3 as E3'.
  apply disconnect_lookup in E3' as (ba3 & bb3 & Ea3 & Eb3 & He3 & Hx3 & Hl3).
  rewrite Hb2 in Ea3. rewrite Hn2 in Eb3. injection Ea3 as <-. injection Eb3 as <-.
  cbn [m_label move_back] in Hl3. rewrite Hlb, Hln in Hl3.
  assert (Hn3 : m_blocks c3 !! n
                = Some (BasicBlock (m_label nb) (m_ts nb) (m_prev nb ∖ {[ b ]}) (m_next nb))).
  { rewrite Hl3, Hn2. simpl. rewrite decide_True, decide_False by congruence. reflexivity. }
  assert (Hb3 : m_blocks c3 !! b
                = Some (BasicBlock (m_label bb) (m_ts bb ++ m_ts nb) (m_prev bb)
                          (m_next bb ∖ {[ n ]}))).
  { rewrite Hl3, Hb2. simpl. rewrite decide_False, decide_True by congruence. reflexivity. }
  assert (Hdom2 : dom (m_blocks c2) = dom (m_blocks c)).
  { unfold c2. simpl. rewrite dom_alter_L, Hb1. reflexivity. }
  destruct (foldM_connect_Ok (sorted_labels_of (m_next nb)) c3 b) as [c4 E4].
  { rewrite Hb3. eauto. }
  { intros x Hx. apply elem_of_sorted_labels in Hx.
    apply elem_of_dom. rewrite Hd3, Hdom2. apply elem_of_dom.
    apply (Hclosed n nb x Hn). set_solver. }
  pose proof (foldM_connect_wf _ _ _ _ Hwf3 E4) as Hwf4.
  pose proof (foldM_connect_size _ _ _ _ E4) as Hd4.
  pose proof (foldM_connect_lookup _ _ _ _ Hwf3 E4) as (He4 & Hx4 & Hl4).
  assert (Hn4 : is_Some (m_blocks c4 !! n)).
  { apply elem_of_dom. rewrite Hd4. apply elem_of_dom. rewrite Hn3. eauto. }
  assert (E5 : remove c4 n = Ok (cfg_without {[ n ]} c4)).
  { apply remove_Ok; try assumption.
    - rewrite He4, He3. change (m_entry c2) with (m_entry c1). rewrite He1. exact Hentry.
    - rewrite Hx4, Hx3. change (m_exit c2) with (m_exit c1). rewrite Hx1.
      case_decide; congruence. }
  exists (cfg_without {[ n ]} c4).
  eexists.
  split; [|split; [|split; [|split; [|split; [|split; [|split]]]]]].
  - unfold merge_next.
    rewrite (proj2 (get_node_Ok c b bb) Hb). cbn [mbind result_mbind result_bind].
    rewrite decide_True by (unfold out_degree; rewrite Hnext; apply size_singleton).
    unfold get_child_label.
    rewrite (proj2 (get_node_Ok c b bb) Hb). cbn [mbind result_mbind result_bind].
    rewrite Hnext, first_label_of_singleton. cbn [mbind result_mbind result_bind].
    rewrite (proj2 (get_node_Ok c n nb) Hn). cbn [mbind result_mbind result_bind].
    rewrite decide_False by (intros [?|?]; congruence).
    rewrite Hln. fold c1. fold c2. rewrite E3. cbn [mbind result_mbind result_bind].
    rewrite (proj2 (get_node_Ok c3 n _) Hn3). cbn [mbind result_mbind result_bind m_next m_label].
    rewrite E4. cbn [mbind result_mbind result_bind]. rewrite Hln, E5. reflexivity.
  - rewrite lookup_cfg_without, decide_True by set_solver. reflexivity.
  - rewrite lookup_cfg_without, decide_False by set_solver.
    rewrite Hl4, Hb3. simpl. rewrite (decide_True (P := b = b)) by reflexivity.
    reflexivity.
  - reflexivity.
  - simpl. rewrite Hnext. apply set_eq. intros x.
    rewrite !elem_of_difference, elem_of_union, elem_of_difference,
      elem_of_list_to_set, elem_of_sorted_labels, !elem_of_singleton.
    split; [intros [[[? ?]|?] ?]; [contradiction | assumption]|].
    intros Hx. split; [right; exact Hx | congruence].
  - simpl. rewrite He4, He3. exact He1.
  - simpl. rewrite Hx4, Hx3. exact Hx1.
  - simpl. rewrite dom_fmap_L. apply set_eq. intros x.
    rewrite elem_of_dom, elem_of_difference, elem_of_singleton.
    rewrite <- Hdom2, <- Hd3, <- Hd4, elem_of_dom.
    unfold is_Some. setoid_rewrite map_lookup_filter_Some. simpl.
    split.
    + intros (blk & E & Hne). split; [eauto | set_solver].
    + intros [[blk E] Hne]. exists blk. split; [exact E | set_solver].
Qed.

(** *** The depth-first marking *)

Section marking.
Variable view_next : nat → result (list nat).

Lemma mark_alive_children fuel
    (IH : ∀ cur visited r, mark_alive_blocks fuel view_next cur visited = Ok r →
       visited ⊆ r ∧ cur ∈ r ∧
       (∀ x, x ∈ r → x ∉ visited → rtc (view_edge view_next) cur x) ∧
       (∀ x y, x ∈ r → x ∉ visited → view_edge view_next x y → y ∈ r))
    (cs : list nat) :
  ∀ v0 r,
    foldM (λ vis child, mark_alive_blocks fuel view_next child vis) v0 cs = Ok r →
    v0 ⊆ r ∧ (∀ x, x ∈ cs → x ∈ r) ∧
    (∀ x, x ∈ r → x ∉ v0 → ∃ child, child ∈ cs ∧ rtc (view_edge view_next) child x) ∧
    (∀ x y, x ∈ r → x ∉ v0 → view_edge view_next x y → y ∈ r).
Proof.
  induction cs as [|child cs IHcs]; simpl; intros v0 r H.
  - injection H as <-. repeat split; set_solver.
  - destruct (mark_alive_blocks fuel view_next child v0) as [v1| |] eqn:E; try discriminate.
    apply IH in E as (Hsub1 & Hin1 & Hreach1 & Hclosed1).
    apply IHcs in H as (Hsub & Hin & Hreach & Hclosed).
    split; [set_solver|]. split; [|split].
    + intros x Hx. apply elem_of_cons in Hx as [->|Hx]; [set_solver | auto].
    + intros x Hx Hx0. destruct (decide (x ∈ v1)) as [Hv1|Hv1].
      * exists child. split; [left | auto].
      * destruct (Hreach x Hx Hv1) as (ch & Hch & Hrtc). exists ch. split; [right|]; assumption.
    + intros x y Hx Hx0 Hxy. destruct (decide (x ∈ v1)) as [Hv1|Hv1].
      * apply Hsub. exact (Hclosed1 x y Hv1 Hx0 Hxy).
      * exact (Hclosed x y Hx Hv1 Hxy).
Qed.

Lemma mark_alive_spec fuel cur visited r :
  mark_alive_blocks fuel view_next cur visited = Ok r →
  visited ⊆ r ∧ cur ∈ r ∧
  (∀ x, x ∈ r → x ∉ visited → rtc (view_edge view_next) cur x) ∧
  (∀ x y, x ∈ r → x ∉ visited → view_edge view_next x y → y ∈ r).
Proof.
  revert cur visited r. induction fuel as [|fuel IH]; simpl; intros cur visited r H;
    [discriminate|].
  case_decide as Hvis.
  - injection H as <-. repeat split; try set_solver.
  - bind_inv H as children Hch.
    apply (mark_alive_children fuel IH) in H as (Hsub & Hin & Hreach & Hclosed).
    split; [set_solver|]. split; [set_solver|]. split.
    + intros x Hx Hx0. destruct (decide (x = cur)) as [->|Hne]; [reflexivity|].
      destruct (Hreach x Hx) as (ch & Hc & Hrtc); [set_solver|].
      apply rtc_l with ch; [|exact Hrtc]. exists children. split; assumption.
    + intros x y Hx Hx0 Hxy. destruct (decide (x = cur)) as [->|Hne].
      * destruct Hxy as (ns & Hns & Hy). rewrite Hch in Hns. injection Hns as <-.
        apply Hin, Hy.
      * apply (Hclosed x y Hx); [set_solver | exact Hxy].
Qed.

(** Started on the empty set, the marking returns the labels reachable
    from its root. *)
Lemma mark_alive_reachable fuel root r :
  mark_alive_blocks fuel view_next root ∅ = Ok r →
  ∀ x, x ∈ r ↔ rtc (view_edge view_next) root x.
Proof.
  intros H. apply mark_alive_spec in H as (_ & Hroot & Hreach & Hclosed).
  intros x. split.
  - intros Hx. apply Hreach; [exact Hx | set_solver].
  - intros Hrtc. refine (rtc_ind_r (λ y, y ∈ r) root Hroot _ x Hrtc).
    intros y z _ Hyz Hy. apply (Hclosed y z Hy); [set_solver | exact Hyz].
Qed.

Lemma mark_alive_fuel (D : gset nat) :
  (∀ l ns, view_next l = Ok ns → l ∈ D) → (∀ l, view_next l ≠ OutOfFuel) →
  ∀ fuel cur visited,
    size (D ∖ visited) < fuel → mark_alive_blocks fuel view_next cur visited ≠ OutOfFuel.
Proof.
  intros HD Hview. induction fuel as [|fuel IH]; simpl; intros cur visited Hsz; [lia|].
  case_decide as Hvis; [discriminate|].
  apply bind_fuel; [apply Hview|]. intros children Hch. apply HD in Hch.
  assert (Hlt : size (D ∖ (visited ∪ {[cur]})) < size (D ∖ visited)).
  { apply subset_size. set_solver. }
  apply (foldM_fuel (λ vis, visited ∪ {[cur]} ⊆ vis)); [| |reflexivity].
  - intros vis child _ Hvis'. apply IH.
    assert (size (D ∖ vis) ≤ size (D ∖ (visited ∪ {[cur]}))) by (apply subseteq_size; set_solver).
    lia.
  - intros vis child vis' _ Hvis' H. apply mark_alive_spec in H as (Hsub & _). set_solver.
Qed.

End marking.

(** *** The two pruning passes *)

Lemma next_view_edge c x y : view_edge (next_nodes c) x y ↔ cfg_edge c x y.
Proof.
  unfold view_edge, cfg_edge, next_nodes, get_node. split.
  - intros (ns & H & Hy). destruct (m_blocks c !! x) as [bx|]; [|discriminate].
    simpl in H. injection H as <-. exists bx. split; [reflexivity|].
    apply elem_of_sorted_labels, Hy.
  - intros (bx & -> & Hy). simpl. eexists. split; [reflexivity|].
    apply elem_of_sorted_labels, Hy.
Qed.

Lemma prev_view_edge c x y : cfg_wf c → view_edge (prev_nodes c) x y ↔ cfg_edge c y x.
Proof.
  intros (_ & Hsym & Hclosed). unfold view_edge, cfg_edge, prev_nodes, get_node. split.
  - intros (ns & H & Hy). destruct (m_blocks c !! x) as [bx|] eqn:Ex; [|discriminate].
    simpl in H. injection H as <-. apply elem_of_sorted_labels in Hy.
    destruct (Hclosed x bx y Ex) as [by0 Ey]; [set_solver|].
    exists by0. split; [exact Ey|]. apply (Hsym _ _ _ _ Ey Ex), Hy.
  - intros (by0 & Ey & Hx).
    destruct (Hclosed y by0 x Ey) as [bx Ex]; [set_solver|].
    rewrite Ex. simpl. eexists. split; [reflexivity|].
    apply elem_of_sorted_labels. apply (Hsym _ _ _ _ Ey Ex), Hx.
Qed.

Lemma cfg_without_edge gone c x y :
  cfg_edge c x y → x ∉ gone → y ∉ gone → cfg_edge (cfg_without gone c) x y.
Proof.
  intros (bx & Ex & Hy) Hx Hy'. exists (restrict_block gone bx). split.
  - rewrite lookup_cfg_without, decide_False, Ex by assumption. reflexivity.
  - simpl. set_solver.
Qed.

Lemma elem_of_dom_cfg_without gone c x :
  x ∈ dom (m_blocks (cfg_without gone c)) ↔ x ∈ dom (m_blocks c) ∧ x ∉ gone.
Proof.
  rewrite !elem_of_dom, lookup_cfg_without. case_decide.
  - split; [intros [? ?]; discriminate | tauto].
  - rewrite fmap_is_Some. tauto.
Qed.

Lemma elem_of_unmarked c (marked : gset nat) x :
  x ∈ (list_to_set (filter (λ l, l ∉ marked) (labels c)) : gset nat) ↔
  x ∈ dom (m_blocks c) ∧ x ∉ marked.
Proof.
  rewrite elem_of_list_to_set, list_elem_of_filter. unfold labels.
  rewrite elem_of_sorted_labels. tauto.
Qed.

Lemma next_nodes_dom c l ns : next_nodes c l = Ok ns → l ∈ dom (m_blocks c).
Proof.
  unfold next_nodes. intros H. bind_inv H as blk Hb. apply get_node_Ok in Hb.
  apply elem_of_dom. eauto.
Qed.

Lemma prev_nodes_dom c l ns : prev_nodes c l = Ok ns → l ∈ dom (m_blocks c).
Proof.
  unfold prev_nodes. intros H. bind_inv H as blk Hb. apply get_node_Ok in Hb.
  apply elem_of_dom. eauto.
Qed.

Lemma next_nodes_fuel c l : next_nodes c l ≠ OutOfFuel.
Proof. unfold next_nodes. apply bind_fuel; [apply get_node_fuel | discriminate]. Qed.

Lemma prev_nodes_fuel c l : prev_nodes c l ≠ OutOfFuel.
Proof. unfold prev_nodes. apply bind_fuel; [apply get_node_fuel | discriminate]. Qed.

Lemma foldM_remove_fuel (ls : list nat) c : foldM remove c ls ≠ OutOfFuel.
Proof.
  apply (foldM_fuel (λ _, True)); auto. intros c0 l _ _. apply remove_fuel.
Qed.

Lemma remove_unreachable_blocks_fuel c : remove_unreachable_blocks c ≠ OutOfFuel.
Proof.
  unfold remove_unreachable_blocks. apply bind_fuel.
  - apply (mark_alive_fuel _ (dom (m_blocks c))).
    + apply next_nodes_dom.
    + apply next_nodes_fuel.
    + rewrite <- (size_dom (D := gset nat)).
      assert (size (dom (m_blocks c) ∖ ∅) ≤ size (dom (m_blocks c)))
        by (apply subseteq_size; set_solver).
      lia.
  - intros alive _. case_decide; [discriminate | apply foldM_remove_fuel].
Qed.

Lemma remove_useless_blocks_fuel c : remove_useless_blocks c ≠ OutOfFuel.
Proof.
  unfold remove_useless_blocks. apply bind_fuel.
  - apply (mark_alive_fuel _ (dom (m_blocks c))).
    + apply prev_nodes_dom.
    + apply prev_nodes_fuel.
    + rewrite <- (size_dom (D := gset nat)).
      assert (size (dom (m_blocks c) ∖ ∅) ≤ size (dom (m_blocks c)))
        by (apply subseteq_size; set_solver).
      lia.
  - intros useful _. case_decide; [apply foldM_remove_fuel | discriminate].
Qed.

(** After [remove_unreachable_blocks], the CFG is the one induced on the
    labels reachable from the entry. *)
Lemma remove_unreachable_blocks_eq c c1 :
  cfg_wf c → remove_unreachable_blocks c = Ok c1 →
  ∃ alive dead : gset nat,
    c1 = cfg_without dead c ∧
    (∀ x, x ∈ alive ↔ reachable c (m_entry c) x) ∧
    (∀ x, x ∈ dead ↔ x ∈ dom (m_blocks c) ∧ x ∉ alive).
Proof.
  intros Hwf H. unfold remove_unreachable_blocks in H.
  bind_inv H as alive Halive. case_decide; [discriminate|].
  apply foldM_remove_eq in H; [|exact Hwf].
  pose proof (mark_alive_reachable _ _ _ _ Halive) as Hreach.
  exists alive. eexists. split; [exact H|]. split; [|apply elem_of_unmarked].
  intros x. rewrite Hreach. unfold reachable.
  split; intros Hr; (eapply rtc_subrel; [|exact Hr]); intros a b; apply next_view_edge.
Qed.

Lemma rtc_prev_view c a x :
  cfg_wf c → rtc (view_edge (prev_nodes c)) a x ↔ reachable c x a.
Proof.
  intros Hwf. unfold reachable. split; intros Hr.
  - induction Hr as [|a b z Hab _ IH]; [reflexivity|].
    eapply rtc_r; [exact IH|]. apply (prev_view_edge _ _ _ Hwf), Hab.
  - induction Hr as [|a b z Hab _ IH]; [reflexivity|].
    eapply rtc_r; [exact IH|]. apply (prev_view_edge _ _ _ Hwf), Hab.
Qed.

(** After [remove_useless_blocks], the CFG is the one induced on the labels
    from which the exit is reachable. *)
Lemma remove_useless_blocks_eq c c1 :
  cfg_wf c → remove_useless_blocks c = Ok c1 →
  ∃ useful useless : gset nat,
    c1 = cfg_without useless c ∧
    (∀ x, x ∈ useful ↔ reachable c x (m_exit c)) ∧
    (∀ x, x ∈ useless ↔ x ∈ dom (m_blocks c) ∧ x ∉ useful).
Proof.
  intros Hwf H. unfold remove_useless_blocks in H.
  bind_inv H as useful Huseful. case_decide; [|discriminate].
  apply foldM_remove_eq in H; [|exact Hwf].
  pose proof (mark_alive_reachable _ _ _ _ Huseful) as Hreach.
  exists useful. eexists. split; [exact H|]. split; [|apply elem_of_unmarked].
  intros x. rewrite Hreach. apply rtc_prev_view, Hwf.
Qed.

(** Paths that avoid the deleted labels survive in the induced CFG. *)
Lemma reachable_without_from (gone : gset nat) c a :
  (∀ x y, reachable c a x → cfg_edge c x y → y ∉ gone) → a ∉ gone →
  ∀ z, reachable c a z → reachable (cfg_without gone c) a z.
Proof.
  intros Hsafe Ha z Hr.
  enough (reachable (cfg_without gone c) a z ∧ z ∉ gone) by tauto.
  refine (rtc_ind_r (λ z, reachable (cfg_without gone c) a z ∧ z ∉ gone) a _ _ z Hr).
  - split; [reflexivity | exact Ha].
  - intros x y Hax Hxy [IH Hx].
    pose proof (Hsafe x y Hax Hxy) as Hy. split; [|exact Hy].
    eapply rtc_r; [exact IH|]. apply cfg_without_edge; assumption.
Qed.

Lemma reachable_without_to (gone : gset nat) c z :
  (∀ x y, reachable c y z → cfg_edge c x y → x ∉ gone) → z ∉ gone →
  ∀ a, reachable c a z → reachable (cfg_without gone c) a z.
Proof.
  intros Hsafe Hz a Hr.
  enough (reachable (cfg_without gone c) a z ∧ a ∉ gone) by tauto.
  induction Hr as [|x y z Hxy Hyz IH].
  - split; [reflexivity | exact Hz].
  - destruct (IH Hsafe Hz) as [IH1 Hy].
    pose proof (Hsafe x y Hyz Hxy) as Hx. split; [|exact Hx].
    eapply rtc_l; [|exact IH1]. apply cfg_without_edge; assumption.
Qed.

Lemma connect_or_keep_produced c a b :
  cfg_produced c → cfg_produced (connect_or_keep c a b).
Proof.
  intros Hc. unfold connect_or_keep. destruct (connect c a b) as [c'| |] eqn:E; try exact Hc.
  exact (produced_connect c a b c' Hc E).
Qed.

Lemma chain3_produced (s0 s1 s2 : list Instruction) : cfg_produced (chain3 s0 s1 s2).
Proof. unfold chain3. repeat (apply connect_or_keep_produced || constructor). Qed.

Lemma two_cycle_produced (s0 s1 : list Instruction) : cfg_produced (two_cycle s0 s1).
Proof. unfold two_cycle. repeat (apply connect_or_keep_produced || constructor). Qed.

Lemma with_isolated_produced : cfg_produced (with_isolated (Instruction := Instruction)).
Proof. unfold with_isolated. repeat (apply connect_or_keep_produced || constructor). Qed.

End cfg_facts.

(** ** The CFG: the claims *)

(** C1, as amended. The reachability guarantee belongs to the two pruning
    passes, not to [simplify]: on a well-formed CFG
    [remove_unreachable_blocks] always comes back (with a CFG or with the
    "exit must be reachable" error), every block it leaves is reachable from
    the entry, and every block that [remove_useless_blocks] leaves after it
    is reachable from the entry and reaches the exit. *)
Theorem pruning_passes_reachability {Instruction : Type} (c : cfg_t Instruction) :
  cfg_wf c →
  remove_unreachable_blocks c ≠ OutOfFuel ∧
  ∀ c1, remove_unreachable_blocks c = Ok c1 →
    (∀ l, l ∈ dom (m_blocks c1) → reachable c1 (m_entry c1) l) ∧
    remove_useless_blocks c1 ≠ OutOfFuel ∧
    ∀ c2, remove_useless_blocks c1 = Ok c2 →
      ∀ l, l ∈ dom (m_blocks c2) →
        reachable c2 (m_entry c2) l ∧ reachable c2 l (m_exit c2).
Proof.
  intros Hwf. split; [apply remove_unreachable_blocks_fuel|].
  intros c1 H1.
  destruct (remove_unreachable_blocks_eq c c1 Hwf H1) as (alive & dead & -> & Halive & Hdead).
  assert (Hfrom : ∀ l, l ∈ dom (m_blocks (cfg_without dead c)) →
            reachable (cfg_without dead c) (m_entry c) l).
  { intros l Hl. apply elem_of_dom_cfg_without in Hl as [Hl Hnd].
    apply reachable_without_from.
    - intros x y Hx Hxy Hy. apply Hdead in Hy as [_ Hy]. apply Hy, Halive.
      eapply rtc_r; [exact Hx | exact Hxy].
    - intros He. apply Hdead in He as [_ He]. apply He, Halive. reflexivity.
    - apply Halive. destruct (decide (l ∈ alive)) as [Hin|Hnin]; [exact Hin|].
      exfalso. apply Hnd, Hdead. split; assumption. }
  split; [exact Hfrom|]. split; [apply remove_useless_blocks_fuel|].
  intros c2 H2.
  pose proof (cfg_without_wf dead c Hwf) as Hwf1.
  destruct (remove_useless_blocks_eq _ c2 Hwf1 H2) as (useful & useless & -> & Huseful & Huseless).
  intros l Hl. apply elem_of_dom_cfg_without in Hl as [Hl Hnu].
  assert (Hlu : l ∈ useful).
  { destruct (decide (l ∈ useful)) as [Hin|Hnin]; [exact Hin|].
    exfalso. apply Hnu, Huseless. split; assumption. }
  simpl m_entry. simpl m_exit. split.
  - apply reachable_without_to.
    + intros x y Hy Hxy Hx. apply Huseless in Hx as [_ Hx]. apply Hx, Huseful.
      eapply rtc_l; [exact Hxy|]. etrans; [exact Hy|]. apply Huseful, Hlu.
    + exact Hnu.
    + apply Hfrom, Hl.
  - apply reachable_without_to.
    + intros x y Hy Hxy Hx. apply Huseless in Hx as [_ Hx]. apply Hx, Huseful.
      eapply rtc_l; [exact Hxy | exact Hy].
    + intros He. apply Huseless in He as [_ He]. apply He, Huseful. reflexivity.
    + apply Huseful, Hlu.
Qed.

(** The pruning passes on the CFG with an isolated block. *)
Lemma pruning_passes_reachability_witness :
  remove_unreachable_blocks (with_isolated (Instruction := nat)) ≠ OutOfFuel ∧
  ∀ c1, remove_unreachable_blocks (with_isolated (Instruction := nat)) = Ok c1 →
    (∀ l, l ∈ dom (m_blocks c1) → reachable c1 (m_entry c1) l) ∧
    remove_useless_blocks c1 ≠ OutOfFuel ∧
    ∀ c2, remove_useless_blocks c1 = Ok c2 →
      ∀ l, l ∈ dom (m_blocks c2) →
        reachable c2 (m_entry c2) l ∧ reachable c2 l (m_exit c2).
Proof.
  apply (pruning_passes_reachability with_isolated).
  apply cfg_produced_wf, with_isolated_produced.
Defined.

(** The claim C1 as stated fails: [simplify] returns on the CFG
    [0 → 1 → 3] with the isolated block [2], and block [2] is still there,
    unreachable from the entry. *)
Lemma simplify_keeps_unreachable_block :
  ∃ c', simplify (with_isolated (Instruction := nat)) = Ok c' ∧
        2 ∈ dom (m_blocks c') ∧ ¬ reachable c' (m_entry c') 2.
Proof.
  eexists. split; [apply with_isolated_simplify|]. split.
  - apply elem_of_dom. vm_compute. eauto.
  - simpl. intros Hr. apply rtc_inv in Hr as [Heq|(y & (ba & Ea & Hy) & _)]; [discriminate|].
    simpl in Ea. rewrite lookup_insert in Ea. simpl in Ea. injection Ea as <-.
    simpl in Hy. set_solver.
Qed.

Example remove_unreachable_blocks_with_isolated :
  remove_unreachable_blocks (with_isolated (Instruction := nat))
  = Ok (Cfg 0 3 {[ 0 := BasicBlock 0 [] ∅ {[ 1 ]};
                   1 := BasicBlock 1 [] {[ 0 ]} {[ 3 ]};
                   3 := BasicBlock 3 [] {[ 1 ]} ∅ ]}).
Proof. vm_compute. reflexivity. Qed.

(** C5. Every CFG obtained from the constructor by [insert], statement
    insertion, [operator>>], [operator-=], [remove] and [simplify] is
    symmetric: for blocks [a] and [b] of the CFG, [b] is a successor of [a]
    exactly when [a] is a predecessor of [b]. [simplify] itself always
    comes back on such a CFG (with a CFG or with a [CRAB_ERROR]). *)
Theorem cfg_edge_symmetry {Instruction : Type} (c : cfg_t Instruction) :
  cfg_produced c →
  (∀ a b ba bb, m_blocks c !! a = Some ba → m_blocks c !! b = Some bb →
     (b ∈ m_next ba ↔ a ∈ m_prev bb)) ∧
  simplify c ≠ OutOfFuel.
Proof.
  intros Hc. split; [|apply simplify_fuel].
  apply cfg_produced_wf in Hc as (_ & Hsym & _). exact Hsym.
Qed.

(** Symmetry of the CFG that [remove] leaves of the chain [0 → 1 → 2] after
    block [1] is removed, a CFG built by every kind of step but [simplify]. *)
Lemma cfg_edge_symmetry_witness :
  (∀ a b ba bb,
     m_blocks (Cfg 0 2 {[ 0 := BasicBlock 0 [7] ∅ ∅; 2 := BasicBlock 2 [9] ∅ ∅ ]}) !! a = Some ba →
     m_blocks (Cfg 0 2 {[ 0 := BasicBlock 0 [7] ∅ ∅; 2 := BasicBlock 2 [9] ∅ ∅ ]}) !! b = Some bb →
     (b ∈ m_next ba ↔ a ∈ m_prev bb)) ∧
  simplify (Cfg 0 2 {[ 0 := BasicBlock 0 [7] ∅ ∅; 2 := BasicBlock 2 [9] ∅ ∅ ]}) ≠ OutOfFuel.
Proof.
  apply (cfg_edge_symmetry (Cfg 0 2 {[ 0 := BasicBlock 0 [7] ∅ ∅; 2 := BasicBlock 2 [9] ∅ ∅ ]})).
  apply (produced_remove (chain3 [7] [8] [9]) 1).
  - apply chain3_produced.
  - vm_compute. reflexivity.
Defined.

(** C6, as amended. When the round of the worklist loop for label [b] gets
    past the guard (so [b] is not itself the interior of a chain: it does
    not have exactly one predecessor whose only successor it is), [b] has
    exactly one successor [n], [n] has exactly one predecessor, [n ≠ b], and
    [n] is not the entry, then the round goes on from the CFG in which the
    statements of [n] are appended to those of [b], the successors of [b]
    are those of [n], [n] is deleted (also from the worklist), and the exit
    is [b] if it was [n]. In particular [simplify] turns [0 → 1 → 2] with
    [entry = 0], [exit = 2] into the single block [0] with
    [entry = exit = 0] that holds the statements of the three blocks in
    order. *)
Theorem simplify_merges_chain_head {Instruction : Type} (c : cfg_t Instruction)
    (wl : gset nat) (fuel b n : nat) (bb nb : basic_block_t Instruction) :
  cfg_wf c → first_label wl = Some b →
  m_blocks c !! b = Some bb → m_next bb = {[ n ]} →
  m_blocks c !! n = Some nb → in_degree nb = 1 → n ≠ b → n ≠ m_entry c →
  is_chain_interior c b = Ok false →
  (∃ c' bb',
     simplify_loop (S fuel) c wl
       = (r ← merge_chain (size (m_blocks c)) c' (wl ∖ {[ b ]} ∖ {[ n ]}) b;
          simplify_loop fuel r.1 r.2) ∧
     m_blocks c' !! n = None ∧
     dom (m_blocks c') = dom (m_blocks c) ∖ {[ n ]} ∧
     m_blocks c' !! b = Some bb' ∧
     m_ts bb' = m_ts bb ++ m_ts nb ∧
     m_next bb' = m_next nb ∧
     m_entry c' = m_entry c ∧
     m_exit c' = (if decide (n = m_exit c) then b else m_exit c)) ∧
  (∀ s0 s1 s2 : list Instruction,
     simplify (chain3 s0 s1 s2)
     = Ok (Cfg 0 0 {[ 0 := BasicBlock 0 ((s0 ++ s1) ++ s2) ∅ ∅ ]})).
Proof.
  intros Hwf Hfirst Hb Hnext Hn Hdeg Hne Hentry Hguard.
  split; [|apply chain3_simplify].
  destruct (merge_next_spec c (wl ∖ {[ b ]}) b n bb nb Hwf Hb Hnext Hn Hdeg Hne Hentry)
    as (c' & bb' & Hstep & Hgone & Hdom & Hb' & Hts & Hnext' & He & Hx).
  exists c', bb'. repeat split; try assumption.
  cbn [simplify_loop]. rewrite Hfirst, Hguard.
  cbn [mbind result_mbind result_bind merge_chain]. rewrite Hstep.
  reflexivity.
Qed.

(** The first round of [simplify] on the chain [0 → 1 → 2]: block [1] is
    merged into block [0]. *)
Lemma simplify_merges_chain_head_witness :
  (∃ c' bb',
     simplify_loop 3 (chain3 [1; 2] [3] [4]) {[ 0; 1; 2 ]}
       = (r ← merge_chain (size (m_blocks (chain3 [1; 2] [3] [4]))) c'
                ({[ 0; 1; 2 ]} ∖ {[ 0 ]} ∖ {[ 1 ]}) 0;
          simplify_loop 2 r.1 r.2) ∧
     m_blocks c' !! 1 = None ∧
     dom (m_blocks c') = dom (m_blocks (chain3 [1; 2] [3] [4])) ∖ {[ 1 ]} ∧
     m_blocks c' !! 0 = Some bb' ∧
     m_ts bb' = [1; 2] ++ [3] ∧
     m_next bb' = {[ 2 ]} ∧
     m_entry c' = 0 ∧
     m_exit c' = 2) ∧
  (∀ s0 s1 s2 : list nat,
     simplify (chain3 s0 s1 s2)
     = Ok (Cfg 0 0 {[ 0 := BasicBlock 0 ((s0 ++ s1) ++ s2) ∅ ∅ ]})).
Proof.
  assert (Hfirst : first_label ({[ 0; 1; 2 ]} : gset nat) = Some 0)
    by (vm_compute; reflexivity).
  assert (Hb : m_blocks (chain3 [1; 2] [3] [4]) !! 0 = Some (BasicBlock 0 [1; 2] ∅ {[ 1 ]}))
    by (vm_compute; reflexivity).
  assert (Hn : m_blocks (chain3 [1; 2] [3] [4]) !! 1 = Some (BasicBlock 1 [3] {[ 0 ]} {[ 2 ]}))
    by (vm_compute; reflexivity).
  assert (Hdeg : in_degree (BasicBlock 1 [3] {[ 0 ]} {[ 2 ]}) = 1)
    by (vm_compute; reflexivity).
  assert (Hguard : is_chain_interior (chain3 [1; 2] [3] [4]) 0 = Ok false)
    by (vm_compute; reflexivity).
  exact (simplify_merges_chain_head (chain3 [1; 2] [3] [4]) {[ 0; 1; 2 ]} 2 0 1
           (BasicBlock 0 [1; 2] ∅ {[ 1 ]}) (BasicBlock 1 [3] {[ 0 ]} {[ 2 ]})
           (cfg_produced_wf _ (chain3_produced _ _ _))
           Hfirst Hb eq_refl Hn Hdeg (Nat.neq_succ_0 0) (Nat.neq_succ_0 0) Hguard).
Defined.

(** The claim C6 as stated fails on the cycle [0 → 1 → 0]: block [0] has
    exactly one successor, block [1], whose only predecessor is block [0],
    yet [simplify] returns the CFG as it was: block [1] is still there and
    block [0] holds its own statements only. *)
Lemma simplify_keeps_two_cycle :
  ∃ b0 b1,
    m_blocks (two_cycle [1] [2]) !! 0 = Some b0 ∧
    m_blocks (two_cycle [1] [2]) !! 1 = Some b1 ∧
    m_next b0 = {[ 1 ]} ∧ m_prev b1 = {[ 0 ]} ∧
    simplify (two_cycle [1] [2]) = Ok (two_cycle [1] [2]) ∧
    m_ts b0 = [1] ∧ m_ts b1 = [2].
Proof.
  exists (BasicBlock 0 [1] {[ 1 ]} {[ 1 ]}), (BasicBlock 1 [2] {[ 0 ]} {[ 0 ]}).
  repeat split; try (vm_compute; reflexivity).
Qed.

(** ** The SplitDBM domain *)

Section dbm_facts.
Context `{SplitDBM.Collaborators}.
Import SplitDBM.

Lemma normalize_vert_map (s : t) : vert_map (normalize s) = vert_map s.
Proof. unfold normalize. case_decide; reflexivity. Qed.

Lemma normalize_is_bottom (s : t) : is_bottom (normalize s) = is_bottom s.
Proof. unfold normalize. case_decide; reflexivity. Qed.

Lemma normalize_stable (s : t) : unstable s = ∅ → normalize s = s.
Proof. intros Hs. unfold normalize. rewrite decide_True by exact Hs. reflexivity. Qed.

Lemma normalize_unstable (s : t) : unstable (normalize s) = ∅.
Proof. unfold normalize. case_decide; [assumption | reflexivity]. Qed.

(** C8. [a.narrow(o)] is bottom when [a] or [o] is bottom; it is [o] when
    [a] is top (and neither is bottom); in every other case it is the
    normalized copy of [a], whatever [o] is: the right operand contributes
    nothing, and the result has no unstable vertex. *)
Theorem narrow_cases (a o : t) :
  (is_bottom a = true ∨ is_bottom o = true → narrow a o = bottom) ∧
  (is_bottom a = false → is_bottom o = false → is_top a = true → narrow a o = o) ∧
  (is_bottom a = false → is_bottom o = false → is_top a = false →
     narrow a o = normalize a ∧
     unstable (narrow a o) = ∅ ∧
     ∀ o', is_bottom o' = false → narrow a o' = narrow a o).
Proof.
  unfold narrow. split; [|split].
  - intros [-> | ->]; [reflexivity|]. rewrite orb_true_r. reflexivity.
  - intros -> -> ->. reflexivity.
  - intros -> -> ->. split; [reflexivity|]. split; [apply normalize_unstable|].
    intros o' ->. reflexivity.
Qed.

(** C9. For states [a] and [b] that are neither bottom nor top, if the
    variable-to-vertex map of [a] has strictly fewer entries than that of
    [b], the order test [a <= b] answers [false], whatever the edges of
    [b] are (so also when the variables of [b] that [a] lacks have no
    incident edge). *)
Theorem leq_fewer_variables (a b : t) :
  is_bottom a = false → is_bottom b = false → is_top a = false → is_top b = false →
  size (vert_map a) < size (vert_map b) →
  (leq a b).1 = false.
Proof.
  intros Ha Hb Hta Htb Hsz. unfold leq. rewrite Ha, Hb, Hta, Htb.
  rewrite normalize_vert_map. rewrite decide_True by exact Hsz. reflexivity.
Qed.

(** C10. On a bottom state, [operator+=] (for every constraint),
    [assign] (for every variable and expression), [set] (for every variable
    and interval) and [operator-=] (for every variable) return at once and
    leave the state as it was, bottom included. *)
Theorem bottom_absorbing (s : t) :
  is_bottom s = true →
  (∀ cst, add_constraint s cst = s) ∧
  (∀ x e, assign s x e = s) ∧
  (∀ x intv, set s x intv = s) ∧
  (∀ x, forget s x = s).
Proof.
  intros Hs. repeat split.
  - intros cst. unfold add_constraint. rewrite Hs.
    destruct (lincst.is_inequality cst && lincst.is_unsigned cst); reflexivity.
  - intros x e. unfold assign. rewrite Hs. reflexivity.
  - intros x intv. unfold set. rewrite Hs. reflexivity.
  - intros x. unfold forget. rewrite Hs. reflexivity.
Qed.

Lemma Wt_of_exact (z : Z) : in_Wt z → Wt_of z = z.
Proof. unfold in_Wt, Wt_of. intros ->. reflexivity. Qed.

Lemma assign_terms_bounded (s : t) (ub : bool) (ts : list (nat * Z)) :
  Forall (term_fits s ub) ts →
  ∀ residual bounded,
    assign_in_range s ub ts residual →
    assign_terms s ub ts residual None bounded
    = Some (assign_residual s ub ts residual, None,
            bounded ++ omap (λ yn : nat * Z,
                               if decide (yn.2 < 0)%Z then None
                               else Some (yn.1, bound_number (term_bound s ub yn.1 yn.2))) ts).
Proof.
  induction 1 as [|[y n] ts [Hn (v & Hv & Hfv)] _ IH]; intros residual bounded Hr.
  - simpl. rewrite app_nil_r. reflexivity.
  - destruct Hr as (Hp & Hs & Hr). cbn [fst snd] in Hp, Hs, Hr, Hn, Hv.
    specialize (IH _ (bounded ++ if decide (n < 0)%Z then [] else [(y, v)]) Hr).
    rewrite Hv in Hp, Hs, IH. cbn [bound_number] in Hp, Hs, IH.
    cbn [assign_terms assign_residual foldl omap list_omap fst snd].
    unfold fits in Hn, Hfv. rewrite Hn. rewrite Hv. cbn [bound_number].
    unfold term_bound in Hv.
    destruct (decide (n < 0)%Z) as [Hneg|Hpos].
    + rewrite app_nil_r in IH.
      destruct ub; rewrite Hv; rewrite Hfv; cbn [fst];
        unfold Wt_add, Wt_mul; rewrite (Wt_of_exact _ Hp), (Wt_of_exact _ Hs); exact IH.
    + destruct ub; rewrite Hv; rewrite Hfv;
        unfold Wt_add, Wt_mul; rewrite (Wt_of_exact _ Hp), (Wt_of_exact _ Hs);
        rewrite IH, <- app_assoc; reflexivity.
Qed.

(** C2, as amended. When the constant and every coefficient of [exp]
    convert to [Wt] exactly, every variable has the finite bound its term
    consumes (itself convertible), and nothing the routine computes in
    [Wt] overflows (no product [cⱼ · bound_of_yⱼ], no partial sum of the
    residual, no emitted difference), [diffcsts_of_assign] appends to
    [diff_csts], for each term [cᵢ·yᵢ] with [cᵢ ≥ 0] and in the order of the
    terms, the pair [(yᵢ, residual − bound_of_yᵢ)]: the bound is not scaled
    by the coefficient. [residual] is the constant plus the sum of
    [cⱼ · bound_of_yⱼ] over all terms; a term with a negative coefficient
    adds to it and yields no pair of its own. *)
Theorem diffcsts_of_assign_bounded (s : t) (x : nat) (exp : linear_expression_t)
    (ub : bool) (diff_csts : list (nat * Z)) :
  fits (constant exp) → Forall (term_fits s ub) (terms exp) →
  assign_in_range s ub (terms exp) (constant exp) →
  Forall (λ yn : nat * Z,
            (0 ≤ yn.2)%Z →
            in_Wt (assign_residual s ub (terms exp) (constant exp)
                   - bound_number (term_bound s ub yn.1 yn.2)))
         (terms exp) →
  diffcsts_of_assign s x exp ub diff_csts
  = diff_csts ++
    omap (λ yn : nat * Z,
            if decide (yn.2 < 0)%Z then None
            else Some (yn.1, (assign_residual s ub (terms exp) (constant exp)
                              - bound_number (term_bound s ub yn.1 yn.2))%Z))
         (terms exp).
Proof.
  intros Hk Hts Hr Hd. unfold diffcsts_of_assign. unfold fits in Hk. rewrite Hk.
  rewrite (assign_terms_bounded s ub (terms exp) Hts _ _ Hr). simpl. f_equal.
  revert Hd. generalize (assign_residual s ub (terms exp) (constant exp)). intros r.
  clear Hts Hr.
  induction (terms exp) as [|[y n] ts IH]; intros Hd; [reflexivity|].
  apply Forall_cons in Hd as [Hy Hd]. cbn [fst snd] in Hy.
  cbn [omap list_omap]. cbn [fst snd]. destruct (decide (n < 0)%Z); [exact (IH Hd)|].
  rewrite fmap_cons. cbn [fst snd]. f_equal; [|exact (IH Hd)].
  unfold Wt_sub. rewrite Wt_of_exact by (apply Hy; lia). reflexivity.
Qed.

Lemma assign_terms_skip (s : t) (ub : bool) (ts1 ts2 : list (nat * Z)) (y : nat) (n : Z) :
  (convert_NtoW n).2 = true →
  ∀ residual unbounded_var bounded,
    assign_terms s ub (ts1 ++ (y, n) :: ts2) residual unbounded_var bounded
    = assign_terms s ub (ts1 ++ ts2) residual unbounded_var bounded.
Proof.
  intros Hn. induction ts1 as [|[y1 n1] ts1 IH]; intros residual unbounded_var bounded; simpl.
  - destruct (convert_NtoW n) as [c o]. simpl in Hn. subst o. reflexivity.
  - destruct (convert_NtoW n1) as [c1 [|]]; [apply IH|].
    case_decide.
    + destruct (if ub then _ else _); try reflexivity. apply IH.
    + destruct (if ub then _ else _); try (case_decide; [reflexivity | apply IH]).
      destruct (convert_NtoW n0) as [c2 [|]]; apply IH.
Qed.

(** C3, as amended. If the conversion of the constant overflows,
    [diffcsts_of_assign] leaves [diff_csts] as it was. If the conversion of
    a coefficient overflows, the routine only skips that term: it goes on as
    for the expression without the term. *)
Theorem diffcsts_of_assign_overflow (s : t) (x : nat) (ub : bool) (diff_csts : list (nat * Z)) :
  (∀ exp, (convert_NtoW (constant exp)).2 = true →
     diffcsts_of_assign s x exp ub diff_csts = diff_csts) ∧
  (∀ ts1 ts2 y n k, (convert_NtoW n).2 = true →
     diffcsts_of_assign s x (LinExp (ts1 ++ (y, n) :: ts2) k) ub diff_csts
     = diffcsts_of_assign s x (LinExp (ts1 ++ ts2) k) ub diff_csts).
Proof.
  split.
  - intros exp Hk. unfold diffcsts_of_assign.
    destruct (convert_NtoW (constant exp)) as [k o]. simpl in Hk. subst o. reflexivity.
  - intros ts1 ts2 y n k Hn. unfold diffcsts_of_assign. simpl.
    destruct (convert_NtoW k) as [k' [|]]; [reflexivity|].
    rewrite (assign_terms_skip s ub ts1 ts2 y n Hn). reflexivity.
Qed.

End dbm_facts.

(** [narrow] on the seed states: the right operand leaves no trace. *)
Example narrow_state_A :
  SplitDBM.is_top state_A = false ∧
  SplitDBM.narrow state_A state_B = SplitDBM.normalize state_A ∧
  SplitDBM.narrow state_A SplitDBM.top = SplitDBM.normalize state_A ∧
  SplitDBM.narrow SplitDBM.top state_B = state_B ∧
  SplitDBM.narrow state_A SplitDBM.bottom = SplitDBM.bottom.
Proof. repeat split; vm_compute; reflexivity. Qed.

(** [x ∈ [0, 10]] against [x ∈ [0, 20]] with an unconstrained [y]: the
    second state has one entry more, so the test fails. *)
Lemma leq_fewer_variables_witness :
  (SplitDBM.leq state_x10 state_x20_y).1 = false.
Proof.
  assert (Hsz : size (SplitDBM.vert_map state_x10) < size (SplitDBM.vert_map state_x20_y))
    by (vm_compute; lia).
  exact (leq_fewer_variables state_x10 state_x20_y eq_refl eq_refl eq_refl eq_refl Hsz).
Defined.

(** In that pair the vertex of [y] has no edge at all, and every valuation
    the first state admits is admitted by the second. *)
Example isolated_variable_inclusion :
  SplitDBM.vert_map state_x20_y !! var_y = Some 2 ∧
  graph.e_succs (SplitDBM.g state_x20_y) 2 = [] ∧
  graph.e_preds (SplitDBM.g state_x20_y) 2 = [] ∧
  ∀ ρ, admits state_x10 ρ → admits state_x20_y ρ.
Proof.
  split; [vm_compute; reflexivity|].
  split; [vm_compute; reflexivity|].
  split; [vm_compute; reflexivity|].
  intros ρ [_ Hρ]. split; [reflexivity|].
  assert (H01 := Hρ 0 1 10%Z eq_refl). assert (H10 := Hρ 1 0 0%Z eq_refl).
  change (vertex_value state_x10 ρ 1) with (ρ var_x) in H01, H10.
  change (vertex_value state_x10 ρ 0) with 0%Z in H01, H10.
  intros i j w Hl. unfold graph.lookup in Hl. apply elem_of_map_to_list in Hl.
  assert (He : map_to_list (g_edges (SplitDBM.g state_x20_y))
               = [((0, 1), 20%Z); ((1, 0), 0%Z)]) by (vm_compute; reflexivity).
  rewrite He in Hl.
  repeat (apply elem_of_cons in Hl as [[= -> -> ->]|Hl];
          [change (vertex_value state_x20_y ρ 1) with (ρ var_x);
           change (vertex_value state_x20_y ρ 0) with 0%Z; lia|]).
  apply elem_of_nil in Hl. contradiction.
Qed.

Lemma bottom_absorbing_witness :
  (∀ cst, SplitDBM.add_constraint SplitDBM.bottom cst = SplitDBM.bottom) ∧
  (∀ x e, SplitDBM.assign SplitDBM.bottom x e = SplitDBM.bottom) ∧
  (∀ x intv, SplitDBM.set SplitDBM.bottom x intv = SplitDBM.bottom) ∧
  (∀ x, SplitDBM.forget SplitDBM.bottom x = SplitDBM.bottom).
Proof. exact (bottom_absorbing SplitDBM.bottom eq_refl). Defined.

(** [z := 2·x + 1] in state B, upper bounds: [x ≤ 30], the residual is [61]
    and the pair is [(x, 61 − 30)]. *)
Lemma diffcsts_of_assign_bounded_witness :
  SplitDBM.diffcsts_of_assign state_B var_z (LinExp [(var_x, 2%Z)] 1) true []
  = [(var_x, 31%Z)].
Proof.
  assert (Hk : SplitDBM.fits 1) by (vm_compute; reflexivity).
  assert (Hts : Forall (SplitDBM.term_fits state_B true) [(var_x, 2%Z)]).
  { constructor; [|constructor]. split; [vm_compute; reflexivity|].
    exists 30%Z. split; vm_compute; reflexivity. }
  assert (Hr : SplitDBM.assign_in_range state_B true [(var_x, 2%Z)] 1).
  { vm_compute. repeat split. }
  assert (Hd : Forall (λ yn : nat * Z,
                         (0 ≤ yn.2)%Z →
                         SplitDBM.in_Wt
                           (SplitDBM.assign_residual state_B true [(var_x, 2%Z)] 1
                            - SplitDBM.bound_number
                                (SplitDBM.term_bound state_B true yn.1 yn.2)))
                      [(var_x, 2%Z)]).
  { constructor; [|constructor]. intros _. vm_compute. reflexivity. }
  exact (diffcsts_of_assign_bounded state_B var_z (LinExp [(var_x, 2%Z)] 1) true []
           Hk Hts Hr Hd).
Defined.

(** The claim C2 as stated fails: for [z := 2·x + 1] in state B every
    variable is bounded, every conversion is exact and nothing overflows,
    the routine emits [z − x ≤ 31], and the formula of the claim gives
    [z − x ≤ 1]. *)
Lemma diffcsts_of_assign_unscaled_bound :
  SplitDBM.fits 1 ∧ Forall (SplitDBM.term_fits state_B true) [(var_x, 2%Z)] ∧
  SplitDBM.assign_in_range state_B true [(var_x, 2%Z)] 1 ∧
  SplitDBM.diffcsts_of_assign state_B var_z (LinExp [(var_x, 2%Z)] 1) true []
  = [(var_x, 31%Z)] ∧
  SplitDBM.spec_diffcsts_of_assign state_B (LinExp [(var_x, 2%Z)] 1) true []
  = [(var_x, 1%Z)].
Proof.
  split; [vm_compute; reflexivity|]. split; [|split].
  - constructor; [|constructor]. split; [vm_compute; reflexivity|].
    exists 30%Z. split; vm_compute; reflexivity.
  - vm_compute. repeat split.
  - split; vm_compute; reflexivity.
Qed.

(** Out of range the formula no longer describes the routine: in
    [z := 2⁶²·x + 1] every conversion is exact, but the product
    [30 · 2⁶²] does not fit [Wt]; with a weight type that wraps around the
    routine emits a wrapped weight, not [30 · 2⁶² + 1 − 30]. *)
Example diffcsts_of_assign_out_of_range :
  SplitDBM.fits 1 ∧ Forall (SplitDBM.term_fits state_B true) [(var_x, (2 ^ 62)%Z)] ∧
  (SplitDBM.convert_NtoW (30 * 2 ^ 62)).2 = true ∧
  SplitDBM.diffcsts_of_assign state_B var_z (LinExp [(var_x, (2 ^ 62)%Z)] 1) true []
  = [(var_x, (30 * 2 ^ 62 + 1 - 2 ^ 64 * 7 - 30)%Z)].
Proof.
  split; [vm_compute; reflexivity|]. split; [|split].
  - constructor; [|constructor]. split; [vm_compute; reflexivity|].
    exists 30%Z. split; vm_compute; reflexivity.
  - vm_compute. reflexivity.
  - vm_compute. reflexivity.
Qed.

(** A term with a negative coefficient moves the residual and yields no
    pair: [z := y − x] in state B gives [z − y ≤ (30 − 20) − 30]. *)
Example negative_term_emits_nothing :
  SplitDBM.diffcsts_of_assign state_B var_z (LinExp [(var_y, 1%Z); (var_x, (-1)%Z)] 0) true []
  = [(var_y, (-20)%Z)].
Proof. vm_compute. reflexivity. Qed.

(** The claim C3 as stated fails: in [z := 2⁶⁴·x + y] the conversion of
    the coefficient of [x] overflows, and the routine still emits the pair
    of [y]. *)
Lemma diffcsts_of_assign_skips_overflowing_term :
  (SplitDBM.convert_NtoW (2 ^ 64)).2 = true ∧
  SplitDBM.diffcsts_of_assign state_B var_z
    (LinExp [(var_x, (2 ^ 64)%Z); (var_y, 1%Z)] 0) true []
  = [(var_y, 0%Z)].
Proof. split; vm_compute; reflexivity. Qed.

(** With an overflowing constant nothing is emitted. *)
Example overflowing_constant_emits_nothing :
  SplitDBM.diffcsts_of_assign state_B var_z (LinExp [(var_y, 1%Z)] (2 ^ 64)) true [] = [].
Proof. vm_compute. reflexivity. Qed.

(** ** The join of the seed states *)






(** ** The fixpoint iterator *)

Section iterator_facts.
Context {D Instruction : Type} `{fwd_analyzer.AbstractDomain D Instruction}.
Import fwd_analyzer.

Lemma increasing_unfold (cfg : cfg_t Instruction) (w : list wto_component_t)
    (fuel head : nat) (components : list wto_component_t) (k : nat) (pre : D)
    (st : iterator_t D) :
  increasing cfg w (S fuel) head components k pre st
  = (st ← transform_to_post cfg head pre (set_pre head pre st);
     st ← foldM (λ st0 x, visit cfg w fuel x st0) st components;
     new_pre ← join_all_prevs cfg head st;
     if leq new_pre pre then Ok (set_pre head new_pre st, new_pre)
     else increasing cfg w fuel head components (S k)
            (extrapolate head k pre new_pre) st).
Proof. reflexivity. Qed.


End iterator_facts.

Example counter_loop_analysis :
  fwd_analyzer.run_forward_analyzer counter.loop_cfg counter.loop_wto 10
  = Ok ({[ 0 := Range 0 None; 1 := Range 0 None; 2 := Range 1 None ]},
        {[ 0 := Range 0 (Some 0); 1 := Range 1 None; 2 := Range 1 None ]}).
Proof. vm_compute. reflexivity. Qed.


(* ===================================================================== *)
(** * Further properties of the code *)
(* ===================================================================== *)

Section cfg_extra.
Context {Instruction : Type}.
Implicit Types (c : cfg_t Instruction) (blk : basic_block_t Instruction).

(** X1. On a well-formed CFG, [remove] raises [CRAB_ERROR] exactly when the
    label is the entry, is the exit, or names no block. *)
Theorem remove_error_cases c l :
  cfg_wf c →
  remove c l = Abort ↔ l = m_entry c ∨ l = m_exit c ∨ m_blocks c !! l = None.
Proof.
  intros Hwf. split.
  - intros H. destruct (decide (l = m_entry c)) as [|Hne]; [tauto|].
    destruct (decide (l = m_exit c)) as [|Hnx]; [tauto|].
    destruct (m_blocks c !! l) as [blk|] eqn:E; [|tauto].
    rewrite (remove_Ok c l Hwf) in H by eauto. discriminate.
  - intros [->|[->|E]]; unfold remove.
    + rewrite decide_True by reflexivity. reflexivity.
    + case_decide; [reflexivity|]. rewrite decide_True by reflexivity. reflexivity.
    + repeat case_decide; try reflexivity. unfold get_node. rewrite E. reflexivity.
Qed.

(** X2. When [remove] returns on a well-formed CFG, the block is gone and so
    is every edge to or from it; entry, exit, the other blocks' statements
    and the edges between the other blocks are as before. *)
Theorem remove_deletes_block_and_edges c l c' :
  cfg_wf c → remove c l = Ok c' →
  l ≠ m_entry c ∧ l ≠ m_exit c ∧
  m_entry c' = m_entry c ∧ m_exit c' = m_exit c ∧
  dom (m_blocks c') = dom (m_blocks c) ∖ {[ l ]} ∧
  (∀ k blk', m_blocks c' !! k = Some blk' →
     l ∉ m_prev blk' ∧ l ∉ m_next blk' ∧
     ∃ blk, m_blocks c !! k = Some blk ∧ m_ts blk' = m_ts blk ∧ m_label blk' = m_label blk) ∧
  (∀ x y, cfg_edge c' x y ↔ cfg_edge c x y ∧ x ≠ l ∧ y ≠ l).
Proof.
  intros Hwf H.
  assert (Hne : l ≠ m_entry c ∧ l ≠ m_exit c).
  { unfold remove in H. repeat case_decide; try discriminate. tauto. }
  pose proof (remove_dom _ _ _ H) as [_ Hdom].
  pose proof (remove_wf_eq _ _ _ Hwf H) as ->.
  split; [tauto|]. split; [tauto|]. split; [reflexivity|]. split; [reflexivity|].
  split; [exact Hdom|]. split.
  - intros k blk' Hk. rewrite lookup_cfg_without in Hk. case_decide; [discriminate|].
    destruct (m_blocks c !! k) as [blk|] eqn:E; [|discriminate]. injection Hk as <-.
    simpl. split; [set_solver|]. split; [set_solver|]. eauto.
  - intros x y. unfold cfg_edge. setoid_rewrite lookup_cfg_without. split.
    + intros (ba & Hba & Hy). case_decide; [discriminate|].
      destruct (m_blocks c !! x) as [blk|] eqn:E; [|discriminate]. injection Hba as <-.
      simpl in Hy. split; [exists blk; split; [reflexivity|set_solver]|set_solver].
    + intros ((ba & Hba & Hy) & Hx & Hyl). rewrite decide_False by set_solver.
      rewrite Hba. eexists. split; [reflexivity|]. simpl. set_solver.
Qed.

(** X3. [insert] never overwrites: on a label that has a block the CFG is
    unchanged (statements and edges kept), on a new label the block is empty
    and without edges, and the other blocks are untouched; inserting twice
    is inserting once. *)
Theorem insert_keeps_existing_block c l :
  insert_block (insert_block c l) l = insert_block c l ∧
  (is_Some (m_blocks c !! l) → insert_block c l = c) ∧
  (m_blocks c !! l = None → get_node (insert_block c l) l = Ok (new_block l)) ∧
  (∀ k, k ≠ l → get_node (insert_block c l) k = get_node c k).
Proof.
  destruct c as [e x m]. unfold insert_block, emplace_block, get_node. simpl.
  split; [|split; [|split]].
  - destruct (m !! l) eqn:E; simpl; rewrite ?E; [reflexivity|].
    rewrite lookup_insert_eq. reflexivity.
  - intros [blk E]. rewrite E. reflexivity.
  - intros E. rewrite E. simpl. rewrite lookup_insert_eq. reflexivity.
  - intros k Hk. destruct (m !! l); simpl; [reflexivity|].
    rewrite lookup_insert_ne by congruence. reflexivity.
Qed.

Lemma cfg_eq c1 c2 :
  m_entry c1 = m_entry c2 → m_exit c1 = m_exit c2 →
  (∀ k, m_blocks c1 !! k = m_blocks c2 !! k) → c1 = c2.
Proof.
  destruct c1, c2. simpl. intros -> -> Hm. f_equal. apply map_eq. exact Hm.
Qed.

Lemma connect_edges c a b c' :
  cfg_keys c → connect c a b = Ok c' →
  ∀ x y, cfg_edge c' x y ↔ cfg_edge c x y ∨ (x = a ∧ y = b).
Proof.
  intros Hkeys H x y.
  apply connect_lookup in H as (ba & bb & Ea & Eb & _ & _ & Hl).
  pose proof (Hkeys _ _ Eb) as Hlb.
  unfold cfg_edge. setoid_rewrite Hl. split.
  - intros (blk' & Hb & Hy). destruct (m_blocks c !! x) as [blk|] eqn:E; [|discriminate].
    injection Hb as <-. simpl in Hy. case_decide.
    + subst x. apply elem_of_union in Hy as [Hy|Hy]; [left; eauto|].
      right. split; [reflexivity|]. apply elem_of_singleton in Hy. congruence.
    + left. eauto.
  - intros [(blk & E & Hy)|[-> ->]].
    + rewrite E. eexists. split; [reflexivity|]. simpl. case_decide; set_solver.
    + rewrite Ea. eexists. split; [reflexivity|]. simpl.
      rewrite decide_True by reflexivity. set_solver.
Qed.

Lemma disconnect_edges c a b c' :
  cfg_keys c → disconnect c a b = Ok c' →
  ∀ x y, cfg_edge c' x y ↔ cfg_edge c x y ∧ ¬ (x = a ∧ y = b).
Proof.
  intros Hkeys H x y.
  apply disconnect_lookup in H as (ba & bb & Ea & Eb & _ & _ & Hl).
  pose proof (Hkeys _ _ Eb) as Hlb.
  unfold cfg_edge. setoid_rewrite Hl. split.
  - intros (blk' & Hb & Hy). destruct (m_blocks c !! x) as [blk|] eqn:E; [|discriminate].
    injection Hb as <-. simpl in Hy. case_decide.
    + subst x. apply elem_of_difference in Hy as [Hy Hn]. split; [eauto|].
      intros [_ ->]. apply Hn. apply elem_of_singleton. congruence.
    + split; [eauto|]. intros [-> _]. congruence.
  - intros [(blk & E & Hy) Hn].
    rewrite E. eexists. split; [reflexivity|]. simpl. case_decide; [|exact Hy].
    subst x. apply elem_of_difference. split; [exact Hy|].
    intros Hs. apply elem_of_singleton in Hs. apply Hn. split; congruence.
Qed.

Lemma connect_Abort_iff c a b :
  connect c a b = Abort ↔ m_blocks c !! a = None ∨ m_blocks c !! b = None.
Proof.
  unfold connect, get_node.
  destruct (m_blocks c !! a); destruct (m_blocks c !! b); simpl;
    split; try tauto; try discriminate; intros [?|?]; discriminate.
Qed.

Lemma disconnect_Abort_iff c a b :
  disconnect c a b = Abort ↔ m_blocks c !! a = None ∨ m_blocks c !! b = None.
Proof.
  unfold disconnect, get_node.
  destruct (m_blocks c !! a); destruct (m_blocks c !! b); simpl;
    split; try tauto; try discriminate; intros [?|?]; discriminate.
Qed.

Lemma connect_then_disconnect c a b c1 :
  cfg_wf c → ¬ cfg_edge c a b → connect c a b = Ok c1 → disconnect c1 a b = Ok c.
Proof.
  intros (Hkeys & Hsym & Hclosed) Hno H1.
  pose proof H1 as H1'.
  apply connect_lookup in H1' as (ba & bb & Ea & Eb & He & Hx & Hl).
  destruct (disconnect_Ok c1 a b) as [c2 H2].
  { rewrite Hl, Ea. eauto. } { rewrite Hl, Eb. eauto. }
  rewrite H2. f_equal.
  apply disconnect_lookup in H2 as (ba1 & bb1 & Ea1 & Eb1 & He2 & Hx2 & Hl2).
  rewrite Hl, Ea in Ea1. rewrite Hl, Eb in Eb1. injection Ea1 as <-. injection Eb1 as <-.
  simpl in Hl2. rewrite (Hkeys _ _ Ea), (Hkeys _ _ Eb) in *.
  apply cfg_eq; [congruence..|]. intros k. rewrite Hl2, Hl.
  destruct (m_blocks c !! k) as [blk|] eqn:E; [|reflexivity]. simpl. f_equal.
  assert (Hnb : b ∉ m_next ba) by (intros Hin; apply Hno; exists ba; eauto).
  assert (Hpa : a ∉ m_prev bb) by (intros Hin; apply Hnb, (Hsym _ _ _ _ Ea Eb), Hin).
  apply block_eq; simpl; try reflexivity.
  - case_decide; [|reflexivity]. subst k. assert (blk = bb) as -> by congruence. set_solver.
  - case_decide; [|reflexivity]. subst k. assert (blk = ba) as -> by congruence. set_solver.
Qed.

Lemma disconnect_then_connect c a b c1 :
  cfg_wf c → cfg_edge c a b → disconnect c a b = Ok c1 → connect c1 a b = Ok c.
Proof.
  intros (Hkeys & Hsym & Hclosed) Hedge H1.
  pose proof H1 as H1'.
  apply disconnect_lookup in H1' as (ba & bb & Ea & Eb & He & Hx & Hl).
  destruct (connect_Ok c1 a b) as [c2 H2].
  { rewrite Hl, Ea. eauto. } { rewrite Hl, Eb. eauto. }
  rewrite H2. f_equal.
  apply connect_lookup in H2 as (ba1 & bb1 & Ea1 & Eb1 & He2 & Hx2 & Hl2).
  rewrite Hl, Ea in Ea1. rewrite Hl, Eb in Eb1. injection Ea1 as <-. injection Eb1 as <-.
  simpl in Hl2. rewrite (Hkeys _ _ Ea), (Hkeys _ _ Eb) in *.
  apply cfg_eq; [congruence..|]. intros k. rewrite Hl2, Hl.
  destruct (m_blocks c !! k) as [blk|] eqn:E; [|reflexivity]. simpl. f_equal.
  assert (Hnb : b ∈ m_next ba).
  { destruct Hedge as (ba' & Ea' & Hin). congruence. }
  assert (Hpa : a ∈ m_prev bb) by (apply (Hsym _ _ _ _ Ea Eb), Hnb).
  apply block_eq; simpl; try reflexivity.
  - case_decide; [|reflexivity]. subst k. assert (blk = bb) as -> by congruence.
    apply set_eq. intros z. rewrite elem_of_union, elem_of_difference, elem_of_singleton.
    destruct (decide (z = a)) as [->|]; tauto.
  - case_decide; [|reflexivity]. subst k. assert (blk = ba) as -> by congruence.
    apply set_eq. intros z. rewrite elem_of_union, elem_of_difference, elem_of_singleton.
    destruct (decide (z = b)) as [->|]; tauto.
Qed.

Lemma restricted_prev_eq (prev nexts : gset nat) (n b k : nat) :
  n ≠ b →
  (∀ x, x ∈ sorted_labels_of nexts ↔ x ∈ nexts) →
  (k ∈ nexts ↔ n ∈ prev) →
  (if decide (k ∈ sorted_labels_of nexts) then prev ∪ {[ b ]} else prev) ∖ {[ n ]}
  = if decide (k ∈ nexts) then prev ∖ {[ n ]} ∪ {[ b ]} else prev.
Proof.
  intros Hnb Hls Hk.
  destruct (decide (k ∈ nexts)) as [Hin|Hout].
  - rewrite decide_True by (apply Hls, Hin).
    apply set_eq. intros x.
    rewrite elem_of_difference, !elem_of_union, elem_of_difference, !elem_of_singleton.
    split; [intros [[?|?] ?]; tauto | intros [[? ?]|?]; [tauto|]].
    subst x. split; [tauto|congruence].
  - rewrite decide_False by (rewrite Hls; exact Hout).
    apply set_eq. intros x. rewrite elem_of_difference, elem_of_singleton.
    split; [tauto|]. intros Hx. split; [exact Hx|]. intros ->. tauto.
Qed.

(** What one merge of [simplify] does to every block of the map. *)
Lemma merge_next_inv c wl b c' wl' :
  cfg_wf c → merge_next c wl b = Ok (Some (c', wl')) →
  ∃ n bb nb,
    m_blocks c !! b = Some bb ∧ m_blocks c !! n = Some nb ∧
    m_next bb = {[ n ]} ∧ m_prev nb = {[ b ]} ∧ n ≠ b ∧ n ≠ m_entry c ∧
    wl' = wl ∖ {[ n ]} ∧
    m_entry c' = m_entry c ∧
    m_exit c' = (if decide (n = m_exit c) then b else m_exit c) ∧
    ∀ k, m_blocks c' !! k =
      if decide (k = n) then None
      else (λ blk, BasicBlock (m_label blk)
                     (if decide (k = b) then m_ts blk ++ m_ts nb else m_ts blk)
                     (if decide (k ∈ m_next nb) then m_prev blk ∖ {[ n ]} ∪ {[ b ]}
                      else m_prev blk)
                     (if decide (k = b) then m_next nb else m_next blk))
           <$> m_blocks c !! k.
Proof.
  intros Hwf H.
  pose proof Hwf as (Hkeys & Hsym & Hclosed).
  pose proof H as H0. unfold merge_next in H0.
  bind_inv H0 as bb Hbb. case_decide as Hout; [|discriminate].
  bind_inv H0 as n Hn. bind_inv H0 as nb Hnb. case_decide as Hcond; [discriminate|].
  apply get_node_Ok in Hbb, Hnb.
  unfold get_child_label in Hn. bind_inv Hn as bb0 Hbb0. apply get_node_Ok in Hbb0.
  assert (bb0 = bb) as -> by congruence.
  destruct (first_label (m_next bb)) as [n0|] eqn:Ef; [|discriminate]. injection Hn as ->.
  pose proof (first_label_singleton _ _ Hout Ef) as Hnext.
  assert (Hnb' : n ≠ b) by tauto.
  assert (Hdeg : in_degree nb = 1).
  { destruct (decide (in_degree nb = 1)); [assumption|]. exfalso. apply Hcond. tauto. }
  assert (Hentry : n ≠ m_entry c).
  { clear H. intros ->. rewrite (Hkeys _ _ Hnb) in H0.
    bind_inv H0 as c3 Hc3. bind_inv H0 as nb' Hnb2. bind_inv H0 as c4 Hc4. bind_inv H0 as c5 Hc5.
    apply get_node_Ok in Hnb2.
    pose proof Hc3 as Hc3'. apply disconnect_lookup in Hc3' as (_ & _ & _ & _ & He3 & _ & _).
    assert (Hwf2 : cfg_wf (update_node
                    (if decide (m_entry c = m_exit c) then set_exit c b else c) b (move_back nb))).
    { apply move_back_wf. case_decide; [apply set_exit_wf|]; exact Hwf. }
    pose proof (disconnect_wf _ _ _ _ Hwf2 Hc3) as Hwf3.
    pose proof (foldM_connect_lookup _ _ _ _ Hwf3 Hc4) as (He4 & _ & _).
    destruct Hwf3 as (Hkeys3 & _ & _). rewrite (Hkeys3 _ _ Hnb2) in Hc5.
    unfold remove in Hc5. rewrite decide_True in Hc5; [discriminate|].
    rewrite He4, He3. simpl. case_decide; reflexivity. }
  assert (Hprev : m_prev nb = {[ b ]}).
  { apply size_1_elem_of in Hdeg as [p Hp]. apply leibniz_equiv in Hp.
    assert (b ∈ m_prev nb) as Hin by (apply (Hsym _ _ _ _ Hbb Hnb); set_solver).
    rewrite Hp in Hin |- *. apply elem_of_singleton in Hin. congruence. }
  clear H.
  pose proof (Hkeys _ _ Hbb) as Hlb. pose proof (Hkeys _ _ Hnb) as Hln.
  rewrite Hln in H0.
  bind_inv H0 as c3 Hc3. bind_inv H0 as nb' Hnb2. bind_inv H0 as c4 Hc4. bind_inv H0 as c5 Hc5.
  injection H0 as <- <-. apply get_node_Ok in Hnb2.
  exists n, bb, nb. repeat (split; [assumption || reflexivity|]).
  set (c1 := if decide (n = m_exit c) then set_exit c b else c) in *.
  assert (Hwf1 : cfg_wf c1) by (unfold c1; case_decide; [apply set_exit_wf|]; exact Hwf).
  assert (Hb1 : m_blocks c1 = m_blocks c) by (unfold c1; case_decide; reflexivity).
  assert (He1 : m_entry c1 = m_entry c) by (unfold c1; case_decide; reflexivity).
  assert (Hx1 : m_exit c1 = if decide (n = m_exit c) then b else m_exit c)
    by (unfold c1; case_decide; reflexivity).
  set (c2 := update_node c1 b (move_back nb)) in *.
  assert (Hwf2 : cfg_wf c2) by (apply move_back_wf, Hwf1).
  pose proof (disconnect_wf _ _ _ _ Hwf2 Hc3) as Hwf3.
  pose proof Hc3 as Hc3'.
  apply disconnect_lookup in Hc3' as (ba3 & bb3 & Ea3 & Eb3 & He3 & Hx3 & Hl3).
  assert (Hb2 : m_blocks c2 !! b = Some (move_back nb bb)).
  { unfold c2. rewrite lookup_update_node, decide_True, Hb1, Hbb by reflexivity. reflexivity. }
  assert (Hn2 : m_blocks c2 !! n = Some nb).
  { unfold c2. rewrite lookup_update_node, decide_False, Hb1 by congruence. exact Hnb. }
  rewrite Hb2 in Ea3. rewrite Hn2 in Eb3. injection Ea3 as <-. injection Eb3 as <-.
  cbn [m_label move_back] in Hl3. rewrite Hlb, Hln in Hl3.
  assert (Hnb3 : m_next nb' = m_next nb ∧ m_label nb' = n).
  { rewrite Hl3, Hn2 in Hnb2. injection Hnb2 as <-. simpl.
    rewrite decide_False by congruence. split; [reflexivity | exact Hln]. }
  destruct Hnb3 as [Hnn Hln'].
  pose proof (foldM_connect_wf _ _ _ _ Hwf3 Hc4) as Hwf4.
  pose proof (foldM_connect_lookup _ _ _ _ Hwf3 Hc4) as (He4 & Hx4 & Hl4).
  rewrite Hln' in Hc5.
  pose proof (remove_wf_eq _ _ _ Hwf4 Hc5) as ->.
  split; [simpl; rewrite He4, He3; exact He1|].
  split; [simpl; rewrite Hx4, Hx3; exact Hx1|].
  intros k. rewrite lookup_cfg_without.
  destruct (decide (k = n)) as [->|Hkn].
  { rewrite decide_True by set_solver. reflexivity. }
  rewrite decide_False by set_solver.
  rewrite Hl4, Hl3. unfold c2. rewrite lookup_update_node, Hb1.
  assert (Hnoself : n ∉ m_next nb).
  { intros Hin. apply (Hsym _ _ _ _ Hnb Hnb) in Hin. set_solver. }
  destruct (m_blocks c !! k) as [blk|] eqn:Ek.
  2:{ destruct (decide (b = k)); reflexivity. }
  pose proof (Hsym _ _ _ _ Hnb Ek) as S1. pose proof (Hsym _ _ _ _ Ek Hnb) as S2.
  rewrite Hprev in S2. rewrite Hnn.
  assert (Hin_ls : ∀ x, x ∈ sorted_labels_of (m_next nb) ↔ x ∈ m_next nb)
    by (intros x; apply elem_of_sorted_labels).
  destruct (decide (b = k)) as [<-|Hbk].
  - assert (blk = bb) as -> by congruence. simpl. f_equal.
    rewrite (decide_True (P := b = b)) by reflexivity.
    rewrite (decide_False (P := n = b)) by congruence.
    apply block_eq; simpl; try reflexivity.
    + apply (restricted_prev_eq (m_prev bb) (m_next nb) n b b Hnb'); [exact Hin_ls | exact S1].
    + rewrite Hnext. apply set_eq. intros x.
      rewrite elem_of_difference, !elem_of_union, elem_of_difference, elem_of_list_to_set,
        Hin_ls, !elem_of_singleton.
      rewrite decide_True by reflexivity.
      split; [intros [[[? ?]|?] ?]; [contradiction | assumption]|].
      intros Hx. split; [right; exact Hx | congruence].
  - simpl. f_equal.
    rewrite (decide_False (P := k = b)) by congruence.
    rewrite (decide_False (P := n = k)) by congruence.
    apply block_eq; simpl; try reflexivity.
    + apply (restricted_prev_eq (m_prev blk) (m_next nb) n b k Hnb'); [exact Hin_ls | exact S1].
    + apply set_eq. intros x. rewrite elem_of_difference, elem_of_singleton.
      rewrite decide_False by congruence.
      split; [tauto|]. intros Hx. split; [exact Hx|]. intros ->.
      apply S2 in Hx. apply elem_of_singleton in Hx. congruence.
Qed.

(** *** What [simplify] keeps *)

Lemma merge_chain_invariant (P : cfg_t Instruction → Prop) b fuel c wl c' wl' :
  (∀ c0 wl0 c1 wl1, cfg_wf c0 → P c0 → merge_next c0 wl0 b = Ok (Some (c1, wl1)) → P c1) →
  cfg_wf c → P c → merge_chain fuel c wl b = Ok (c', wl') → P c'.
Proof.
  intros Hstep. revert c wl. induction fuel as [|fuel IH]; simpl; intros c wl Hwf HP H;
    [discriminate|].
  bind_inv H as r Hr. destruct r as [[c1 wl1]|].
  - apply (IH c1 wl1); [exact (merge_next_wf _ _ _ _ _ Hwf Hr) | | exact H].
    exact (Hstep _ _ _ _ Hwf HP Hr).
  - injection H as <- _. exact HP.
Qed.

Lemma simplify_loop_invariant (P : cfg_t Instruction → Prop) fuel c wl c' :
  (∀ b c0 wl0 c1 wl1, cfg_wf c0 → P c0 → merge_next c0 wl0 b = Ok (Some (c1, wl1)) → P c1) →
  cfg_wf c → P c → simplify_loop fuel c wl = Ok c' → P c'.
Proof.
  intros Hstep. revert c wl. induction fuel as [|fuel IH]; cbn [simplify_loop];
    intros c wl Hwf HP H.
  - destruct (first_label wl); [discriminate|]. injection H as <-. exact HP.
  - destruct (first_label wl) as [label|]; [|injection H as <-; exact HP].
    bind_inv H as skip Hskip. destruct skip.
    + exact (IH _ _ Hwf HP H).
    + bind_inv H as r Hr. destruct r as [c1 wl1].
      apply (IH c1 wl1); [exact (merge_chain_wf _ _ _ _ _ _ Hwf Hr) | | exact H].
      exact (merge_chain_invariant P label _ _ _ _ _ (Hstep label) Hwf HP Hr).
Qed.

(** The labels, the entry and the statements of the surviving blocks
    across one merge. *)
Lemma merge_next_keeps (c0 : cfg_t Instruction) b c wl c' wl' :
  cfg_wf c → merge_next c wl b = Ok (Some (c', wl')) →
  (m_entry c = m_entry c0 ∧
   dom (m_blocks c) ⊆ dom (m_blocks c0) ∧
   (m_entry c0 ∈ dom (m_blocks c0) → m_entry c0 ∈ dom (m_blocks c)) ∧
   (m_exit c0 ∈ dom (m_blocks c0) → m_exit c ∈ dom (m_blocks c)) ∧
   (∀ k blk', m_blocks c !! k = Some blk' →
      ∃ blk, m_blocks c0 !! k = Some blk ∧ m_ts blk `prefix_of` m_ts blk')) →
  (m_entry c' = m_entry c0 ∧
   dom (m_blocks c') ⊆ dom (m_blocks c0) ∧
   (m_entry c0 ∈ dom (m_blocks c0) → m_entry c0 ∈ dom (m_blocks c')) ∧
   (m_exit c0 ∈ dom (m_blocks c0) → m_exit c' ∈ dom (m_blocks c')) ∧
   (∀ k blk', m_blocks c' !! k = Some blk' →
      ∃ blk, m_blocks c0 !! k = Some blk ∧ m_ts blk `prefix_of` m_ts blk')).
Proof.
  intros Hwf H (He & Hd & Hin & Hex & Hts).
  apply merge_next_inv in H as (n & bb & nb & Hbb & Hnb & Hnext & Hprev & Hnb' & Hne & _ &
                                 He' & Hx' & Hl); [|exact Hwf].
  assert (Hdom : ∀ k, k ∈ dom (m_blocks c') ↔ k ∈ dom (m_blocks c) ∧ k ≠ n).
  { intros k. rewrite !elem_of_dom, Hl. destruct (decide (k = n)) as [->|Hk].
    - split; [intros [? ?]; discriminate | tauto].
    - rewrite fmap_is_Some. tauto. }
  split; [congruence|]. split; [|split; [|split]].
  - intros k Hk. apply Hdom in Hk. apply Hd. tauto.
  - intros H0. apply Hdom. split; [auto|]. congruence.
  - intros H0. rewrite Hx'. apply Hdom. case_decide.
    + split; [apply elem_of_dom; eauto | congruence].
    + split; [auto | congruence].
  - intros k blk' Hk. rewrite Hl in Hk. case_decide; [discriminate|].
    destruct (m_blocks c !! k) as [blk1|] eqn:E; [|discriminate]. injection Hk as <-.
    destruct (Hts _ _ E) as (blk & E0 & Hp). exists blk. split; [exact E0|]. simpl.
    destruct (decide (k = b)); [|exact Hp]. etrans; [exact Hp|]. apply prefix_app_r. reflexivity.
Qed.

Lemma concat_Permutation {A : Type} (l1 l2 : list (list A)) :
  l1 ≡ₚ l2 → concat l1 ≡ₚ concat l2.
Proof.
  induction 1 as [|x l1 l2 _ IH|x y l|l1 l2 l3 _ IH1 _ IH2]; simpl.
  - reflexivity.
  - rewrite IH. reflexivity.
  - rewrite !app_assoc. rewrite (Permutation_app_comm y x). reflexivity.
  - etrans; eassumption.
Qed.

Lemma concat_values_merge {A : Type} (T : gmap nat (list A)) (b n : nat) (tb tn : list A) :
  b ≠ n → T !! b = Some tb → T !! n = Some tn →
  concat (map_to_list (delete n (<[b := tb ++ tn]> T))).*2 ≡ₚ concat (map_to_list T).*2.
Proof.
  intros Hbn Hb Hn.
  set (T0 := delete b (delete n T)).
  assert (HT : T = <[b := tb]> (<[n := tn]> T0)).
  { apply map_eq. intros k. unfold T0.
    destruct (decide (k = b)) as [->|]; [rewrite lookup_insert_eq; exact Hb|].
    rewrite lookup_insert_ne by congruence.
    destruct (decide (k = n)) as [->|]; [rewrite lookup_insert_eq; exact Hn|].
    rewrite lookup_insert_ne, !lookup_delete_ne by congruence. reflexivity. }
  assert (HT' : delete n (<[b := tb ++ tn]> T) = <[b := tb ++ tn]> T0).
  { apply map_eq. intros k. unfold T0.
    destruct (decide (k = n)) as [->|].
    - rewrite lookup_delete_eq, lookup_insert_ne by congruence.
      rewrite lookup_delete_ne, lookup_delete_eq by congruence. reflexivity.
    - rewrite lookup_delete_ne by congruence.
      destruct (decide (k = b)) as [->|]; [rewrite !lookup_insert_eq; reflexivity|].
      rewrite !lookup_insert_ne, !lookup_delete_ne by congruence. reflexivity. }
  assert (H0b : T0 !! b = None) by (unfold T0; apply lookup_delete_eq).
  assert (H0n : T0 !! n = None).
  { unfold T0. rewrite lookup_delete_ne by congruence. apply lookup_delete_eq. }
  rewrite HT'. clear HT' Hb Hn. clearbody T0. subst T.
  etrans.
  { apply concat_Permutation, fmap_Permutation.
    exact (map_to_list_insert T0 b (tb ++ tn) H0b). }
  symmetry. etrans.
  { apply concat_Permutation, fmap_Permutation.
    etrans; [apply map_to_list_insert; rewrite lookup_insert_ne by congruence; exact H0b|].
    apply Permutation_skip. exact (map_to_list_insert T0 n tn H0n). }
  simpl. rewrite app_assoc. reflexivity.
Qed.

Lemma all_statements_merge c wl b c' wl' :
  cfg_wf c → merge_next c wl b = Ok (Some (c', wl')) →
  all_statements c' ≡ₚ all_statements c.
Proof.
  intros Hwf H.
  apply merge_next_inv in H as (n & bb & nb & Hbb & Hnb & _ & _ & Hnb' & _ & _ & _ & _ & Hl);
    [|exact Hwf].
  assert (Hall : ∀ c0 : cfg_t Instruction,
            all_statements c0 = concat (map_to_list (m_ts <$> m_blocks c0)).*2).
  { intros c0. unfold all_statements. rewrite map_to_list_fmap. f_equal.
    rewrite <- list_fmap_compose. apply list_fmap_ext. intros _ [k blk] _. reflexivity. }
  rewrite !Hall.
  assert (HT : m_ts <$> m_blocks c'
               = delete n (<[b := m_ts bb ++ m_ts nb]> (m_ts <$> m_blocks c))).
  { apply map_eq. intros k. rewrite lookup_fmap, Hl.
    destruct (decide (k = n)) as [->|Hk]; [rewrite lookup_delete_eq; reflexivity|].
    rewrite lookup_delete_ne by congruence.
    destruct (decide (k = b)) as [->|Hkb].
    - rewrite lookup_insert_eq, Hbb. reflexivity.
    - rewrite lookup_insert_ne, lookup_fmap by congruence.
      destruct (m_blocks c !! k); reflexivity. }
  rewrite HT. apply concat_values_merge; [congruence | |];
    rewrite lookup_fmap; [rewrite Hbb | rewrite Hnb]; reflexivity.
Qed.

(** *** When [simplify] raises no error *)

Lemma is_chain_interior_Ok c label :
  cfg_wf c → label ∈ dom (m_blocks c) → ∃ r, is_chain_interior c label = Ok r.
Proof.
  intros (Hkeys & Hsym & Hclosed) Hin. apply elem_of_dom in Hin as [bb Hbb].
  unfold is_chain_interior. rewrite (proj2 (get_node_Ok c label bb) Hbb).
  cbn [mbind result_mbind result_bind]. case_decide as Hdeg; [|eauto].
  unfold get_parent_label. rewrite (proj2 (get_node_Ok c label bb) Hbb).
  cbn [mbind result_mbind result_bind].
  destruct (first_label (m_prev bb)) as [p|] eqn:Ep.
  - cbn [mbind result_mbind result_bind].
    destruct (Hclosed label bb p Hbb) as [pb Hpb].
    { apply elem_of_union_l. exact (first_label_elem _ _ Ep). }
    rewrite (proj2 (get_node_Ok c p pb) Hpb). cbn [mbind result_mbind result_bind]. eauto.
  - apply first_label_None in Ep. unfold in_degree in Hdeg. rewrite Ep, size_empty in Hdeg.
    discriminate.
Qed.

Lemma merge_next_Ok c wl b :
  cfg_wf c → entry_has_no_pred c → b ∈ dom (m_blocks c) → ∃ r, merge_next c wl b = Ok r.
Proof.
  intros Hwf Hentry Hin. pose proof Hwf as (Hkeys & Hsym & Hclosed).
  apply elem_of_dom in Hin as [bb Hbb].
  destruct (decide (out_degree bb = 1)) as [Hout|Hout].
  2:{ unfold merge_next. rewrite (proj2 (get_node_Ok c b bb) Hbb).
      cbn [mbind result_mbind result_bind]. rewrite decide_False by exact Hout. eauto. }
  pose proof Hout as Hout'. apply size_1_elem_of in Hout' as [n Hn]. apply leibniz_equiv in Hn.
  destruct (Hclosed b bb n Hbb) as [nb Hnb]; [rewrite Hn; set_solver|].
  destruct (decide (n = b ∨ in_degree nb ≠ 1)) as [Hc|Hc].
  - unfold merge_next. rewrite (proj2 (get_node_Ok c b bb) Hbb).
    cbn [mbind result_mbind result_bind]. rewrite decide_True by exact Hout.
    unfold get_child_label. rewrite (proj2 (get_node_Ok c b bb) Hbb).
    cbn [mbind result_mbind result_bind]. rewrite Hn, first_label_of_singleton.
    cbn [mbind result_mbind result_bind].
    rewrite (proj2 (get_node_Ok c n nb) Hnb). cbn [mbind result_mbind result_bind].
    rewrite decide_True by exact Hc. eauto.
  - assert (Hdeg : in_degree nb = 1) by (destruct (decide (in_degree nb = 1)); tauto).
    assert (Hne : n ≠ m_entry c).
    { intros ->. unfold in_degree in Hdeg. rewrite (Hentry _ Hnb), size_empty in Hdeg.
      discriminate. }
    destruct (merge_next_spec c wl b n bb nb Hwf Hbb Hn Hnb Hdeg) as (c' & bb' & E & _);
      [tauto | exact Hne|]. eauto.
Qed.

Lemma merge_next_entry_has_no_pred c wl b c' wl' :
  cfg_wf c → entry_has_no_pred c → merge_next c wl b = Ok (Some (c', wl')) →
  entry_has_no_pred c'.
Proof.
  intros Hwf Hentry H. pose proof Hwf as (Hkeys & Hsym & Hclosed).
  apply merge_next_inv in H as (n & bb & nb & Hbb & Hnb & _ & _ & _ & Hne & _ & He & _ & Hl);
    [|exact Hwf].
  intros be' Hbe'. rewrite He, Hl in Hbe'. rewrite decide_False in Hbe' by congruence.
  destruct (m_blocks c !! m_entry c) as [be|] eqn:E; [|discriminate]. injection Hbe' as <-.
  simpl. pose proof (Hentry _ E) as Hp.
  rewrite decide_False; [exact Hp|].
  intros Hin. apply (Hsym _ _ _ _ Hnb E) in Hin. rewrite Hp in Hin. set_solver.
Qed.

Lemma merge_chain_safe b fuel c wl :
  cfg_wf c → entry_has_no_pred c → b ∈ dom (m_blocks c) → wl ⊆ dom (m_blocks c) →
  match merge_chain fuel c wl b with
  | Ok r => entry_has_no_pred r.1 ∧ r.2 ⊆ dom (m_blocks r.1)
  | Abort => False
  | OutOfFuel => True
  end.
Proof.
  revert c wl. induction fuel as [|fuel IH]; simpl; intros c wl Hwf Hentry Hb Hwl; [exact I|].
  destruct (merge_next_Ok c wl b Hwf Hentry Hb) as [r Hr]. rewrite Hr.
  cbn [mbind result_mbind result_bind]. destruct r as [[c1 wl1]|]; [|simpl; tauto].
  pose proof (merge_next_wf _ _ _ _ _ Hwf Hr) as Hwf1.
  pose proof (merge_next_entry_has_no_pred _ _ _ _ _ Hwf Hentry Hr) as Hentry1.
  pose proof Hr as Hr'.
  apply merge_next_inv in Hr' as (n & bb & nb & Hbb & Hnb & _ & _ & Hnb' & _ & -> & _ & _ & Hl);
    [|exact Hwf].
  assert (Hdom : ∀ k, k ∈ dom (m_blocks c1) ↔ k ∈ dom (m_blocks c) ∧ k ≠ n).
  { intros k. rewrite !elem_of_dom, Hl. destruct (decide (k = n)) as [->|Hk].
    - split; [intros [? ?]; discriminate | tauto].
    - rewrite fmap_is_Some. tauto. }
  apply IH; try assumption.
  - apply Hdom. split; [exact Hb | congruence].
  - intros k Hk. apply elem_of_difference in Hk as [Hk Hn]. apply Hdom.
    split; [apply Hwl, Hk|]. intros ->. apply Hn. apply elem_of_singleton. reflexivity.
Qed.

Lemma simplify_loop_safe fuel c wl :
  cfg_wf c → entry_has_no_pred c → wl ⊆ dom (m_blocks c) →
  simplify_loop fuel c wl ≠ Abort.
Proof.
  revert c wl. induction fuel as [|fuel IH]; cbn [simplify_loop]; intros c wl Hwf Hentry Hwl.
  - destruct (first_label wl); discriminate.
  - destruct (first_label wl) as [label|] eqn:El; [|discriminate].
    assert (Hl : label ∈ dom (m_blocks c)) by (apply Hwl; exact (first_label_elem _ _ El)).
    destruct (is_chain_interior_Ok c label Hwf Hl) as [skip Hs]. rewrite Hs.
    cbn [mbind result_mbind result_bind].
    assert (Hwl' : wl ∖ {[ label ]} ⊆ dom (m_blocks c)) by set_solver.
    destruct skip; [apply IH; assumption|].
    pose proof (merge_chain_safe label (S (size (m_blocks c))) c (wl ∖ {[ label ]})
                  Hwf Hentry Hl Hwl') as Hsafe.
    destruct (merge_chain _ c _ label) as [[c1 wl1]| |] eqn:Em; [|contradiction|discriminate].
    cbn [mbind result_mbind result_bind]. simpl in Hsafe. destruct Hsafe as [He1 Hw1].
    apply IH; [exact (merge_chain_wf _ _ _ _ _ _ Hwf Em) | exact He1 | exact Hw1].
Qed.

(** *** When the pruning passes raise an error *)

Lemma mark_alive_not_abort (view_next : nat → result (list nat)) (D : gset nat) :
  (∀ l, l ∈ D → ∃ ns, view_next l = Ok ns ∧ ∀ x, x ∈ ns → x ∈ D) →
  ∀ fuel cur visited, cur ∈ D → mark_alive_blocks fuel view_next cur visited ≠ Abort.
Proof.
  intros Hview. induction fuel as [|fuel IH]; simpl; intros cur visited Hcur; [discriminate|].
  case_decide; [discriminate|].
  destruct (Hview cur Hcur) as (ns & -> & Hns). cbn [mbind result_mbind result_bind].
  generalize (visited ∪ {[cur]}). clear Hcur.
  induction ns as [|x ns IHns]; simpl; intros vis; [discriminate|].
  pose proof (IH x vis (Hns x ltac:(left))) as Hx.
  destruct (mark_alive_blocks fuel view_next x vis) as [vis'| |]; [|contradiction|discriminate].
  apply IHns. intros y Hy. apply Hns. right. exact Hy.
Qed.

Lemma next_nodes_closed c l :
  cfg_wf c → l ∈ dom (m_blocks c) →
  ∃ ns, next_nodes c l = Ok ns ∧ ∀ x, x ∈ ns → x ∈ dom (m_blocks c).
Proof.
  intros (_ & _ & Hclosed) Hl. apply elem_of_dom in Hl as [blk E].
  unfold next_nodes. rewrite (proj2 (get_node_Ok c l blk) E). eexists. split; [reflexivity|].
  intros x Hx. apply elem_of_sorted_labels in Hx. apply elem_of_dom.
  apply (Hclosed l blk x E). set_solver.
Qed.

Lemma prev_nodes_closed c l :
  cfg_wf c → l ∈ dom (m_blocks c) →
  ∃ ns, prev_nodes c l = Ok ns ∧ ∀ x, x ∈ ns → x ∈ dom (m_blocks c).
Proof.
  intros (_ & _ & Hclosed) Hl. apply elem_of_dom in Hl as [blk E].
  unfold prev_nodes. rewrite (proj2 (get_node_Ok c l blk) E). eexists. split; [reflexivity|].
  intros x Hx. apply elem_of_sorted_labels in Hx. apply elem_of_dom.
  apply (Hclosed l blk x E). set_solver.
Qed.

Lemma foldM_remove_Ok (ls : list nat) c :
  cfg_wf c → NoDup ls →
  (∀ l, l ∈ ls → l ∈ dom (m_blocks c) ∧ l ≠ m_entry c ∧ l ≠ m_exit c) →
  ∃ c', foldM remove c ls = Ok c'.
Proof.
  revert c. induction ls as [|l ls IH]; simpl; intros c Hwf Hnd Hls; [eauto|].
  apply NoDup_cons in Hnd as [Hl Hnd].
  destruct (Hls l ltac:(left)) as (Hd & He & Hx).
  rewrite (remove_Ok c l Hwf) by (try apply elem_of_dom; assumption).
  apply IH; [apply cfg_without_wf, Hwf | exact Hnd|].
  intros k Hk. destruct (Hls k ltac:(right; exact Hk)) as (Hd' & He' & Hx').
  split; [|split; assumption].
  apply elem_of_dom_cfg_without. split; [exact Hd'|]. intros Hs.
  apply elem_of_singleton in Hs. congruence.
Qed.

Lemma foldM_remove_keeps_entry (ls : list nat) c c' :
  foldM remove c ls = Ok c' → ∀ l, l ∈ ls → l ≠ m_entry c.
Proof.
  revert c. induction ls as [|l ls IH]; simpl; intros c H k Hk.
  - apply elem_of_nil in Hk. contradiction.
  - destruct (remove c l) as [c1| |] eqn:E; try discriminate.
    assert (l ≠ m_entry c ∧ m_entry c1 = m_entry c) as [Hl He].
    { unfold remove in E. repeat case_decide; try discriminate.
      bind_inv E as bl Ha. bind_inv E as es Hes. bind_inv E as c2 Hc2. injection E as <-.
      split; [assumption|]. simpl.
      clear Hes. revert c Ha Hc2 H0 H1. clear. intros c _ Hc2 _ _.
      revert c Hc2. induction es as [|e es IHes]; simpl; intros c Hc2.
      - injection Hc2 as <-. reflexivity.
      - destruct (disconnect c e.1 e.2) as [c3| |] eqn:Ed; try discriminate.
        rewrite (IHes _ Hc2).
        apply disconnect_lookup in Ed as (_ & _ & _ & _ & He & _). exact He. }
    apply elem_of_cons in Hk as [->|Hk]; [exact Hl|].
    rewrite <- He. exact (IH _ H _ Hk).
Qed.

(** X4. On a CFG whose blocks are stored under their own labels,
    [operator>>] and [operator-=] between the blocks labelled [a] and [b]
    fail exactly when one of the two labels names no block; otherwise they
    add, respectively delete, the edge [a → b] and change no other edge. *)
Theorem connect_disconnect_edges c a b :
  cfg_keys c →
  (connect c a b = Abort ↔ m_blocks c !! a = None ∨ m_blocks c !! b = None) ∧
  (disconnect c a b = Abort ↔ m_blocks c !! a = None ∨ m_blocks c !! b = None) ∧
  (∀ c', connect c a b = Ok c' →
     ∀ x y, cfg_edge c' x y ↔ cfg_edge c x y ∨ (x = a ∧ y = b)) ∧
  (∀ c', disconnect c a b = Ok c' →
     ∀ x y, cfg_edge c' x y ↔ cfg_edge c x y ∧ ¬ (x = a ∧ y = b)).
Proof.
  intros Hkeys. split; [apply connect_Abort_iff|]. split; [apply disconnect_Abort_iff|].
  split; intros c' H.
  - exact (connect_edges _ _ _ _ Hkeys H).
  - exact (disconnect_edges _ _ _ _ Hkeys H).
Qed.

(** X5. On a well-formed CFG, [operator-=] undoes [operator>>] when the
    edge was absent, and [operator>>] undoes [operator-=] when it was
    present: the CFG is back to what it was, block for block. *)
Theorem connect_disconnect_round_trip c a b :
  cfg_wf c →
  (¬ cfg_edge c a b → ∀ c1, connect c a b = Ok c1 → disconnect c1 a b = Ok c) ∧
  (cfg_edge c a b → ∀ c1, disconnect c a b = Ok c1 → connect c1 a b = Ok c).
Proof.
  intros Hwf. split; intros He c1 H.
  - exact (connect_then_disconnect _ _ _ _ Hwf He H).
  - exact (disconnect_then_connect _ _ _ _ Hwf He H).
Qed.

(** X6. When [simplify] returns on a well-formed CFG, the entry label is
    the same, no label is new, the entry block is still there, the exit
    label names a block, and every surviving block starts with the
    statements it had: merging only appends. *)
Theorem simplify_keeps_blocks c c' :
  cfg_wf c → simplify c = Ok c' →
  m_entry c' = m_entry c ∧
  dom (m_blocks c') ⊆ dom (m_blocks c) ∧
  (m_entry c ∈ dom (m_blocks c) → m_entry c ∈ dom (m_blocks c')) ∧
  (m_exit c ∈ dom (m_blocks c) → m_exit c' ∈ dom (m_blocks c')) ∧
  (∀ k blk', m_blocks c' !! k = Some blk' →
     ∃ blk, m_blocks c !! k = Some blk ∧ m_ts blk `prefix_of` m_ts blk').
Proof.
  intros Hwf H. unfold simplify in H.
  refine (simplify_loop_invariant
            (λ c1, m_entry c1 = m_entry c ∧
                   dom (m_blocks c1) ⊆ dom (m_blocks c) ∧
                   (m_entry c ∈ dom (m_blocks c) → m_entry c ∈ dom (m_blocks c1)) ∧
                   (m_exit c ∈ dom (m_blocks c) → m_exit c1 ∈ dom (m_blocks c1)) ∧
                   (∀ k blk', m_blocks c1 !! k = Some blk' →
                      ∃ blk, m_blocks c !! k = Some blk ∧ m_ts blk `prefix_of` m_ts blk'))
            _ _ _ _ _ Hwf _ H).
  - intros b c0 wl0 c1 wl1 Hwf0 HP Hm. exact (merge_next_keeps c b c0 wl0 c1 wl1 Hwf0 Hm HP).
  - split; [reflexivity|]. split; [reflexivity|]. split; [tauto|]. split; [tauto|].
    intros k blk' Hk. exists blk'. split; [exact Hk | reflexivity].
Qed.

(** X7. When [simplify] returns on a well-formed CFG, the statements of the
    result are the statements of the input, each as often as before:
    merging loses none and duplicates none. *)
Theorem simplify_keeps_statements c c' :
  cfg_wf c → simplify c = Ok c' → all_statements c' ≡ₚ all_statements c.
Proof.
  intros Hwf H. unfold simplify in H.
  refine (simplify_loop_invariant (λ c1, all_statements c1 ≡ₚ all_statements c)
            _ _ _ _ _ Hwf _ H); [|reflexivity].
  intros b c0 wl0 c1 wl1 Hwf0 HP Hm. etrans; [|exact HP].
  exact (all_statements_merge _ _ _ _ _ Hwf0 Hm).
Qed.

(** X8. On a well-formed CFG whose entry block has no incoming edge,
    [simplify] returns a CFG: it raises no [CRAB_ERROR] and its loops end. *)
Theorem simplify_succeeds c :
  cfg_wf c → entry_has_no_pred c → ∃ c', simplify c = Ok c'.
Proof.
  intros Hwf Hentry.
  pose proof (simplify_fuel c) as Hfuel.
  pose proof (simplify_loop_safe (size (dom (m_blocks c))) c (dom (m_blocks c))
                Hwf Hentry ltac:(reflexivity)) as Hsafe.
  unfold simplify in *. destruct (simplify_loop _ c _) as [c'| |]; [eauto | | ]; contradiction.
Qed.

(** X9. On a well-formed CFG, [remove_unreachable_blocks] raises
    [CRAB_ERROR] exactly when the entry names no block or the exit block is
    not reachable from the entry; [remove_useless_blocks] raises it exactly
    when the exit names no block or the entry block cannot reach the exit
    (the pass then tries to remove the entry). *)
Theorem pruning_error_cases c :
  cfg_wf c →
  (remove_unreachable_blocks c = Abort ↔
     m_entry c ∉ dom (m_blocks c) ∨
     (m_exit c ∈ dom (m_blocks c) ∧ ¬ reachable c (m_entry c) (m_exit c))) ∧
  (remove_useless_blocks c = Abort ↔
     m_exit c ∉ dom (m_blocks c) ∨
     (m_entry c ∈ dom (m_blocks c) ∧ ¬ reachable c (m_entry c) (m_exit c))).
Proof.
  intros Hwf. split.
  - unfold remove_unreachable_blocks.
    destruct (decide (m_entry c ∈ dom (m_blocks c))) as [Hin|Hout].
    2:{ split; [tauto|]. intros _. simpl. rewrite decide_False by set_solver.
        unfold next_nodes, get_node. apply not_elem_of_dom in Hout. rewrite Hout. reflexivity. }
    pose proof (mark_alive_not_abort (next_nodes c) (dom (m_blocks c))
                  (λ l, next_nodes_closed c l Hwf) (S (size (m_blocks c))) (m_entry c) ∅ Hin)
      as Hna.
    assert (Hnf : mark_alive_blocks (S (size (m_blocks c))) (next_nodes c) (m_entry c) ∅
                  ≠ OutOfFuel).
    { apply (mark_alive_fuel _ (dom (m_blocks c))).
      - apply next_nodes_dom.
      - apply next_nodes_fuel.
      - rewrite <- (size_dom (D := gset nat)).
        assert (size (dom (m_blocks c) ∖ ∅) ≤ size (dom (m_blocks c)))
          by (apply subseteq_size; set_solver).
        lia. }
    destruct (mark_alive_blocks _ (next_nodes c) (m_entry c) ∅) as [alive| |] eqn:Ea;
      [|contradiction..].
    cbn [mbind result_mbind result_bind].
    assert (Hreach : ∀ x, x ∈ alive ↔ reachable c (m_entry c) x).
    { intros x. rewrite (mark_alive_reachable _ _ _ _ Ea). unfold reachable.
      split; intros Hr; (eapply rtc_subrel; [|exact Hr]); intros a b; apply next_view_edge. }
    assert (Hdead : ∀ x, x ∈ filter (λ l, l ∉ alive) (labels c)
                         ↔ x ∈ dom (m_blocks c) ∧ ¬ reachable c (m_entry c) x).
    { intros x. rewrite <- Hreach, <- elem_of_unmarked, elem_of_list_to_set. reflexivity. }
    case_decide as Hx.
    + split; [|reflexivity]. intros _. right. apply Hdead, Hx.
    + split; [|intros [?|?]; [contradiction | exfalso; apply Hx, Hdead; assumption]].
      intros Habs. exfalso.
      destruct (foldM_remove_Ok (filter (λ l, l ∉ alive) (labels c)) c Hwf) as [c' Hc'].
      * apply NoDup_filter, NoDup_sorted_labels.
      * intros l Hl. pose proof Hl as Hl'. apply Hdead in Hl' as [Hd Hnr].
        split; [exact Hd|]. split; [|congruence].
        intros ->. apply Hnr. reflexivity.
      * congruence.
  - unfold remove_useless_blocks.
    destruct (decide (m_exit c ∈ dom (m_blocks c))) as [Hin|Hout].
    2:{ split; [tauto|]. intros _. simpl. rewrite decide_False by set_solver.
        unfold prev_nodes, get_node. apply not_elem_of_dom in Hout. rewrite Hout. reflexivity. }
    pose proof (mark_alive_not_abort (prev_nodes c) (dom (m_blocks c))
                  (λ l, prev_nodes_closed c l Hwf) (S (size (m_blocks c))) (m_exit c) ∅ Hin)
      as Hna.
    assert (Hnf : mark_alive_blocks (S (size (m_blocks c))) (prev_nodes c) (m_exit c) ∅
                  ≠ OutOfFuel).
    { apply (mark_alive_fuel _ (dom (m_blocks c))).
      - apply prev_nodes_dom.
      - apply prev_nodes_fuel.
      - rewrite <- (size_dom (D := gset nat)).
        assert (size (dom (m_blocks c) ∖ ∅) ≤ size (dom (m_blocks c)))
          by (apply subseteq_size; set_solver).
        lia. }
    destruct (mark_alive_blocks _ (prev_nodes c) (m_exit c) ∅) as [useful| |] eqn:Ea;
      [|contradiction..].
    cbn [mbind result_mbind result_bind].
    assert (Hreach : ∀ x, x ∈ useful ↔ reachable c x (m_exit c)).
    { intros x. rewrite (mark_alive_reachable _ _ _ _ Ea). apply rtc_prev_view, Hwf. }
    assert (Hdead : ∀ x, x ∈ filter (λ l, l ∉ useful) (labels c)
                         ↔ x ∈ dom (m_blocks c) ∧ ¬ reachable c x (m_exit c)).
    { intros x. rewrite <- Hreach, <- elem_of_unmarked, elem_of_list_to_set. reflexivity. }
    rewrite decide_True by (apply Hreach; reflexivity).
    pose proof (foldM_remove_fuel (filter (λ l, l ∉ useful) (labels c)) c) as Hfuel.
    split.
    + intros Habs. right.
      destruct (decide (m_entry c ∈ filter (λ l, l ∉ useful) (labels c)))
        as [Hyes|Hno']; [apply Hdead, Hyes|]. exfalso.
      assert (Hno : ¬ (m_entry c ∈ dom (m_blocks c) ∧ ¬ reachable c (m_entry c) (m_exit c)))
        by (rewrite <- Hdead; exact Hno').
      destruct (foldM_remove_Ok (filter (λ l, l ∉ useful) (labels c)) c Hwf) as [c' Hc'].
      * apply NoDup_filter, NoDup_sorted_labels.
      * intros l Hl. pose proof Hl as Hl'. apply Hdead in Hl' as [Hd Hnr].
        split; [exact Hd|]. split; [intros ->; tauto|].
        intros ->. apply Hnr. reflexivity.
      * congruence.
    + intros [Hout|Hyes]; [contradiction|].
      destruct (foldM remove c _) as [c'| |] eqn:Ef; [|reflexivity|contradiction].
      exfalso. refine (foldM_remove_keeps_entry _ _ _ Ef (m_entry c) _ eq_refl).
      apply Hdead, Hyes.
Qed.

(** X10. When the pruning passes return on a well-formed CFG, they have
    removed exactly the blocks that are unreachable from the entry,
    respectively cannot reach the exit; the surviving blocks keep their
    statements, and an edge survives exactly when both its ends do. *)
Theorem pruning_keeps_exactly c c1 :
  cfg_wf c →
  (remove_unreachable_blocks c = Ok c1 →
     (∀ l, l ∈ dom (m_blocks c1) ↔ l ∈ dom (m_blocks c) ∧ reachable c (m_entry c) l) ∧
     (∀ l blk1, m_blocks c1 !! l = Some blk1 →
        ∃ blk, m_blocks c !! l = Some blk ∧ m_ts blk1 = m_ts blk) ∧
     (∀ x y, cfg_edge c1 x y ↔
        cfg_edge c x y ∧ reachable c (m_entry c) x ∧ reachable c (m_entry c) y)) ∧
  (remove_useless_blocks c = Ok c1 →
     (∀ l, l ∈ dom (m_blocks c1) ↔ l ∈ dom (m_blocks c) ∧ reachable c l (m_exit c)) ∧
     (∀ l blk1, m_blocks c1 !! l = Some blk1 →
        ∃ blk, m_blocks c !! l = Some blk ∧ m_ts blk1 = m_ts blk) ∧
     (∀ x y, cfg_edge c1 x y ↔
        cfg_edge c x y ∧ reachable c x (m_exit c) ∧ reachable c y (m_exit c))).
Proof.
  intros Hwf.
  assert (Hgen : ∀ (gone alive : gset nat) (P : nat → Prop),
            (∀ x, x ∈ alive ↔ P x) →
            (∀ x, x ∈ gone ↔ x ∈ dom (m_blocks c) ∧ x ∉ alive) →
            (∀ l, l ∈ dom (m_blocks (cfg_without gone c)) ↔ l ∈ dom (m_blocks c) ∧ P l) ∧
            (∀ l blk1, m_blocks (cfg_without gone c) !! l = Some blk1 →
               ∃ blk, m_blocks c !! l = Some blk ∧ m_ts blk1 = m_ts blk) ∧
            (∀ x y, cfg_edge (cfg_without gone c) x y ↔ cfg_edge c x y ∧ P x ∧ P y)).
  { intros gone alive P Halive Hgone.
    assert (Hng : ∀ x, x ∈ dom (m_blocks c) → (x ∉ gone ↔ P x)).
    { intros x Hx. rewrite Hgone, <- Halive. destruct (decide (x ∈ alive)); tauto. }
    split; [|split].
    - intros l. rewrite elem_of_dom_cfg_without. split; intros [Hd Hl]; (split; [exact Hd|]);
        apply (Hng l Hd); exact Hl.
    - intros l blk1 Hl. rewrite lookup_cfg_without in Hl. case_decide; [discriminate|].
      destruct (m_blocks c !! l) as [blk|]; [|discriminate]. injection Hl as <-. eauto.
    - intros x y. destruct Hwf as (_ & _ & Hclosed). split.
      + intros (bx & Hbx & Hy). rewrite lookup_cfg_without in Hbx.
        case_decide as Hxg; [discriminate|].
        destruct (m_blocks c !! x) as [blk|] eqn:Ex; [|discriminate]. injection Hbx as <-.
        simpl in Hy. apply elem_of_difference in Hy as [Hy Hyg].
        split; [exists blk; eauto|]. split.
        * apply (Hng x); [apply elem_of_dom; eauto | exact Hxg].
        * apply (Hng y); [|exact Hyg]. apply elem_of_dom. apply (Hclosed x blk y Ex). set_solver.
      + intros ((blk & Ex & Hy) & Px & Py). apply cfg_without_edge; [exists blk; eauto| |].
        * apply (Hng x); [apply elem_of_dom; eauto | exact Px].
        * apply (Hng y); [|exact Py]. apply elem_of_dom. apply (Hclosed x blk y Ex). set_solver. }
  split; intros H.
  - apply remove_unreachable_blocks_eq in H as (alive & dead & -> & Ha & Hd); [|exact Hwf].
    exact (Hgen dead alive _ Ha Hd).
  - apply remove_useless_blocks_eq in H as (useful & useless & -> & Ha & Hd); [|exact Hwf].
    exact (Hgen useless useful _ Ha Hd).
Qed.

(** *** The depth-first traversal and the reversed view *)

Lemma dfs_added_trans c acc r1 r2 : dfs_added c acc r1 → dfs_added c r1 r2 → dfs_added c acc r2.
Proof.
  intros (Hs1 & new1 & E1 & Hnd1 & Hin1) (Hs2 & new2 & E2 & Hnd2 & Hin2).
  split; [set_solver|]. exists (new1 ++ new2).
  split; [rewrite E2, E1, app_assoc; reflexivity|]. split.
  - rewrite fmap_app. apply NoDup_app. split; [exact Hnd1|]. split; [|exact Hnd2].
    intros l Hl1 Hl2. apply list_elem_of_fmap in Hl1 as (b1 & -> & Hb1).
    apply list_elem_of_fmap in Hl2 as (b2 & Heq & Hb2).
    apply Hin1 in Hb1 as (_ & Hr1 & _). apply Hin2 in Hb2 as (_ & _ & Hn). congruence.
  - intros blk. rewrite elem_of_app, Hin1, Hin2. split.
    + intros [(Hl & Hr & Hn)|(Hl & Hr & Hn)]; (split; [exact Hl|]); split; set_solver.
    + intros (Hl & Hr & Hn). destruct (decide (m_label blk ∈ r1.1)); [left|right]; tauto.
Qed.

Lemma dfs_rec_mark c fuel :
  cfg_keys c →
  ∀ cur acc,
    match dfs_rec fuel c cur acc with
    | Ok r => mark_alive_blocks fuel (next_nodes c) cur acc.1 = Ok r.1 ∧ dfs_added c acc r
    | Abort => mark_alive_blocks fuel (next_nodes c) cur acc.1 = Abort
    | OutOfFuel => mark_alive_blocks fuel (next_nodes c) cur acc.1 = OutOfFuel
    end.
Proof.
  intros Hkeys. induction fuel as [|fuel IH]; simpl; intros cur acc; [reflexivity|].
  case_decide as Hvis.
  { split; [reflexivity|]. split; [reflexivity|]. exists []. rewrite app_nil_r.
    split; [reflexivity|]. split; [constructor|]. intros blk. split.
    - intros Hb. apply elem_of_nil in Hb. contradiction.
    - tauto. }
  unfold next_nodes, get_node. destruct (m_blocks c !! cur) as [b|] eqn:Eb; [|reflexivity].
  cbn [mbind result_mbind result_bind].
  assert (Hfold : ∀ cs acc0,
            match foldM (λ acc n, dfs_rec fuel c n acc) acc0 cs with
            | Ok r => foldM (λ vis child, mark_alive_blocks fuel
                                            (λ l, b ← match m_blocks c !! l with
                                                       | Some b => Ok b | None => Abort end;
                                                   Ok (sorted_labels_of (m_next b))) child vis)
                            acc0.1 cs = Ok r.1 ∧ dfs_added c acc0 r
            | Abort => foldM (λ vis child, mark_alive_blocks fuel
                                            (λ l, b ← match m_blocks c !! l with
                                                       | Some b => Ok b | None => Abort end;
                                                   Ok (sorted_labels_of (m_next b))) child vis)
                            acc0.1 cs = Abort
            | OutOfFuel => foldM (λ vis child, mark_alive_blocks fuel
                                            (λ l, b ← match m_blocks c !! l with
                                                       | Some b => Ok b | None => Abort end;
                                                   Ok (sorted_labels_of (m_next b))) child vis)
                            acc0.1 cs = OutOfFuel
            end).
  { induction cs as [|x cs IHcs]; simpl; intros acc0.
    - split; [reflexivity|]. split; [reflexivity|]. exists []. rewrite app_nil_r.
      split; [reflexivity|]. split; [constructor|]. intros blk. split.
      + intros Hb. apply elem_of_nil in Hb. contradiction.
      + tauto.
    - pose proof (IH x acc0) as Hx. unfold next_nodes, get_node in Hx.
      destruct (dfs_rec fuel c x acc0) as [r1| |]; [|rewrite Hx; reflexivity..].
      destruct Hx as [-> Hadd1]. pose proof (IHcs r1) as Hcs.
      destruct (foldM _ r1 cs) as [r2| |]; [|exact Hcs..].
      destruct Hcs as [-> Hadd2]. split; [reflexivity|].
      exact (dfs_added_trans _ _ _ _ Hadd1 Hadd2). }
  pose proof (Hfold (sorted_labels_of (m_next b)) (acc.1 ∪ {[cur]}, acc.2 ++ [b])) as Hf.
  simpl in Hf.
  destruct (foldM _ (acc.1 ∪ {[cur]}, acc.2 ++ [b]) _) as [r| |]; [|exact Hf..].
  destruct Hf as [-> (Hsub & new & E & Hnd & Hin)]. split; [reflexivity|]. simpl in *.
  split; [set_solver|]. exists (b :: new).
  split; [rewrite E, <- app_assoc; reflexivity|]. split.
  - rewrite fmap_cons. apply NoDup_cons. split; [|exact Hnd].
    intros Hl. apply list_elem_of_fmap in Hl as (b' & Heq & Hb').
    apply Hin in Hb' as (_ & _ & Hn). rewrite (Hkeys _ _ Eb) in Heq. set_solver.
  - intros blk. rewrite elem_of_cons, Hin. split.
    + intros [->|(Hl & Hr & Hn)].
      * rewrite (Hkeys _ _ Eb). split; [exact Eb|]. split; [set_solver | exact Hvis].
      * split; [exact Hl|]. split; [exact Hr | set_solver].
    + intros (Hl & Hr & Hn). destruct (decide (m_label blk = cur)) as [Heq|Hne].
      * left. rewrite Heq in Hl. congruence.
      * right. split; [exact Hl|]. split; [exact Hr | set_solver].
Qed.

(** X11. On a well-formed CFG whose entry names a block, [dfs] calls its
    callback once on every block reachable from the entry and on no other,
    the entry block first. *)
Theorem dfs_visits_reachable_once c :
  cfg_wf c → m_entry c ∈ dom (m_blocks c) →
  ∃ bs, dfs c = Ok bs ∧
    NoDup (m_label <$> bs) ∧
    (∀ blk, blk ∈ bs ↔
       m_blocks c !! m_label blk = Some blk ∧ reachable c (m_entry c) (m_label blk)) ∧
    head bs = m_blocks c !! m_entry c.
Proof.
  intros Hwf Hin. pose proof Hwf as (Hkeys & _ & _).
  pose proof (mark_alive_not_abort (next_nodes c) (dom (m_blocks c))
                (λ l, next_nodes_closed c l Hwf) (S (size (m_blocks c))) (m_entry c) ∅ Hin)
    as Hna.
  assert (Hnf : mark_alive_blocks (S (size (m_blocks c))) (next_nodes c) (m_entry c) ∅
                ≠ OutOfFuel).
  { apply (mark_alive_fuel _ (dom (m_blocks c))).
    - apply next_nodes_dom.
    - apply next_nodes_fuel.
    - rewrite <- (size_dom (D := gset nat)).
      assert (size (dom (m_blocks c) ∖ ∅) ≤ size (dom (m_blocks c)))
        by (apply subseteq_size; set_solver).
      lia. }
  pose proof (dfs_rec_mark c (S (size (m_blocks c))) Hkeys (m_entry c) (∅, [])) as Hd.
  unfold dfs.
  destruct (dfs_rec _ c (m_entry c) (∅, [])) as [r| |] eqn:Er;
    [|exfalso; exact (Hna Hd) | exfalso; exact (Hnf Hd)].
  destruct Hd as [Hm (_ & new & E & Hnd & Hmem)]. cbn [fst snd app] in E, Hm, Hmem.
  cbn [mbind result_mbind result_bind]. exists r.2. split; [reflexivity|].
  rewrite E in *. split; [exact Hnd|].
  assert (Hreach : ∀ x, x ∈ r.1 ↔ reachable c (m_entry c) x).
  { intros x. rewrite (mark_alive_reachable _ _ _ _ Hm). unfold reachable.
    split; intros Hr; (eapply rtc_subrel; [|exact Hr]); intros a b; apply next_view_edge. }
  split.
  - intros blk. rewrite Hmem, Hreach. set_solver.
  - (* the first call is on the entry block *)
    cbn [dfs_rec] in Er. rewrite decide_False in Er by set_solver.
    apply elem_of_dom in Hin as [be Ebe].
    rewrite (proj2 (get_node_Ok c _ be) Ebe) in Er. cbn [mbind result_mbind result_bind] in Er.
    rewrite Ebe.
    assert (Hpre : ∀ cs acc0 r0,
              foldM (λ acc n, dfs_rec (size (m_blocks c)) c n acc) acc0 cs = Ok r0 →
              ∃ more, r0.2 = acc0.2 ++ more).
    { induction cs as [|x cs IHcs]; simpl; intros acc0 r0 H0.
      - injection H0 as <-. exists []. rewrite app_nil_r. reflexivity.
      - pose proof (dfs_rec_mark c (size (m_blocks c)) Hkeys x acc0) as Hx.
        destruct (dfs_rec _ c x acc0) as [r1| |]; try discriminate.
        destruct Hx as [_ (_ & n1 & E1 & _)].
        destruct (IHcs _ _ H0) as [n2 E2]. exists (n1 ++ n2).
        rewrite E2, E1, app_assoc. reflexivity. }
    destruct (Hpre _ _ _ Er) as [more Emore]. simpl in Emore. rewrite E in Emore.
    rewrite Emore. reflexivity.
Qed.

(** X12. [cfg_rev_t] over a well-formed CFG swaps entry and exit, knows
    exactly the labels of the CFG, shows each block with its statements in
    reverse order, and has an edge [x → y] exactly when the CFG has
    [y → x]; a path of the view is a path of the CFG walked backwards. *)
Theorem cfg_rev_is_reversed c :
  cfg_wf c →
  rev_entry (cfg_rev_new c) = m_exit c ∧
  rev_exit (cfg_rev_new c) = m_entry c ∧
  (∀ l, rev_get_node (cfg_rev_new c) l = Abort ↔ get_node c l = Abort) ∧
  (∀ l r, rev_get_node (cfg_rev_new c) l = Ok r →
     get_node c l = Ok (_bb r) ∧ rev_label r = l ∧
     reverse (rev_statements r) = m_ts (_bb r)) ∧
  (∀ x y, view_edge (rev_next_nodes (cfg_rev_new c)) x y ↔ cfg_edge c y x) ∧
  (∀ x y, view_edge (rev_next_nodes (cfg_rev_new c)) x y ↔
          view_edge (rev_prev_nodes (cfg_rev_new c)) y x) ∧
  (∀ a b, rtc (view_edge (rev_next_nodes (cfg_rev_new c))) a b ↔ reachable c b a).
Proof.
  intros Hwf. pose proof Hwf as (Hkeys & _ & _).
  split; [reflexivity|]. split; [reflexivity|]. split; [|split; [|split; [|split]]].
  - intros l. unfold rev_get_node, get_node, cfg_rev_new. simpl. rewrite lookup_fmap.
    destruct (m_blocks c !! l); simpl; split; intros; congruence.
  - intros l r H. unfold rev_get_node, get_node, cfg_rev_new in *. simpl in H.
    rewrite lookup_fmap in H. destruct (m_blocks c !! l) as [blk|] eqn:E; [|discriminate].
    simpl in H. injection H as <-. simpl. split; [reflexivity|].
    split; [exact (Hkeys _ _ E)|]. unfold rev_statements. simpl. apply reverse_involutive.
  - intros x y. apply (prev_view_edge c x y Hwf).
  - intros x y. unfold rev_next_nodes, rev_prev_nodes. simpl.
    rewrite (prev_view_edge c x y Hwf), next_view_edge. reflexivity.
  - intros a b. apply (rtc_prev_view c a b Hwf).
Qed.

End cfg_extra.

(** *** The statements above at work on the seed CFGs *)

Lemma seed_chain_wf : cfg_wf seed_chain.
Proof. apply cfg_produced_wf, chain3_produced. Qed.

Lemma seed_isolated_wf : cfg_wf seed_isolated.
Proof. apply cfg_produced_wf, with_isolated_produced. Qed.

Lemma seed_pair_wf : cfg_wf seed_pair.
Proof. apply cfg_new_wf. Qed.

Lemma remove_error_cases_witness :
  remove seed_chain 0 = Abort ↔
  0 = m_entry seed_chain ∨ 0 = m_exit seed_chain ∨
  m_blocks seed_chain !! 0 = None.
Proof. exact (remove_error_cases seed_chain 0 seed_chain_wf). Defined.

Lemma remove_deletes_block_and_edges_witness :
  dom (m_blocks (cfg_without {[ 2 ]} seed_isolated))
  = dom (m_blocks seed_isolated) ∖ {[ 2 ]}.
Proof.
  assert (H : remove seed_isolated 2
              = Ok (cfg_without {[ 2 ]} seed_isolated)).
  { apply remove_Ok; [exact seed_isolated_wf | | discriminate..].
    vm_compute. eauto. }
  exact (proj1 (proj2 (proj2 (proj2 (proj2
           (remove_deletes_block_and_edges seed_isolated 2 _ seed_isolated_wf H)))))).
Defined.

Lemma connect_disconnect_edges_witness :
  connect seed_pair 0 1 = Abort ↔
  m_blocks seed_pair !! 0 = None ∨
  m_blocks seed_pair !! 1 = None.
Proof.
  exact (proj1 (connect_disconnect_edges seed_pair 0 1 (proj1 seed_pair_wf))).
Defined.

Lemma connect_disconnect_round_trip_witness :
  disconnect (connect_or_keep seed_pair 0 1) 0 1 = Ok seed_pair.
Proof.
  assert (Hno : ¬ cfg_edge seed_pair 0 1).
  { intros (ba & E & Hin). vm_compute in E. injection E as <-. simpl in Hin.
    apply elem_of_empty in Hin. exact Hin. }
  assert (H : connect seed_pair 0 1
              = Ok (connect_or_keep seed_pair 0 1)) by (vm_compute; reflexivity).
  exact (proj1 (connect_disconnect_round_trip seed_pair 0 1 seed_pair_wf) Hno _ H).
Defined.

Lemma simplify_keeps_blocks_witness :
  m_entry (Cfg 0 0 {[ 0 := BasicBlock 0 (([1] ++ [2]) ++ [3]) ∅ ∅ ]})
  = m_entry seed_chain.
Proof.
  exact (proj1 (simplify_keeps_blocks seed_chain _ seed_chain_wf
                  (chain3_simplify [1] [2] [3] : simplify seed_chain = Ok _))).
Defined.

Lemma simplify_keeps_statements_witness :
  all_statements (Cfg 0 0 {[ 0 := BasicBlock 0 (([1] ++ [2]) ++ [3]) ∅ ∅ ]})
  ≡ₚ all_statements seed_chain.
Proof.
  exact (simplify_keeps_statements seed_chain _ seed_chain_wf
           (chain3_simplify [1] [2] [3] : simplify seed_chain = Ok _)).
Defined.

Lemma simplify_succeeds_witness : ∃ c', simplify seed_chain = Ok c'.
Proof.
  assert (Hentry : entry_has_no_pred seed_chain).
  { intros be E. vm_compute in E. injection E as <-. reflexivity. }
  exact (simplify_succeeds seed_chain seed_chain_wf Hentry).
Defined.

Lemma pruning_error_cases_witness :
  remove_unreachable_blocks seed_isolated = Abort ↔
  m_entry seed_isolated ∉ dom (m_blocks seed_isolated) ∨
  (m_exit seed_isolated ∈ dom (m_blocks seed_isolated) ∧
   ¬ reachable seed_isolated (m_entry seed_isolated) (m_exit seed_isolated)).
Proof. exact (proj1 (pruning_error_cases seed_isolated seed_isolated_wf)). Defined.

Lemma pruning_keeps_exactly_witness :
  2 ∈ dom (m_blocks (Cfg 0 3 {[ 0 := BasicBlock (Instruction := nat) 0 [] ∅ {[ 1 ]};
                               1 := BasicBlock 1 [] {[ 0 ]} {[ 3 ]};
                               3 := BasicBlock 3 [] {[ 1 ]} ∅ ]})) ↔
  2 ∈ dom (m_blocks seed_isolated) ∧ reachable seed_isolated (m_entry seed_isolated) 2.
Proof.
  assert (H : remove_unreachable_blocks seed_isolated
              = Ok (Cfg 0 3 {[ 0 := BasicBlock 0 [] ∅ {[ 1 ]};
                               1 := BasicBlock 1 [] {[ 0 ]} {[ 3 ]};
                               3 := BasicBlock 3 [] {[ 1 ]} ∅ ]}))
    by (vm_compute; reflexivity).
  exact (proj1 (proj1 (pruning_keeps_exactly seed_isolated _ seed_isolated_wf) H) 2).
Defined.

Lemma dfs_visits_reachable_once_witness :
  ∃ bs, dfs seed_chain = Ok bs ∧
    NoDup (m_label <$> bs) ∧
    (∀ blk, blk ∈ bs ↔
       m_blocks seed_chain !! m_label blk = Some blk ∧
       reachable seed_chain (m_entry seed_chain) (m_label blk)) ∧
    head bs = m_blocks seed_chain !! m_entry seed_chain.
Proof.
  assert (Hin : m_entry seed_chain ∈ dom (m_blocks seed_chain)).
  { apply elem_of_dom. vm_compute. eauto. }
  exact (dfs_visits_reachable_once seed_chain seed_chain_wf Hin).
Defined.

Example dfs_chain3 :
  dfs seed_chain
  = Ok [BasicBlock 0 [1] ∅ {[ 1 ]}; BasicBlock 1 [2] {[ 0 ]} {[ 2 ]}; BasicBlock 2 [3] {[ 1 ]} ∅].
Proof. vm_compute. reflexivity. Qed.

Lemma cfg_rev_is_reversed_witness :
  rev_entry (cfg_rev_new seed_chain) = m_exit seed_chain.
Proof. exact (proj1 (cfg_rev_is_reversed seed_chain seed_chain_wf)). Defined.

(** [simplify] does raise an error when a chain leads into the entry
    block: with [1 → 0], [entry = 0] and [exit = 2], block [1] is merged
    with the entry, which [remove] refuses to delete. *)
Example simplify_aborts_into_entry :
  simplify (connect_or_keep (insert_block (cfg_new (Instruction := nat) 0 2) 1) 1 0) = Abort.
Proof. vm_compute. reflexivity. Qed.

(** ** The SplitDBM domain, further *)

Section dbm_extra.
Context `{SplitDBM.Collaborators}.
Import SplitDBM.

Lemma get_vert_mapped (s : t) (x : nat) :
  vert_map (get_vert s x).2 !! x = Some (get_vert s x).1 ∧
  is_bottom (get_vert s x).2 = is_bottom s.
Proof.
  unfold get_vert. destruct (vert_map s !! x) as [n|] eqn:E; [split; [exact E | reflexivity]|].
  destruct (graph.new_vertex (g s)) as [vert g']. case_decide; simpl;
    (split; [apply lookup_insert_eq | reflexivity]).
Qed.

(** X13. [get_vert] allocates at most once: a mapped variable comes back
    with its vertex and the state untouched; in every case the variable is
    mapped to the returned vertex afterwards, a second call changes
    nothing, the other variables keep their vertices, and no edge is
    added or removed. *)
Theorem get_vert_allocates_once (s : t) (x : nat) :
  (∀ n, vert_map s !! x = Some n → get_vert s x = (n, s)) ∧
  vert_map (get_vert s x).2 !! x = Some (get_vert s x).1 ∧
  get_vert (get_vert s x).2 x = get_vert s x ∧
  (∀ y, y ≠ x → vert_map (get_vert s x).2 !! y = vert_map s !! y) ∧
  g_edges (g (get_vert s x).2) = g_edges (g s) ∧
  is_bottom (get_vert s x).2 = is_bottom s.
Proof.
  assert (Hmapped : vert_map (get_vert s x).2 !! x = Some (get_vert s x).1).
  { unfold get_vert. destruct (vert_map s !! x) as [n|] eqn:E; [exact E|].
    destruct (graph.new_vertex (g s)) as [vert g']. case_decide; simpl;
      apply lookup_insert_eq. }
  split; [|split; [exact Hmapped|split; [|split; [|split]]]].
  - intros n E. unfold get_vert. rewrite E. reflexivity.
  - unfold get_vert at 1. rewrite Hmapped. symmetry. apply surjective_pairing.
  - intros y Hy. unfold get_vert. destruct (vert_map s !! x); [reflexivity|].
    destruct (graph.new_vertex (g s)) as [vert g']. case_decide; simpl;
      apply lookup_insert_ne; congruence.
  - unfold get_vert. destruct (vert_map s !! x); [reflexivity|].
    unfold graph.new_vertex. destruct (g_free (g s)); case_decide; reflexivity.
  - unfold get_vert. destruct (vert_map s !! x); [reflexivity|].
    destruct (graph.new_vertex (g s)) as [vert g']. case_decide; reflexivity.
Qed.

Lemma forget_vert_map (s : t) (x : nat) :
  is_bottom s = false →
  vert_map (forget s x) = delete x (vert_map s) ∧ is_bottom (forget s x) = false.
Proof.
  intros Hs. unfold forget. rewrite Hs.
  destruct (vert_map (normalize s) !! x) as [n|] eqn:E; simpl.
  - rewrite normalize_vert_map, normalize_is_bottom. split; [reflexivity | exact Hs].
  - rewrite normalize_vert_map in *. rewrite normalize_is_bottom.
    split; [|exact Hs]. symmetry. apply delete_id. exact E.
Qed.

(** X14. On a state that is not bottom, [operator-=] normalizes, unmaps the
    variable and deletes every edge of its vertex, and nothing else: the
    other variables keep their vertices, the other edges their weights; the
    interval of the variable is top afterwards. On an unmapped variable the
    call only normalizes. *)
Theorem forget_unmaps_variable (s : t) (x : nat) :
  is_bottom s = false →
  vert_map (forget s x) = delete x (vert_map s) ∧
  get_interval (forget s x) x = interval.top ∧
  is_bottom (forget s x) = false ∧
  (vert_map s !! x = None → forget s x = normalize s) ∧
  (∀ n, vert_map s !! x = Some n →
     rev_map (forget s x) = <[n := None]> (rev_map (normalize s)) ∧
     ∀ i j w, graph.lookup (g (forget s x)) i j = Some w ↔
              graph.lookup (g (normalize s)) i j = Some w ∧ i ≠ n ∧ j ≠ n).
Proof.
  intros Hs. destruct (forget_vert_map s x Hs) as [Hvm Hb].
  split; [exact Hvm|]. split; [|split; [exact Hb|split]].
  - unfold get_interval. rewrite Hvm, lookup_delete_eq. reflexivity.
  - intros E. unfold forget. rewrite Hs, normalize_vert_map, E. reflexivity.
  - intros n E. unfold forget. rewrite Hs, normalize_vert_map, E. simpl.
    split; [reflexivity|]. intros i j w. unfold graph.lookup, graph.forget. simpl.
    rewrite map_lookup_filter_Some. simpl. reflexivity.
Qed.

(** X15. [forget] of a vector of variables leaves a bottom or top state as
    it is (a top state keeps the variables it has mapped); otherwise none
    of the variables is mapped afterwards, the other variables keep their
    vertices, and the state is still not bottom. *)
Theorem forget_all_unmaps (s : t) (variables : list nat) :
  (is_bottom s || is_top s = true → forget_all s variables = s) ∧
  (is_bottom s || is_top s = false →
     (∀ v, v ∈ variables → vert_map (forget_all s variables) !! v = None) ∧
     (∀ v, v ∉ variables → vert_map (forget_all s variables) !! v = vert_map s !! v) ∧
     is_bottom (forget_all s variables) = false).
Proof.
  unfold forget_all. split; [intros ->; reflexivity|]. intros Hs. rewrite Hs.
  apply orb_false_iff in Hs as [Hb _].
  revert s Hb. induction variables as [|x vs IH]; simpl; intros s Hb.
  - split; [|split; [reflexivity | exact Hb]]. intros v Hv. apply elem_of_nil in Hv. contradiction.
  - set (s1 := match vert_map s !! x with Some _ => forget s x | None => s end).
    assert (H1 : vert_map s1 = delete x (vert_map s) ∧ is_bottom s1 = false).
    { unfold s1. destruct (vert_map s !! x) eqn:E; [apply forget_vert_map, Hb|].
      split; [symmetry; apply delete_id, E | exact Hb]. }
    destruct H1 as [Hvm Hb1]. destruct (IH s1 Hb1) as (Hin & Hout & Hbot).
    split; [|split; [|exact Hbot]].
    + intros v Hv. destruct (decide (v ∈ vs)) as [Hvs|Hvs]; [exact (Hin v Hvs)|].
      rewrite (Hout v Hvs), Hvm. apply elem_of_cons in Hv as [->|Hv]; [|contradiction].
      apply lookup_delete_eq.
    + intros v Hv. apply not_elem_of_cons in Hv as [Hne Hvs].
      rewrite (Hout v Hvs), Hvm. apply lookup_delete_ne. congruence.
Qed.

Lemma set_finite_interval (s : t) (x : nat) (l u : Z) :
  is_bottom s = false → fits l → fits u →
  set s x (Interval (Number l) (Number u))
  = (let s2 := (get_vert (forget s x) x).2 in
     let v := (get_vert (forget s x) x).1 in
     let s3 := with_g (with_potential s2 (<[v := Wt_add (pot (potential s2) 0) u]> (potential s2)))
                      (graph.set_edge (g s2) 0 u v) in
     with_g (with_potential s3 (<[v := Wt_add (pot (potential s3) 0) l]> (potential s3)))
            (graph.set_edge (g s3) v (Wt_neg l) 0)).
Proof.
  intros Hs Hl Hu. unfold set. rewrite Hs. cbn [interval.is_bottom interval.is_top interval.ub].
  destruct (get_vert (forget s x) x) as [v s2]. unfold fits in Hl, Hu. rewrite Hu.
  unfold set_lb. cbn [interval.lb]. rewrite Hl. reflexivity.
Qed.

Lemma set_get_interval (s : t) (x : nat) (l u : Z) :
  is_bottom s = false → fits l → fits u → in_Wt (- l) →
  (get_vert (forget s x) x).1 ≠ 0 →
  get_interval (set s x (Interval (Number l) (Number u))) x = Interval (Number l) (Number u).
Proof.
  intros Hs Hl Hu Hneg Hv. rewrite (set_finite_interval s x l u Hs Hl Hu).
  unfold Wt_neg. rewrite (Wt_of_exact _ Hneg).
  destruct (get_vert_mapped (forget s x) x) as [Hm _].
  destruct (get_vert (forget s x) x) as [v s2]. simpl in *.
  unfold get_interval. simpl. rewrite Hm. unfold graph.lookup, graph.set_edge. simpl.
  rewrite lookup_insert_eq. rewrite lookup_insert_ne by congruence. rewrite lookup_insert_eq.
  rewrite Z.opp_involutive. reflexivity.
Qed.

(** X16. Setting a variable to a finite interval and reading it back: on a
    state that is not bottom, when the interval is not empty, both bounds
    convert to [Wt] exactly, the opposite of the lower bound converts too
    (the source negates it inside [Wt]), and the vertex handed to the
    variable is not vertex [0] (the source asserts it), [operator[]] after
    [set] returns the interval that was set; the state is still not bottom
    and the variable is mapped. *)
Theorem set_then_get_interval (s : t) (x : nat) (l u : Z) :
  is_bottom s = false → (l ≤ u)%Z → fits l → fits u → in_Wt (- l) →
  (get_vert (forget s x) x).1 ≠ 0 →
  get_interval (set s x (Interval (Number l) (Number u))) x = Interval (Number l) (Number u) ∧
  vert_map (set s x (Interval (Number l) (Number u))) !! x = Some (get_vert (forget s x) x).1 ∧
  is_bottom (set s x (Interval (Number l) (Number u))) = false.
Proof.
  intros Hs _ Hl Hu Hneg Hv. split; [exact (set_get_interval s x l u Hs Hl Hu Hneg Hv)|].
  rewrite (set_finite_interval s x l u Hs Hl Hu).
  destruct (get_vert_mapped (forget s x) x) as [Hm Hb].
  destruct (forget_vert_map s x Hs) as [_ Hf].
  destruct (get_vert (forget s x) x) as [v s2]. simpl in *.
  split; [exact Hm|]. unfold is_bottom in *. simpl. congruence.
Qed.

(** X17. What [set] does with bounds that do not convert to [Wt]: when the
    upper bound overflows, no bound at all is installed, whatever the lower
    bound is; when only the lower bound overflows, the upper bound stays
    installed. An interval that is bottom makes the state bottom, an
    interval that is top only forgets the variable. *)
Theorem set_edge_cases (s : t) (x : nat) :
  is_bottom s = false →
  set s x IntervalBottom = bottom ∧
  set s x interval.top = forget s x ∧
  (∀ lb u, (convert_NtoW u).2 = true →
     set s x (Interval lb (Number u)) = (get_vert (forget s x) x).2) ∧
  (∀ l u wu, convert_NtoW u = (wu, false) → (convert_NtoW l).2 = true →
     set s x (Interval (Number l) (Number u))
     = (let s2 := (get_vert (forget s x) x).2 in
        let v := (get_vert (forget s x) x).1 in
        with_g (with_potential s2 (<[v := Wt_add (pot (potential s2) 0) wu]> (potential s2)))
               (graph.set_edge (g s2) 0 wu v))).
Proof.
  intros Hs. unfold set. rewrite Hs. split; [reflexivity|]. split; [reflexivity|]. split.
  - intros lb u Hu. cbn [interval.is_bottom interval.ub].
    assert (interval.is_top (Interval lb (Number u)) = false) as -> by (destruct lb; reflexivity).
    destruct (get_vert (forget s x) x) as [v s2].
    destruct (convert_NtoW u) as [wu o]. simpl in Hu. subst o. reflexivity.
  - intros l u wu Hu Hl. cbn [interval.is_bottom interval.is_top interval.ub].
    destruct (get_vert (forget s x) x) as [v s2]. rewrite Hu.
    unfold set_lb. cbn [interval.lb].
    destruct (convert_NtoW l) as [wl o]. simpl in Hl. subst o. reflexivity.
Qed.

(** X18. [assign] of an expression that evaluates to one number [n]: when
    [n] or [-n] does not convert to [Wt], the variable is forgotten;
    otherwise the assignment is [set] to the interval [[n, n]], and reading
    the variable back gives [[n, n]]. More generally the variable is
    forgotten as soon as a finite bound of the right-hand side overflows. *)
Theorem assign_constant (s : t) (x : nat) (e : linear_expression_t) :
  is_bottom s = false →
  (∀ a ub, eval_interval (normalize s) e = Interval (Number a) ub →
     (convert_NtoW (- a)).2 = true → assign s x e = forget (normalize s) x) ∧
  (∀ lb b, eval_interval (normalize s) e = Interval lb (Number b) →
     (convert_NtoW b).2 = true → assign s x e = forget (normalize s) x) ∧
  (∀ n, eval_interval (normalize s) e = Interval (Number n) (Number n) →
     fits n → (convert_NtoW (- n)).2 = false →
     assign s x e = set (normalize s) x (Interval (Number n) (Number n)) ∧
     ((get_vert (forget (normalize s) x) x).1 ≠ 0 →
      get_interval (assign s x e) x = Interval (Number n) (Number n))).
Proof.
  intros Hs. split; [|split].
  - intros a ub He Ha. unfold assign. rewrite Hs, He. cbn [interval.lb].
    destruct (convert_NtoW (- a)) as [w o]. simpl in Ha. subst o. reflexivity.
  - intros lb b He Hb. unfold assign. rewrite Hs, He. cbn [interval.lb interval.ub].
    destruct (convert_NtoW b) as [w o]. simpl in Hb. subst o.
    destruct lb as [|a|]; try reflexivity.
    destruct (convert_NtoW (- a)) as [w' [|]]; reflexivity.
  - intros n He Hn Hneg.
    assert (Ha : assign s x e = set (normalize s) x (Interval (Number n) (Number n))).
    { unfold assign. rewrite Hs, He. cbn [interval.lb interval.ub].
      unfold fits in Hn. rewrite Hn.
      destruct (convert_NtoW (- n)) as [w o]. simpl in Hneg. subst o.
      unfold interval.singleton. rewrite decide_True by reflexivity. reflexivity. }
    split; [exact Ha|]. intros Hv. rewrite Ha.
    apply set_get_interval;
      [rewrite normalize_is_bottom; exact Hs | exact Hn | exact Hn | exact Hneg | exact Hv].
Qed.

Lemma foldl_invariant {A B : Type} (P : B → Prop) (f : B → A → B) (l : list A) (b : B) :
  P b → (∀ b0 x, x ∈ l → P b0 → P (f b0 x)) → P (foldl f b l).
Proof.
  revert b. induction l as [|x l IH]; simpl; intros b Hb Hstep; [exact Hb|].
  apply IH; [apply Hstep; [left | exact Hb]|].
  intros b0 y Hy. apply Hstep. right. exact Hy.
Qed.

Lemma graph_tightened_refl (g0 : graph_t) : graph_tightened g0 g0.
Proof. intros i j w Hw. exists w. split; [exact Hw | lia]. Qed.

Lemma graph_tightened_trans (g1 g2 g3 : graph_t) :
  graph_tightened g1 g2 → graph_tightened g2 g3 → graph_tightened g1 g3.
Proof.
  intros H12 H23 i j w Hw. destruct (H12 i j w Hw) as (w2 & Hw2 & Hle2).
  destruct (H23 i j w2 Hw2) as (w3 & Hw3 & Hle3). exists w3. split; [exact Hw3 | lia].
Qed.

Lemma tighten_tightened (gr gr' : graph_t) (src dst : nat) (w : Z) :
  tighten gr src w dst (graph.lookup gr src dst) = Some gr' → graph_tightened gr gr'.
Proof.
  unfold tighten. intros Ht i j w1 Hw1.
  destruct (graph.lookup gr src dst) as [w0|] eqn:E.
  - case_decide as Hle; [discriminate|]. injection Ht as <-.
    unfold graph.lookup, graph.set_edge in *. simpl.
    destruct (decide ((src, dst) = (i, j))) as [[= -> ->]|Hne].
    + rewrite lookup_insert_eq. exists w. split; [reflexivity|]. rewrite E in Hw1.
      injection Hw1 as <-. lia.
    + rewrite lookup_insert_ne by exact Hne. exists w1. split; [exact Hw1 | lia].
  - injection Ht as <-. unfold graph.lookup, graph.add_edge, graph.set_edge in *. simpl.
    destruct (decide ((src, dst) = (i, j))) as [[= -> ->]|Hne]; [congruence|].
    rewrite lookup_insert_ne by exact Hne. exists w1. split; [exact Hw1 | lia].
Qed.

Lemma excl_lookup (gr : graph_t) (i j : nat) :
  i ≠ 0 → j ≠ 0 → graph.lookup (graph.excl gr 0) i j = graph.lookup gr i j.
Proof.
  intros Hi Hj. unfold graph.lookup, graph.excl. simpl.
  destruct (g_edges gr !! (i, j)) as [w|] eqn:E.
  - apply map_lookup_filter_Some. split; [exact E|]. simpl. tauto.
  - apply map_lookup_filter_None. left. exact E.
Qed.

Lemma e_preds_excl_nonzero (gr : graph_t) (d : nat) (e : nat * Z) :
  e ∈ graph.e_preds (graph.excl gr 0) d → e.1 ≠ 0.
Proof.
  unfold graph.e_preds. intros He. apply list_elem_of_omap in He as (s0 & _ & Hs).
  unfold graph.lookup, graph.excl in Hs. simpl in Hs.
  destruct (filter _ (g_edges gr) !! (s0, d)) as [w|] eqn:E; [|discriminate].
  injection Hs as <-. apply map_lookup_filter_Some in E as [_ [Hs0 _]]. exact Hs0.
Qed.

Lemma e_succs_excl_nonzero (gr : graph_t) (s0 : nat) (e : nat * Z) :
  e ∈ graph.e_succs (graph.excl gr 0) s0 → e.1 ≠ 0.
Proof.
  unfold graph.e_succs. intros He. apply list_elem_of_omap in He as (d & _ & Hd).
  unfold graph.lookup, graph.excl in Hd. simpl in Hd.
  destruct (filter _ (g_edges gr) !! (s0, d)) as [w|] eqn:E; [|discriminate].
  injection Hd as <-. apply map_lookup_filter_Some in E as [_ [_ Hd0]]. exact Hd0.
Qed.

(** X19. [close_over_edge] on two vertices other than vertex [0] (the
    source asserts it) only adds edges or lowers weights: every edge of the
    graph is still there afterwards with a weight at most as large. The
    variable maps, the potentials and the unstable set are untouched. *)
Theorem close_over_edge_tightens (s : t) (ii jj : nat) :
  ii ≠ 0 → jj ≠ 0 →
  graph_tightened (g s) (g (close_over_edge s ii jj)) ∧
  vert_map (close_over_edge s ii jj) = vert_map s ∧
  rev_map (close_over_edge s ii jj) = rev_map s ∧
  potential (close_over_edge s ii jj) = potential s ∧
  unstable (close_over_edge s ii jj) = unstable s ∧
  is_bottom (close_over_edge s ii jj) = is_bottom s.
Proof.
  intros Hii Hjj. unfold close_over_edge.
  set (c := graph.edge_val (graph.excl (g s) 0) ii jj).
  match goal with |- context [foldl ?f (g s, []) (graph.e_preds ?gx ii)] =>
    pose proof (foldl_invariant (λ p : graph_t * list (nat * Z), graph_tightened (g s) p.1)
                  f (graph.e_preds gx ii) (g s, []) (graph_tightened_refl _)) as H1;
    destruct (foldl f (g s, []) (graph.e_preds gx ii)) as [gr1 src_dec] eqn:E1
  end.
  assert (T1 : graph_tightened (g s) gr1).
  { apply H1. intros [gr0 sd] e He HP. simpl in HP.
    pose proof (e_preds_excl_nonzero _ _ _ He) as Hse.
    case_decide; [exact HP|]. rewrite excl_lookup by assumption.
    destruct (tighten gr0 e.1 (Wt_add e.2 c) jj (graph.lookup gr0 e.1 jj)) as [gr'|] eqn:Et;
      [|exact HP].
    simpl. exact (graph_tightened_trans _ _ _ HP (tighten_tightened _ _ _ _ _ Et)). }
  clear H1.
  match goal with |- context [foldl ?f (gr1, []) (graph.e_succs ?gx jj)] =>
    pose proof (foldl_invariant (λ p : graph_t * list (nat * Z), graph_tightened (g s) p.1)
                  f (graph.e_succs gx jj) (gr1, []) T1) as H2;
    destruct (foldl f (gr1, []) (graph.e_succs gx jj)) as [gr2 dest_dec] eqn:E2
  end.
  assert (T2 : graph_tightened (g s) gr2).
  { apply H2. intros [gr0 dd] e He HP. simpl in HP.
    pose proof (e_succs_excl_nonzero _ _ _ He) as Hde.
    case_decide; [exact HP|]. rewrite excl_lookup by assumption.
    destruct (tighten gr0 ii (Wt_add e.2 c) e.1 (graph.lookup gr0 ii e.1)) as [gr'|] eqn:Et;
      [|exact HP].
    simpl. exact (graph_tightened_trans _ _ _ HP (tighten_tightened _ _ _ _ _ Et)). }
  clear H2.
  split; [|repeat split].
  simpl. apply (foldl_invariant (graph_tightened (g s))); [exact T2|].
  intros gr0 sp _ HP. apply (foldl_invariant (graph_tightened (g s))); [exact HP|].
  intros gr3 dp _ HP3.
  destruct (tighten gr3 sp.1 (Wt_add (Wt_add c sp.2) dp.2) dp.1 (graph.lookup gr3 sp.1 dp.1))
    as [gr'|] eqn:Et;
    [|exact HP3].
  exact (graph_tightened_trans _ _ _ HP3 (tighten_tightened _ _ _ _ _ Et)).
Qed.

Lemma lin_leq_terms_skip (s : t) (ts1 ts2 : list (nat * Z)) (y : nat) (n : Z) :
  (convert_NtoW n).2 = true →
  ∀ a, lin_leq_terms s (ts1 ++ (y, n) :: ts2) a = lin_leq_terms s (ts1 ++ ts2) a.
Proof.
  intros Hn. induction ts1 as [|[y1 n1] ts1 IH]; intros a; simpl.
  - destruct (convert_NtoW n) as [c o]. simpl in Hn. subst o. reflexivity.
  - destruct (convert_NtoW n1) as [c1 [|]]; [apply IH|].
    case_decide.
    + destruct (interval.lb (get_interval s y1)) as [|k|].
      * destruct (unbounded_lb a); [reflexivity | apply IH].
      * destruct (convert_NtoW k) as [c2 [|]]; apply IH.
      * destruct (unbounded_lb a); [reflexivity | apply IH].
    + destruct (interval.ub (get_interval s y1)) as [|k|].
      * destruct (unbounded_ub a); [reflexivity | apply IH].
      * destruct (convert_NtoW k) as [c2 [|]]; apply IH.
      * destruct (unbounded_ub a); [reflexivity | apply IH].
Qed.

(** X20. [diffcsts_of_lin_leq] on values that do not convert to [Wt]: when
    the constant overflows, or the constant minus one underflows, nothing is
    derived, and [add_linear_leq] then adds no bound and no difference
    constraint: it only re-closes the graph and answers [true]. When a
    coefficient overflows, only its term is dropped. *)
Theorem diffcsts_of_lin_leq_overflow (s : t) :
  (∀ exp, (convert_NtoW (constant exp)).2 = true ∨ (convert_NtoW (constant exp - 1)).2 = true →
     diffcsts_of_lin_leq s exp = ([], [], []) ∧
     add_linear_leq s exp
     = (true, with_g s (apply_delta (g s) (close_after_assign (g s) (potential s) 0 [])))) ∧
  (∀ ts1 ts2 y n k, (convert_NtoW n).2 = true →
     diffcsts_of_lin_leq s (LinExp (ts1 ++ (y, n) :: ts2) k)
     = diffcsts_of_lin_leq s (LinExp (ts1 ++ ts2) k)).
Proof.
  split.
  - intros exp Hk.
    assert (Hd : diffcsts_of_lin_leq s exp = ([], [], [])).
    { unfold diffcsts_of_lin_leq. destruct (convert_NtoW (constant exp)) as [k [|]]; [reflexivity|].
      destruct Hk as [Hk|Hk]; [discriminate|]. simpl in Hk. rewrite Hk. reflexivity. }
    split; [exact Hd|]. unfold add_linear_leq. rewrite Hd. reflexivity.
  - intros ts1 ts2 y n k Hn. unfold diffcsts_of_lin_leq. cbn [terms constant].
    destruct (convert_NtoW k) as [k0 [|]]; [reflexivity|].
    destruct (convert_NtoW (k - 1)).2; [reflexivity|].
    rewrite (lin_leq_terms_skip s ts1 ts2 y n Hn). reflexivity.
Qed.

(** *** The variables of the results of the lattice operations *)

Lemma elem_of_vmap_items (m : gmap nat nat) (k n : nat) :
  (k, n) ∈ vmap_items m ↔ m !! k = Some n.
Proof.
  unfold vmap_items. rewrite merge_sort_Permutation. apply elem_of_map_to_list.
Qed.

Lemma NoDup_vmap_items (m : gmap nat nat) : NoDup (vmap_items m).*1.
Proof.
  unfold vmap_items. rewrite merge_sort_Permutation. apply NoDup_fst_map_to_list.
Qed.

Lemma keys_vmap_items (m : gmap nat nat) (k : nat) :
  k ∈ (vmap_items m).*1 ↔ k ∈ dom m.
Proof.
  rewrite list_elem_of_fmap, elem_of_dom. split.
  - intros ([k' n] & -> & Hin). apply elem_of_vmap_items in Hin. eauto.
  - intros [n Hn]. exists (k, n). split; [reflexivity|]. apply elem_of_vmap_items, Hn.
Qed.

Lemma common_vars_spec (s o : t) (c : nat * nat * nat) :
  c ∈ common_vars s o ↔ vert_map s !! c.1.1 = Some c.1.2 ∧ vert_map o !! c.1.1 = Some c.2.
Proof.
  unfold common_vars. rewrite list_elem_of_omap. split.
  - intros ([k n] & Hin & Hc). apply elem_of_vmap_items in Hin. simpl in Hc.
    destruct (vert_map o !! k) as [m|] eqn:E; [|discriminate]. injection Hc as <-.
    simpl. tauto.
  - intros [Hs Ho]. exists (c.1.1, c.1.2). split; [apply elem_of_vmap_items, Hs|].
    simpl. rewrite Ho. simpl. destruct c as [[? ?] ?]. reflexivity.
Qed.

Lemma NoDup_omap_keys {A B : Type} (key : A → nat) (key' : B → nat) (f : A → option B)
    (l : list A) :
  (∀ a b, f a = Some b → key' b = key a) →
  NoDup (key <$> l) → NoDup (key' <$> omap f l).
Proof.
  intros Hf. induction l as [|a l IH]; simpl; intros Hnd; [constructor|].
  apply NoDup_cons in Hnd as [Ha Hnd]. destruct (f a) as [b|] eqn:E; [|exact (IH Hnd)].
  simpl. apply NoDup_cons. split; [|exact (IH Hnd)].
  intros Hin. apply Ha. rewrite (Hf a b E) in Hin.
  apply list_elem_of_fmap in Hin as (b' & Hk & Hb'). apply list_elem_of_omap in Hb' as (a' & Ha' & E').
  apply list_elem_of_fmap. exists a'. split; [|exact Ha']. rewrite Hk. exact (Hf a' b' E').
Qed.

Lemma NoDup_common_vars (s o : t) : NoDup ((λ c : nat * nat * nat, c.1.1) <$> common_vars s o).
Proof.
  unfold common_vars. apply (NoDup_omap_keys fst); [|apply NoDup_vmap_items].
  intros [k n] b Hb. simpl in Hb. destruct (vert_map o !! k); [|discriminate].
  injection Hb as <-. reflexivity.
Qed.

(** The map [out_vmap] built over the common variables, entry by entry. *)
Lemma out_vmap_lookup (common : list (nat * nat * nat)) (x v : nat) :
  NoDup ((λ c : nat * nat * nat, c.1.1) <$> common) →
  (list_to_map (imap (λ i (c : nat * nat * nat), (c.1.1, S i)) common) : gmap nat nat) !! x
    = Some v
  ↔ ∃ i c, v = S i ∧ common !! i = Some c ∧ c.1.1 = x.
Proof.
  intros Hnd.
  assert (Hfst : (imap (λ i (c : nat * nat * nat), (c.1.1, S i)) common).*1
                 = (λ c : nat * nat * nat, c.1.1) <$> common).
  { rewrite fmap_imap, <- imap_const. apply imap_ext. intros i c _. reflexivity. }
  rewrite <- elem_of_list_to_map by (rewrite Hfst; exact Hnd).
  rewrite elem_of_lookup_imap. split.
  - intros (i & c & [= -> ->] & Hc). eauto.
  - intros (i & c & -> & Hc & <-). eauto.
Qed.

Lemma out_vmap_dom (s o : t) :
  dom (list_to_map (imap (λ i (c : nat * nat * nat), (c.1.1, S i)) (common_vars s o))
         : gmap nat nat)
  = dom (vert_map s) ∩ dom (vert_map o).
Proof.
  apply set_eq. intros x. rewrite elem_of_intersection, !elem_of_dom. split.
  - intros [v Hv]. apply out_vmap_lookup in Hv as (i & c & _ & Hc & <-);
      [|apply NoDup_common_vars].
    apply list_elem_of_lookup_2 in Hc. apply common_vars_spec in Hc as [Hs Ho]. eauto.
  - intros [[n Hn] [m Hm]].
    assert (Hc : (x, n, m) ∈ common_vars s o) by (apply common_vars_spec; simpl; tauto).
    apply list_elem_of_lookup_1 in Hc as [i Hi]. exists (S i).
    apply out_vmap_lookup; [apply NoDup_common_vars|]. eauto.
Qed.

Lemma collect_garbage_dom (join_g : graph_t) (out_vmap : gmap nat nat)
    (out_revmap : list (option nat)) :
  dom (collect_garbage join_g out_vmap out_revmap).1.2 ⊆ dom out_vmap.
Proof.
  unfold collect_garbage.
  apply (foldl_invariant
           (λ p : graph_t * gmap nat nat * list (option nat), dom p.1.2 ⊆ dom out_vmap));
    [reflexivity|].
  intros [[jg vm] rm] v _ HP. simpl in HP.
  case_decide; [exact HP|]. case_decide; [|exact HP].
  destruct (mjoin (rm !! v)) as [x|]; simpl; [|exact HP].
  rewrite dom_delete. set_solver.
Qed.

(** X21. Outside its shortcuts, [operator|] normalizes both operands and
    returns a state that is not bottom, has no unstable vertex, and maps
    only variables that both operands map. *)
Theorem join_keeps_common_variables (s o : t) :
  is_bottom s || is_top o = false → is_top s || is_bottom o = false →
  dom (vert_map (join s o)) ⊆ dom (vert_map s) ∩ dom (vert_map o) ∧
  is_bottom (join s o) = false ∧
  unstable (join s o) = ∅.
Proof.
  intros H1 H2. unfold join. rewrite H1, H2. cbv zeta.
  match goal with |- context [collect_garbage ?a ?b ?c] =>
    pose proof (collect_garbage_dom a b c) as Hgc;
    destruct (collect_garbage a b c) as [[jg vm] rm]
  end.
  simpl in *. split; [|split; reflexivity].
  etrans; [exact Hgc|].
  pose proof (out_vmap_dom (normalize s) (normalize o)) as Hd.
  unfold common_vars in Hd. rewrite Hd, !normalize_vert_map. reflexivity.
Qed.

(** X22. The shortcuts of the lattice operations agree with the order
    test: whenever [operator|] returns one of its operands without
    computing, [operator<=] says the other operand is below it; whenever
    [operator&] returns one of its operands, [operator<=] says it is below
    the other; [operator&] with a bottom operand is bottom, and [widen]
    with a bottom operand is the other operand. *)
Theorem lattice_shortcuts (W : graph_t → graph_t → graph_t * list nat)
    (P : graph_t → list Z → option (list Z)) (s o : t) :
  (is_bottom s || is_top o = true → join s o = o ∧ (leq s o).1 = true) ∧
  (is_bottom s || is_top o = false → is_top s || is_bottom o = true →
     join s o = s ∧ (leq o s).1 = true) ∧
  (is_bottom s = true → widen W s o = o) ∧
  (is_bottom s = false → is_bottom o = true → widen W s o = s) ∧
  (is_bottom s || is_bottom o = true → meet P s o = bottom) ∧
  (is_bottom s || is_bottom o = false → is_top s = true →
     meet P s o = o ∧ (leq o s).1 = true) ∧
  (is_bottom s || is_bottom o = false → is_top s = false → is_top o = true →
     meet P s o = s ∧ (leq s o).1 = true).
Proof.
  unfold join, widen, meet, leq, is_top, is_bottom.
  destruct (_is_bottom s), (_is_bottom o), (graph.is_empty (g s)), (graph.is_empty (g o));
    simpl; repeat split; intros; try discriminate; reflexivity.
Qed.

(** X23. Outside its shortcuts, [widen] returns a state that is not
    bottom, maps exactly the variables that both operands map, one vertex
    each among [1 .. n], with [rev_map] the inverse of [vert_map] and one
    potential per vertex; every vertex that was unstable in the left
    operand still is. *)
Theorem widen_result (W : graph_t → graph_t → graph_t * list nat) (s o : t) :
  is_bottom s = false → is_bottom o = false →
  is_bottom (widen W s o) = false ∧
  dom (vert_map (widen W s o)) = dom (vert_map s) ∩ dom (vert_map o) ∧
  maps_agree (widen W s o) ∧
  length (rev_map (widen W s o)) = S (size (vert_map (widen W s o))) ∧
  length (potential (widen W s o)) = length (rev_map (widen W s o)) ∧
  unstable s ⊆ unstable (widen W s o).
Proof.
  intros Hs Ho. unfold widen. rewrite Hs, Ho. cbv zeta.
  destruct (W _ _) as [widen_g destabilized]. simpl.
  pose proof (NoDup_common_vars s (normalize o)) as Hnd.
  pose proof (out_vmap_dom s (normalize o)) as Hdom. rewrite normalize_vert_map in Hdom.
  set (common := common_vars s (normalize o)) in *.
  split; [reflexivity|]. split; [exact Hdom|]. split; [|split; [|split]].
  - split; [|reflexivity]. intros x v. simpl. rewrite (out_vmap_lookup common x v Hnd). split.
    + intros (i & c & -> & Hc & <-). simpl. rewrite list_lookup_fmap, Hc.
      reflexivity.
    + destruct v as [|i]; [discriminate|]. simpl. rewrite list_lookup_fmap.
      destruct (common !! i) as [c|] eqn:Hc; [|discriminate]. simpl. intros [= <-]. eauto.
  - rewrite length_fmap. f_equal. rewrite <- (size_dom (D := gset nat)).
    rewrite <- (length_fmap (λ c : nat * nat * nat, c.1.1)).
    rewrite <- (size_list_to_set (C := gset nat)) by exact Hnd. f_equal.
    apply set_eq. intros x. rewrite elem_of_dom, elem_of_list_to_set, list_elem_of_fmap.
    unfold is_Some. setoid_rewrite (out_vmap_lookup common x _ Hnd). split.
    + intros (c & -> & Hc). apply list_elem_of_lookup_1 in Hc as [i Hi].
      exists (S i), i, c. auto.
    + intros (v & i & c & _ & Hc & <-). exists c. split; [reflexivity|].
      exact (list_elem_of_lookup_2 _ _ _ Hc).
  - rewrite !length_fmap. reflexivity.
  - set_solver.
Qed.

Lemma vmap_insert_dom (k v : nat) (m : gmap nat nat) :
  dom (vmap_insert k v m) = {[ k ]} ∪ dom m.
Proof.
  unfold vmap_insert. destruct (m !! k) as [n|] eqn:E.
  - apply elem_of_dom_2 in E. set_solver.
  - apply dom_insert_L.
Qed.

Lemma meet_left_dom (s : t) : dom (meet_verts (meet_left s)) = dom (vert_map s).
Proof.
  unfold meet_left.
  assert (Hgen : ∀ (l : list (nat * nat)) a,
            dom (meet_verts
                   (foldl (λ a (vn : nat * nat),
                             MeetAcc (vmap_insert vn.1 (length (meet_perm_x a)) (meet_verts a))
                                     (meet_rev a ++ [Some vn.1])
                                     (meet_perm_x a ++ [Some vn.2])
                                     (meet_perm_y a ++ [None])
                                     (meet_pi a ++ [Wt_sub (pot (potential s) vn.2)
                                                           (pot (potential s) 0)])) a l))
            = dom (meet_verts a) ∪ list_to_set l.*1).
  { induction l as [|vn l IH]; intros a; simpl; [set_solver|].
    rewrite IH. simpl. rewrite vmap_insert_dom. set_solver. }
  rewrite Hgen. simpl. apply set_eq. intros x.
  rewrite elem_of_union, elem_of_list_to_set, keys_vmap_items. set_solver.
Qed.

Lemma meet_right_dom (o : t) (a : meet_acc) :
  dom (meet_verts (meet_right o a)) = dom (meet_verts a) ∪ dom (vert_map o).
Proof.
  unfold meet_right.
  assert (Hgen : ∀ (l : list (nat * nat)) a,
            dom (meet_verts
                   (foldl (λ a (vn : nat * nat),
                             match meet_verts a !! vn.1 with
                             | None =>
                                 MeetAcc (vmap_insert vn.1 (length (meet_perm_y a)) (meet_verts a))
                                         (meet_rev a ++ [Some vn.1])
                                         (meet_perm_x a ++ [None])
                                         (meet_perm_y a ++ [Some vn.2])
                                         (meet_pi a ++ [Wt_sub (pot (potential o) vn.2)
                                                               (pot (potential o) 0)])
                             | Some vv =>
                                 MeetAcc (meet_verts a) (meet_rev a) (meet_perm_x a)
                                         (<[vv := Some vn.2]> (meet_perm_y a)) (meet_pi a)
                             end) a l))
            = dom (meet_verts a) ∪ list_to_set l.*1).
  { induction l as [|vn l IH]; intros a0; simpl; [set_solver|].
    rewrite IH. destruct (meet_verts a0 !! vn.1) as [vv|] eqn:E; simpl.
    - apply elem_of_dom_2 in E. set_solver.
    - rewrite vmap_insert_dom. set_solver. }
  rewrite Hgen. apply set_eq. intros x.
  rewrite !elem_of_union, elem_of_list_to_set, keys_vmap_items. reflexivity.
Qed.

(** X24. Outside its shortcuts, [operator&] returns bottom exactly when
    [GrOps::select_potentials] finds no potential for the syntactic meet of
    the two permuted graphs. When it finds one, the result is not bottom,
    carries that potential, has no unstable vertex, maps exactly the
    variables that one of the operands maps, and, if the syntactic meet
    was reported closed, has that meet as its graph. *)
Theorem meet_result (P : graph_t → list Z → option (list Z)) (s o : t) :
  is_bottom s || is_bottom o = false → is_top s = false → is_top o = false →
  (meet P s o = bottom ↔
     P (meet_graph s o).1 (meet_pi (meet_operands s o)) = None) ∧
  (∀ pi, P (meet_graph s o).1 (meet_pi (meet_operands s o)) = Some pi →
     is_bottom (meet P s o) = false ∧
     potential (meet P s o) = pi ∧
     dom (vert_map (meet P s o)) = dom (vert_map s) ∪ dom (vert_map o) ∧
     unstable (meet P s o) = ∅ ∧
     ((meet_graph s o).2 = true → g (meet P s o) = (meet_graph s o).1)).
Proof.
  intros Hb Hs Ho. unfold meet, meet_graph, meet_operands. rewrite Hb, Hs, Ho. cbv zeta.
  destruct (GrOps_meet _ _) as [meet_g is_closed]. cbn [fst snd].
  destruct (P meet_g _) as [pi|]; split.
  - split; [|discriminate]. intros Hbot. apply (f_equal is_bottom) in Hbot. discriminate.
  - intros pi' [= <-]. simpl. split; [reflexivity|]. split; [reflexivity|].
    split; [|split; [reflexivity|]].
    + rewrite meet_right_dom, meet_left_dom, !normalize_vert_map. reflexivity.
    + intros ->. reflexivity.
  - split; reflexivity.
  - intros pi' [=].
Qed.

(** *** Renaming *)

Lemma vmap_insert_lookup (k v : nat) (m : gmap nat nat) (z n : nat) :
  vmap_insert k v m !! z = Some n → m !! z = Some n ∨ (z = k ∧ n = v).
Proof.
  unfold vmap_insert. destruct (m !! k) eqn:E; [tauto|].
  destruct (decide (z = k)) as [->|Hne].
  - rewrite lookup_insert_eq. intros [= <-]. tauto.
  - rewrite lookup_insert_ne by congruence. tauto.
Qed.

Lemma vmap_insert_mono (k v : nat) (m : gmap nat nat) (z n : nat) :
  m !! z = Some n → vmap_insert k v m !! z = Some n.
Proof.
  intros Hz. unfold vmap_insert. destruct (m !! k) eqn:E; [exact Hz|].
  rewrite lookup_insert_ne by congruence. exact Hz.
Qed.

Lemma vmap_insert_new (k v : nat) (m : gmap nat nat) :
  m !! k = None → vmap_insert k v m !! k = Some v.
Proof. intros E. unfold vmap_insert. rewrite E. apply lookup_insert_eq. Qed.

(** One round of the loop, seen from [vert_map] alone. *)
Lemma rename_step_vert_map (from to : list nat) (nvm : gmap nat nat)
    (rm : list (option nat)) (kv : nat * nat) :
  match rename_step from to (Some (nvm, rm)) kv with
  | Some acc' => ∃ z, renamed from to kv.1 = Some z ∧ acc'.1 = vmap_insert z kv.2 nvm ∧
                      length acc'.2 = length rm
  | None => renamed from to kv.1 = None
  end.
Proof.
  unfold rename_step, renamed.
  destruct (list_find (λ v, v = kv.1) from) as [[pos v]|] eqn:Ef.
  - destruct (to !! pos) as [new_v|]; [|reflexivity].
    exists new_v. simpl. rewrite length_insert. auto.
  - exists kv.1. auto.
Qed.

Lemma rename_fold_None (from to : list nat) (l : list (nat * nat)) :
  foldl (rename_step from to) None l = None.
Proof. induction l as [|kv l IH]; [reflexivity | exact IH]. Qed.

Lemma rename_fold_sound (from to : list nat) (l : list (nat * nat)) :
  ∀ acc acc', foldl (rename_step from to) (Some acc) l = Some acc' →
    length acc'.2 = length acc.2 ∧
    (∀ z n, acc.1 !! z = Some n → acc'.1 !! z = Some n) ∧
    (∀ z n, acc'.1 !! z = Some n →
       acc.1 !! z = Some n ∨ ∃ k, (k, n) ∈ l ∧ renamed from to k = Some z).
Proof.
  induction l as [|kv l IH]; cbn [foldl]; intros [nvm rm] acc' Hf.
  - injection Hf as <-. split; [reflexivity|]. split; [tauto|]. intros z n Hz. left. exact Hz.
  - pose proof (rename_step_vert_map from to nvm rm kv) as Hstep.
    destruct (rename_step from to (Some (nvm, rm)) kv) as [acc1|];
      [|rewrite rename_fold_None in Hf; discriminate].
    destruct Hstep as (z0 & Hz0 & Hv & Hlen).
    destruct (IH acc1 acc' Hf) as (Hlen' & Hmono & Hsound). simpl in *.
    split; [congruence|]. split.
    + intros z n Hz. apply Hmono. rewrite Hv. apply vmap_insert_mono, Hz.
    + intros z n Hz. destruct (Hsound z n Hz) as [H1|(k & Hk & Hr)].
      * rewrite Hv in H1. apply vmap_insert_lookup in H1 as [H1|[-> ->]]; [left; exact H1|].
        right. exists kv.1. split; [|exact Hz0]. destruct kv. left.
      * right. exists k. split; [right; exact Hk | exact Hr].
Qed.

Lemma rename_fold_complete (from to : list nat) (l : list (nat * nat)) :
  NoDup l.*1 →
  (∀ k1 k2, k1 ∈ l.*1 → k2 ∈ l.*1 → renamed from to k1 = renamed from to k2 → k1 = k2) →
  ∀ acc acc',
    (∀ k z, k ∈ l.*1 → renamed from to k = Some z → acc.1 !! z = None) →
    foldl (rename_step from to) (Some acc) l = Some acc' →
    ∀ k n z, (k, n) ∈ l → renamed from to k = Some z → acc'.1 !! z = Some n.
Proof.
  induction l as [|[k0 n0] l IH]; cbn [foldl fmap list_fmap fst]; intros Hnd Hinj [nvm rm] acc' Hfresh Hf k n z Hin Hr.
  { apply elem_of_nil in Hin. contradiction. }
  apply NoDup_cons in Hnd as [Hk0 Hnd].
  pose proof (rename_step_vert_map from to nvm rm (k0, n0)) as Hstep.
  destruct (rename_step from to (Some (nvm, rm)) (k0, n0)) as [acc1|];
    [|rewrite rename_fold_None in Hf; discriminate].
  destruct Hstep as (z0 & Hz0 & Hv & _). simpl in *.
  apply elem_of_cons in Hin as [[= -> ->]|Hin].
  - assert (z = z0) as -> by congruence.
    destruct (rename_fold_sound _ _ _ _ _ Hf) as (_ & Hmono & _). apply Hmono.
    rewrite Hv. apply vmap_insert_new. apply (Hfresh k0); [left | exact Hz0].
  - apply (IH Hnd) with (acc := acc1) (k := k); try assumption.
    + intros k1 k2 H1 H2. apply Hinj; right; assumption.
    + intros k' z' Hk' Hr'. rewrite Hv.
      assert (Hne : z' ≠ z0).
      { intros ->. apply Hk0. assert (k' = k0) as <-; [|exact Hk'].
        apply Hinj; [right; exact Hk' | left | congruence]. }
      unfold vmap_insert. destruct (nvm !! z0); [apply (Hfresh k'); [right|]; assumption|].
      rewrite lookup_insert_ne by congruence. apply (Hfresh k'); [right|]; assumption.
Qed.

Lemma renamed_is_Some (from to : list nat) (k : nat) :
  length from ≤ length to → is_Some (renamed from to k).
Proof.
  intros Hlen. unfold renamed.
  destruct (list_find (λ v, v = k) from) as [[pos v]|] eqn:Ef; [|eauto].
  apply list_find_Some in Ef as (Hpos & _). apply lookup_lt_Some in Hpos.
  apply lookup_lt_is_Some. lia.
Qed.

(** X25. [rename] leaves a top or bottom state alone. Otherwise it never
    reads past [to] when [to] is at least as long as [from]; it changes
    neither the graph nor the potentials; every variable of the result is
    the new name of a variable that had the same vertex; and when the
    renaming sends distinct variables of the state to distinct names, every
    variable is found under its new name with the vertex it had. *)
Theorem rename_moves_variables (s : t) (from to : list nat) :
  (is_top s || is_bottom s = true → rename s from to = Some s) ∧
  (is_top s || is_bottom s = false →
     (length from ≤ length to → is_Some (rename s from to)) ∧
     ∀ s', rename s from to = Some s' →
       g s' = g s ∧ potential s' = potential s ∧ unstable s' = unstable s ∧
       is_bottom s' = is_bottom s ∧ length (rev_map s') = length (rev_map s) ∧
       (∀ z n, vert_map s' !! z = Some n →
          ∃ k, vert_map s !! k = Some n ∧ renamed from to k = Some z) ∧
       ((∀ k1 k2, k1 ∈ dom (vert_map s) → k2 ∈ dom (vert_map s) →
           renamed from to k1 = renamed from to k2 → k1 = k2) →
        ∀ k n z, vert_map s !! k = Some n → renamed from to k = Some z →
          vert_map s' !! z = Some n)).
Proof.
  unfold rename. split; [intros ->; reflexivity|]. intros Hs. rewrite Hs. split.
  - intros Hlen.
    assert (Hgen : ∀ (l : list (nat * nat)) acc,
              is_Some (foldl (rename_step from to) (Some acc) l)).
    { induction l as [|kv l IH]; intros [nvm rm]; cbn [foldl]; [eauto|].
      pose proof (rename_step_vert_map from to nvm rm kv) as Hstep.
      destruct (rename_step from to (Some (nvm, rm)) kv) as [acc1|]; [apply IH|].
      destruct (renamed_is_Some from to kv.1 Hlen) as [z Hz]. congruence. }
    destruct (Hgen (vmap_items (vert_map s)) (∅, rev_map s)) as [[nvm rm] ->]. eauto.
  - intros s' Hr.
    destruct (foldl _ _ (vmap_items (vert_map s))) as [[nvm rm]|] eqn:Ef; [|discriminate].
    injection Hr as <-. simpl.
    destruct (rename_fold_sound _ _ _ _ _ Ef) as (Hlen & _ & Hsound). simpl in *.
    repeat (split; [reflexivity|]). split; [exact Hlen|]. split.
    + intros z n Hz. destruct (Hsound z n Hz) as [H0|(k & Hk & Hr)]; [discriminate|].
      exists k. split; [apply elem_of_vmap_items, Hk | exact Hr].
    + intros Hinj k n z Hk Hz.
      refine (rename_fold_complete from to (vmap_items (vert_map s)) (NoDup_vmap_items _)
                _ (∅, rev_map s) (nvm, rm) _ Ef k n z _ Hz).
      * intros k1 k2 H1 H2. apply Hinj; apply keys_vmap_items; assumption.
      * intros. apply lookup_empty.
      * apply elem_of_vmap_items, Hk.
Qed.

(** *** [add_linear_leq] *)

Lemma until_bottom_invariant {A : Type} (P : t → Prop) (f : t → A → option t)
    (l : list A) (s s' : t) :
  until_bottom f s l = Some s' → P s →
  (∀ s0 x s1, x ∈ l → P s0 → f s0 x = Some s1 → P s1) → P s'.
Proof.
  revert s. induction l as [|x l IH]; simpl; intros s Hu HP Hstep.
  - injection Hu as <-. exact HP.
  - destruct (f s x) as [s1|] eqn:E; [|discriminate].
    apply (IH s1 Hu); [exact (Hstep s x s1 ltac:(left) HP E)|].
    intros s0 y s2 Hy. apply Hstep. right. exact Hy.
Qed.

Lemma close_over_edge_with_g (s : t) (ii jj : nat) :
  ∃ gr, close_over_edge s ii jj = with_g s gr.
Proof.
  unfold close_over_edge.
  destruct (foldl _ (g s, []) (graph.e_preds _ ii)) as [gr1 src_dec].
  destruct (foldl _ (gr1, []) (graph.e_succs _ jj)) as [gr2 dest_dec].
  eexists. reflexivity.
Qed.

(** A state that is not bottom and maps every variable of [s0] to the
    vertex it has in [s0]. *)
Lemma get_vert_keeps (s0 s : t) (x : nat) :
  (is_bottom s = false ∧ ∀ y n, vert_map s0 !! y = Some n → vert_map s !! y = Some n) →
  is_bottom (get_vert s x).2 = false ∧
  ∀ y n, vert_map s0 !! y = Some n → vert_map (get_vert s x).2 !! y = Some n.
Proof.
  intros [Hb Hm]. destruct (get_vert_mapped s x) as [_ Hb']. split; [congruence|].
  intros y n Hy. specialize (Hm y n Hy). unfold get_vert.
  destruct (vert_map s !! x) as [v|] eqn:E; [exact Hm|].
  destruct (graph.new_vertex (g s)) as [vert g']. case_decide; simpl;
    (rewrite lookup_insert_ne; [exact Hm | congruence]).
Qed.

(** X26. On a state that is not bottom, [add_linear_leq] answers [false]
    exactly when it leaves the state bottom; when it answers [true] the
    state is not bottom, has no unstable vertex more than before, and every
    variable that was mapped is still mapped to the same vertex: the call
    may add variables, it never drops or moves one. *)
Theorem add_linear_leq_keeps_variables (s : t) (exp : linear_expression_t) :
  is_bottom s = false →
  is_bottom (add_linear_leq s exp).2 = negb (add_linear_leq s exp).1 ∧
  ((add_linear_leq s exp).1 = true →
     unstable (add_linear_leq s exp).2 = unstable s ∧
     ∀ y n, vert_map s !! y = Some n → vert_map (add_linear_leq s exp).2 !! y = Some n).
Proof.
  intros Hs. unfold add_linear_leq.
  destruct (diffcsts_of_lin_leq s exp) as [[csts lbs] ubs].
  set (P := λ s1 : t, (is_bottom s1 = false ∧
                       ∀ y n, vert_map s !! y = Some n → vert_map s1 !! y = Some n) ∧
                      unstable s1 = unstable s).
  assert (HP0 : P s) by (repeat split; auto).
  assert (Hrep : ∀ s1 g' src dst s2,
             P s1 → repaired (with_g s1 g') src dst = Some s2 → P s2).
  { intros s1 g' src dst s2 HP1 Hr. unfold repaired in Hr.
    destruct (repair_potential (g (with_g s1 g')) (potential (with_g s1 g')) src dst)
      as [p|]; [|discriminate].
    injection Hr as <-. exact HP1. }
  assert (Hgv : ∀ s1 x, P s1 → P (get_vert s1 x).2).
  { intros s1 x [HP1 Hu]. split; [apply get_vert_keeps, HP1|].
    unfold get_vert. destruct (vert_map s1 !! x); [exact Hu|].
    destruct (graph.new_vertex (g s1)) as [vert g']. case_decide; exact Hu. }
  match goal with |- context [until_bottom ?f s lbs] =>
    pose proof (λ s', until_bottom_invariant P f lbs s s') as Hl;
    destruct (until_bottom f s lbs) as [s1|] eqn:E1
  end.
  2:{ simpl. split; [reflexivity | discriminate]. }
  assert (HP1 : P s1).
  { apply (Hl s1 eq_refl HP0). intros s0 vn s2 _ HPs Hf.
    pose proof (Hgv s0 vn.1 HPs) as Hg. destruct (get_vert s0 vn.1) as [vert s3]. simpl in Hg.
    destruct (graph.lookup (g s3) vert 0) as [w0|].
    - case_decide; [injection Hf as <-; exact Hg|]. exact (Hrep _ _ _ _ _ Hg Hf).
    - exact (Hrep _ _ _ _ _ Hg Hf). }
  clear Hl. cbn [mbind option_bind].
  match goal with |- context [until_bottom ?f s1 ubs] =>
    pose proof (λ s', until_bottom_invariant P f ubs s1 s') as Hu;
    destruct (until_bottom f s1 ubs) as [s2|] eqn:E2
  end.
  2:{ simpl. split; [reflexivity | discriminate]. }
  assert (HP2 : P s2).
  { apply (Hu s2 eq_refl HP1). intros s0 vn s3 _ HPs Hf.
    pose proof (Hgv s0 vn.1 HPs) as Hg. destruct (get_vert s0 vn.1) as [vert s4]. simpl in Hg.
    destruct (graph.lookup (g s4) 0 vert) as [w0|].
    - case_decide; [injection Hf as <-; exact Hg|]. exact (Hrep _ _ _ _ _ Hg Hf).
    - exact (Hrep _ _ _ _ _ Hg Hf). }
  clear Hu. cbn [mbind option_bind].
  match goal with |- context [until_bottom ?f s2 csts] =>
    pose proof (λ s', until_bottom_invariant P f csts s2 s') as Hc;
    destruct (until_bottom f s2 csts) as [s3|] eqn:E3
  end.
  2:{ simpl. split; [reflexivity | discriminate]. }
  assert (HP3 : P s3).
  { apply (Hc s3 eq_refl HP2). intros s0 dk s4 _ HPs Hf.
    pose proof (Hgv s0 dk.1.2 HPs) as Hg1. destruct (get_vert s0 dk.1.2) as [src s5].
    simpl in Hg1.
    pose proof (Hgv s5 dk.1.1 Hg1) as Hg2. destruct (get_vert s5 dk.1.1) as [dest s6].
    simpl in Hg2.
    destruct (repaired (with_g s6 (graph.update_edge (g s6) src dk.2 dest)) src dest)
      as [s7|] eqn:Er; [|discriminate].
    cbn [mbind option_bind] in Hf. injection Hf as <-.
    destruct (close_over_edge_with_g s7 src dest) as [gr ->].
    exact (Hrep _ _ _ _ _ Hg2 Er). }
  destruct HP3 as [[Hb3 Hm3] Hu3]. simpl.
  split; [exact Hb3|]. intros _. split; [exact Hu3 | exact Hm3].
Qed.

End dbm_extra.

(** *** The statements above at work on the seed states *)

Lemma forget_unmaps_variable_witness :
  SplitDBM.vert_map (SplitDBM.forget state_A var_x) = delete var_x (SplitDBM.vert_map state_A).
Proof. exact (proj1 (forget_unmaps_variable state_A var_x eq_refl)). Defined.

Lemma set_then_get_interval_witness :
  SplitDBM.get_interval (SplitDBM.set state_A var_x (Interval (Number (-5)) (Number 10))) var_x
  = Interval (Number (-5)) (Number 10).
Proof.
  assert (Hle : (-5 ≤ 10)%Z) by lia.
  assert (Hl : SplitDBM.fits (-5)) by (vm_compute; reflexivity).
  assert (Hu : SplitDBM.fits 10) by (vm_compute; reflexivity).
  assert (Hneg : SplitDBM.in_Wt (- -5)) by (vm_compute; reflexivity).
  assert (Hv : (SplitDBM.get_vert (SplitDBM.forget state_A var_x) var_x).1 ≠ 0)
    by (vm_compute; discriminate).
  exact (proj1 (set_then_get_interval state_A var_x (-5) 10 eq_refl Hle Hl Hu Hneg Hv)).
Defined.

(** The lower bound [-2⁶³] converts, its opposite does not: with a weight
    type that wraps around, the edge of the lower bound gets the weight
    [-2⁶³] and the variable reads back with the lower bound [2⁶³]. *)
Example set_lower_bound_min :
  SplitDBM.fits (- 2 ^ 63) ∧ (SplitDBM.convert_NtoW (2 ^ 63)).2 = true ∧
  SplitDBM.get_interval
    (SplitDBM.set SplitDBM.top var_x (Interval (Number (- 2 ^ 63)) (Number 10))) var_x
  = Interval (Number (2 ^ 63)) (Number 10).
Proof. repeat split; vm_compute; reflexivity. Qed.

Lemma set_edge_cases_witness :
  SplitDBM.set state_A var_x IntervalBottom = SplitDBM.bottom.
Proof. exact (proj1 (set_edge_cases state_A var_x eq_refl)). Defined.

(** An upper bound beyond the 64-bit range: [x] ends without any bound,
    although the lower bound [0] converts. *)
Example set_overflowing_upper_bound :
  SplitDBM.get_interval
    (SplitDBM.set state_A var_x (Interval (Number 0) (Number (2 ^ 64)))) var_x
  = interval.top.
Proof. vm_compute. reflexivity. Qed.

Lemma assign_constant_witness :
  SplitDBM.get_interval (SplitDBM.assign state_A var_z (LinExp [] 5)) var_z
  = Interval (Number 5) (Number 5).
Proof.
  assert (He : SplitDBM.eval_interval (SplitDBM.normalize state_A) (LinExp [] 5)
               = Interval (Number 5) (Number 5)) by (vm_compute; reflexivity).
  assert (H5 : SplitDBM.fits 5) by (vm_compute; reflexivity).
  assert (Hneg : (SplitDBM.convert_NtoW (- 5)).2 = false) by (vm_compute; reflexivity).
  assert (Hv : (SplitDBM.get_vert (SplitDBM.forget (SplitDBM.normalize state_A) var_z) var_z).1
               ≠ 0) by (vm_compute; discriminate).
  exact (proj2 (proj2 (proj2 (assign_constant state_A var_z (LinExp [] 5) eq_refl)) 5%Z
                  He H5 Hneg) Hv).
Defined.

Lemma close_over_edge_tightens_witness :
  SplitDBM.graph_tightened (SplitDBM.g state_B) (SplitDBM.g (SplitDBM.close_over_edge state_B 1 2)).
Proof.
  exact (proj1 (close_over_edge_tightens state_B 1 2 (Nat.neq_succ_0 0) (Nat.neq_succ_0 1))).
Defined.

Lemma join_keeps_common_variables_witness :
  dom (SplitDBM.vert_map (SplitDBM.join state_x10 state_x20_y))
  ⊆ dom (SplitDBM.vert_map state_x10) ∩ dom (SplitDBM.vert_map state_x20_y).
Proof.
  assert (H1 : SplitDBM.is_bottom state_x10 || SplitDBM.is_top state_x20_y = false)
    by (vm_compute; reflexivity).
  assert (H2 : SplitDBM.is_top state_x10 || SplitDBM.is_bottom state_x20_y = false)
    by (vm_compute; reflexivity).
  exact (proj1 (join_keeps_common_variables state_x10 state_x20_y H1 H2)).
Defined.

Lemma widen_result_witness :
  dom (SplitDBM.vert_map (SplitDBM.widen (λ gx _, (gx, [])) state_x10 state_x20_y))
  = dom (SplitDBM.vert_map state_x10) ∩ dom (SplitDBM.vert_map state_x20_y).
Proof.
  exact (proj1 (proj2 (widen_result (λ gx _, (gx, [])) state_x10 state_x20_y eq_refl eq_refl))).
Defined.

(** With a [select_potentials] that accepts the potentials it is given,
    the meet of [x ∈ [0, 10]] and [x ∈ [0, 20]] (beside [y]) is not bottom;
    with one that finds none, it is bottom. *)
Lemma meet_result_witness :
  SplitDBM.is_bottom (SplitDBM.meet (λ _ pi, Some pi) state_x10 state_x20_y) = false ∧
  SplitDBM.meet (λ _ _, None) state_x10 state_x20_y = SplitDBM.bottom.
Proof.
  assert (H1 : SplitDBM.is_top state_x10 = false) by (vm_compute; reflexivity).
  assert (H2 : SplitDBM.is_top state_x20_y = false) by (vm_compute; reflexivity).
  split.
  - exact (proj1 (proj2 (meet_result (λ _ pi, Some pi) state_x10 state_x20_y eq_refl H1 H2)
                    (SplitDBM.meet_pi (SplitDBM.meet_operands state_x10 state_x20_y))
                    eq_refl)).
  - exact (proj2 (proj1 (meet_result (λ _ _, None) state_x10 state_x20_y eq_refl H1 H2))
             eq_refl).
Defined.

Lemma add_linear_leq_keeps_variables_witness :
  SplitDBM.is_bottom (SplitDBM.add_linear_leq state_A (LinExp [(var_z, 1%Z)] (-5))).2
  = negb (SplitDBM.add_linear_leq state_A (LinExp [(var_z, 1%Z)] (-5))).1.
Proof.
  exact (proj1 (add_linear_leq_keeps_variables state_A (LinExp [(var_z, 1%Z)] (-5)) eq_refl)).
Defined.

(** Adding [z ≤ 5] to state A succeeds and maps the new variable [z];
    adding [x ≤ -1] contradicts [x ≥ 0] and gives bottom. *)
Example add_linear_leq_on_state_A :
  (SplitDBM.add_linear_leq state_A (LinExp [(var_z, 1%Z)] (-5))).1 = true ∧
  is_Some (SplitDBM.vert_map (SplitDBM.add_linear_leq state_A (LinExp [(var_z, 1%Z)] (-5))).2
             !! var_z) ∧
  SplitDBM.vert_map state_A !! var_z = None ∧
  SplitDBM.add_linear_leq state_A (LinExp [(var_x, 1%Z)] 1)
  = (false, SplitDBM.set_to_bottom
              (SplitDBM.add_linear_leq state_A (LinExp [(var_x, 1%Z)] 1)).2).
Proof. vm_compute. repeat split. eexists. reflexivity. Qed.

(** Renaming [x] to [z] in state B: [z] takes the vertex of [x], [y] keeps
    its own, and the bounds follow. *)
Example rename_state_B :
  ∃ s', SplitDBM.rename state_B [var_x] [var_z] = Some s' ∧
        SplitDBM.vert_map s' = {[ var_z := 1; var_y := 2 ]} ∧
        SplitDBM.get_interval s' var_z = Interval (Number 20) (Number 30) ∧
        SplitDBM.get_interval s' var_x = interval.top.
Proof. eexists. split; [vm_compute; reflexivity|]. repeat split; vm_compute; reflexivity. Qed.

(** Two variables renamed to one name: the first in the order of the
    variables wins and the other disappears. *)
Example rename_collision :
  ∃ s', SplitDBM.rename state_B [var_x; var_y] [var_z; var_z] = Some s' ∧
        SplitDBM.vert_map s' = {[ var_z := 1 ]}.
Proof. eexists. split; vm_compute; reflexivity. Qed.

(** [to] shorter than [from]: the source reads past the end of [to]. *)
Example rename_short_to :
  SplitDBM.rename state_B [var_x] [] = None.
Proof. vm_compute. reflexivity. Qed.

(** ** The fixpoint iterator, further *)

Section iterator_extra.
Context {D Instruction : Type} `{fwd_analyzer.AbstractDomain D Instruction}.
Import fwd_analyzer.

Lemma visit_unfold (cfg : cfg_t Instruction) (w : list wto_component_t)
    (fuel : nat) (c : wto_component_t) (st : iterator_t D) :
  visit cfg w (S fuel) c st
  = match c with
    | wto_vertex node => visit_vertex cfg node st
    | wto_cycle head components =>
        let entry_in_this_cycle :=
          if _skip st then wto.is_member (m_entry cfg) c else false in
        let st := if _skip st then Iterator (_pre st) (_post st) (negb entry_in_this_cycle)
                  else st in
        if _skip st then Ok st
        else
          pre ← (if entry_in_this_cycle then get_pre (m_entry cfg) st
                 else cycle_initial_pre cfg w head st);
          r ← increasing cfg w fuel head components 1 pre st;
          decreasing cfg w fuel head components 1 r.2 r.1
    end.
Proof. reflexivity. Qed.

Lemma decreasing_unfold (cfg : cfg_t Instruction) (w : list wto_component_t)
    (fuel head : nat) (components : list wto_component_t) (k : nat) (pre : D)
    (st : iterator_t D) :
  decreasing cfg w (S fuel) head components k pre st
  = (st ← transform_to_post cfg head pre st;
     st ← foldM (λ st0 x, visit cfg w fuel x st0) st components;
     new_pre ← join_all_prevs cfg head st;
     if leq pre new_pre then Ok st
     else decreasing cfg w fuel head components (S k) (refine head k pre new_pre)
            (set_pre head (refine head k pre new_pre) st)).
Proof. reflexivity. Qed.


(** X28. While the iterator is still looking for the entry, a vertex other
    than the entry and a cycle that does not contain the entry are skipped:
    the call returns at once and the tables and the flag are as before. At
    the entry vertex the search ends; the entry is analysed from the
    pre-state stored for it, not from its predecessors, and that pre-state
    is kept. Once the flag is down no vertex raises it again. *)
Theorem skip_until_entry (cfg : cfg_t Instruction) (w : list wto_component_t)
    (st : iterator_t D) :
  (_skip st = true →
     (∀ node, node ≠ m_entry cfg → visit_vertex cfg node st = Ok st) ∧
     (∀ fuel head components,
        wto.is_member (m_entry cfg) (wto_cycle head components) = false →
        visit cfg w (S fuel) (wto_cycle head components) st = Ok st) ∧
     (∀ st', visit_vertex cfg (m_entry cfg) st = Ok st' →
        _skip st' = false ∧
        _pre st' = _pre st ∧
        ∃ pre b, _pre st !! m_entry cfg = Some pre ∧
                 m_blocks cfg !! m_entry cfg = Some b ∧
                 _post st' = <[m_entry cfg := foldl (λ d i, transformer i d) pre (m_ts b)]>
                               (_post st))) ∧
  (_skip st = false → ∀ node st', visit_vertex cfg node st = Ok st' → _skip st' = false).
Proof.
  split.
  - intros Hskip. split; [|split].
    + intros node Hne. unfold visit_vertex. rewrite Hskip.
      rewrite bool_decide_eq_false_2 by exact Hne. simpl. rewrite Hskip. reflexivity.
    + intros fuel head components Hmem. rewrite visit_unfold. cbv zeta.
      rewrite Hskip, Hmem. simpl. destruct st as [p q sk]. simpl in Hskip. subst sk.
      reflexivity.
    + intros st' Hv. unfold visit_vertex in Hv. rewrite Hskip in Hv.
      rewrite bool_decide_eq_true_2 in Hv by reflexivity. simpl in Hv.
      rewrite decide_True in Hv by reflexivity.
      bind_inv Hv as pre Hpre. unfold get_pre in Hpre. simpl in Hpre.
      destruct (_pre st !! m_entry cfg) as [d|] eqn:Ed; [|discriminate]. injection Hpre as <-.
      unfold transform_to_post in Hv. bind_inv Hv as b Hb. injection Hv as <-.
      apply get_node_Ok in Hb. simpl.
      split; [reflexivity|]. split; [apply insert_id, Ed|]. eauto.
  - intros Hskip node st' Hv. unfold visit_vertex in Hv. rewrite Hskip in Hv. simpl in Hv.
    rewrite Hskip in Hv. bind_inv Hv as pre Hpre.
    unfold transform_to_post in Hv. bind_inv Hv as b Hb. injection Hv as <-. exact Hskip.
Qed.

(** *** The tables keep the labels of the CFG as keys *)

Lemma is_member_labels (node : nat) :
  ∀ c, wto.is_member node c = true → node ∈ wto_labels c.
Proof.
  fix IH 1. intros [n|h cs]; simpl.
  - intros Hb. apply bool_decide_eq_true in Hb. subst. left.
  - intros Hb. apply orb_true_iff in Hb as [Hb|Hb].
    + apply bool_decide_eq_true in Hb. subst. left.
    + right. induction cs as [|c cs IHcs]; simpl in *; [discriminate|].
      apply orb_true_iff in Hb as [Hb|Hb]; apply elem_of_app;
        [left; apply IH, Hb | right; apply IHcs, Hb].
Qed.

Section tables.
Variable cfg : cfg_t Instruction.
Variable w : list wto_component_t.
Hypothesis Hwf : cfg_wf cfg.

Abbreviation L := (dom (m_blocks cfg)).

Lemma set_pre_cover label v (st : iterator_t D) :
  label ∈ L → tables_cover L st → tables_cover L (set_pre label v st).
Proof.
  intros Hl [Hp Hq]. split; [|exact Hq]. simpl. rewrite dom_insert_L, Hp. set_solver.
Qed.

Lemma transform_to_post_cover label pre (st : iterator_t D) :
  label ∈ L → tables_cover L st →
  ∃ st', transform_to_post cfg label pre st = Ok st' ∧ tables_cover L st' ∧
         _skip st' = _skip st.
Proof.
  intros Hl [Hp Hq]. pose proof Hl as Hl'. apply elem_of_dom in Hl' as [b Hb].
  unfold transform_to_post. rewrite (proj2 (get_node_Ok cfg label b) Hb).
  eexists. split; [reflexivity|]. split; [|reflexivity].
  split; [exact Hp|]. simpl. rewrite dom_insert_L, Hq. set_solver.
Qed.

Lemma foldM_joins_Ok (f : D → nat → result D) (prevs : list nat) :
  (∀ d x, x ∈ prevs → ∃ d', f d x = Ok d') → ∀ d0, ∃ d, foldM f d0 prevs = Ok d.
Proof.
  induction prevs as [|x xs IH]; simpl; intros Hf d0; [eauto|].
  destruct (Hf d0 x ltac:(left)) as [d1 ->]. apply IH.
  intros d y Hy. apply Hf. right. exact Hy.
Qed.

Lemma prev_nodes_cover node :
  node ∈ L → ∃ prevs, prev_nodes cfg node = Ok prevs ∧ ∀ x, x ∈ prevs → x ∈ L.
Proof.
  destruct Hwf as (_ & _ & Hclosed). intros Hl. apply elem_of_dom in Hl as [b Hb].
  unfold prev_nodes. rewrite (proj2 (get_node_Ok cfg node b) Hb). eexists.
  split; [reflexivity|]. intros x Hx. apply elem_of_sorted_labels in Hx.
  apply elem_of_dom. apply (Hclosed node b x Hb). set_solver.
Qed.

Lemma get_post_cover prev (st : iterator_t D) :
  prev ∈ L → tables_cover L st → ∃ d, get_post prev st = Ok d.
Proof.
  intros Hl [_ Hq]. rewrite <- Hq in Hl. apply elem_of_dom in Hl as [d Hd].
  unfold get_post. rewrite Hd. eauto.
Qed.

Lemma get_pre_cover node (st : iterator_t D) :
  node ∈ L → tables_cover L st → ∃ d, get_pre node st = Ok d.
Proof.
  intros Hl [Hp _]. rewrite <- Hp in Hl. apply elem_of_dom in Hl as [d Hd].
  unfold get_pre. rewrite Hd. eauto.
Qed.

Lemma join_all_prevs_cover node (st : iterator_t D) :
  node ∈ L → tables_cover L st → ∃ d, join_all_prevs cfg node st = Ok d.
Proof.
  intros Hl Hst. destruct (prev_nodes_cover node Hl) as (prevs & Hp & Hin).
  unfold join_all_prevs. rewrite Hp. cbn [mbind result_mbind result_bind].
  apply foldM_joins_Ok. intros d x Hx.
  destruct (get_post_cover x st (Hin x Hx) Hst) as [p ->]. eauto.
Qed.

Lemma cycle_initial_pre_cover head (st : iterator_t D) :
  head ∈ L → tables_cover L st → ∃ d, cycle_initial_pre cfg w head st = Ok d.
Proof.
  intros Hl Hst. destruct (prev_nodes_cover head Hl) as (prevs & Hp & Hin).
  unfold cycle_initial_pre. rewrite Hp. cbn [mbind result_mbind result_bind].
  apply foldM_joins_Ok. intros d x Hx. case_match; [eauto|].
  destruct (get_post_cover x st (Hin x Hx) Hst) as [p ->]. eauto.
Qed.

Lemma visit_vertex_cover node (st : iterator_t D) :
  node ∈ L → tables_cover L st →
  ∃ st', visit_vertex cfg node st = Ok st' ∧ tables_cover L st'.
Proof.
  intros Hl Hst. unfold visit_vertex.
  set (st0 := if _skip st && bool_decide (node = m_entry cfg)
              then Iterator (_pre st) (_post st) false else st).
  assert (Hst0 : tables_cover L st0) by (unfold st0; case_match; exact Hst).
  destruct (_skip st0); [eauto|].
  assert (Hpre : ∃ pre, (if decide (node = m_entry cfg) then get_pre node st0
                         else join_all_prevs cfg node st0) = Ok pre).
  { case_decide; [apply get_pre_cover | apply join_all_prevs_cover]; assumption. }
  destruct Hpre as [pre ->]. cbn [mbind result_mbind result_bind].
  destruct (transform_to_post_cover node pre (set_pre node pre st0) Hl
              (set_pre_cover node pre st0 Hl Hst0)) as (st' & E & Hc & _).
  eauto.
Qed.

(** The three loops together, by induction on the fuel: on labels of the
    CFG and covering tables no call aborts, and the tables stay covering. *)
Lemma visit_cover (fuel : nat) :
  (∀ c st, (∀ l, l ∈ wto_labels c → l ∈ L) → tables_cover L st →
     visit cfg w fuel c st ≠ Abort ∧
     ∀ st', visit cfg w fuel c st = Ok st' → tables_cover L st') ∧
  (∀ head components k pre st,
     head ∈ L → (∀ c l, c ∈ components → l ∈ wto_labels c → l ∈ L) → tables_cover L st →
     increasing cfg w fuel head components k pre st ≠ Abort ∧
     ∀ r, increasing cfg w fuel head components k pre st = Ok r → tables_cover L r.1) ∧
  (∀ head components k pre st,
     head ∈ L → (∀ c l, c ∈ components → l ∈ wto_labels c → l ∈ L) → tables_cover L st →
     decreasing cfg w fuel head components k pre st ≠ Abort ∧
     ∀ st', decreasing cfg w fuel head components k pre st = Ok st' → tables_cover L st').
Proof.
  induction fuel as [|fuel (IHv & IHi & IHd)].
  { repeat split; simpl; intros; discriminate. }
  assert (Hbody : ∀ components st,
            (∀ c l, c ∈ components → l ∈ wto_labels c → l ∈ L) → tables_cover L st →
            foldM (λ st0 x, visit cfg w fuel x st0) st components ≠ Abort ∧
            ∀ st', foldM (λ st0 x, visit cfg w fuel x st0) st components = Ok st' →
                   tables_cover L st').
  { induction components as [|c cs IHcs]; simpl; intros st Hin Hst.
    - split; [discriminate|]. intros st' [= <-]. exact Hst.
    - destruct (IHv c st (λ l, Hin c l ltac:(left)) Hst) as [Hna Hok].
      destruct (visit cfg w fuel c st) as [st1| |]; [|contradiction|split; discriminate].
      apply IHcs; [|exact (Hok st1 eq_refl)].
      intros c' l Hc'. apply Hin. right. exact Hc'. }
  split; [|split].
  - intros c st Hin Hst. rewrite visit_unfold. destruct c as [node|head components].
    + destruct (visit_vertex_cover node st (Hin node ltac:(left)) Hst) as (st' & -> & Hc).
      split; [discriminate|]. intros st'' [= <-]. exact Hc.
    + cbv zeta.
      set (eic := if _skip st then wto.is_member (m_entry cfg) (wto_cycle head components)
                  else false).
      set (st0 := if _skip st then Iterator (_pre st) (_post st) (negb eic) else st).
      assert (Hst0 : tables_cover L st0) by (unfold st0; case_match; exact Hst).
      destruct (_skip st0); [split; [discriminate|]; intros st' [= <-]; exact Hst0|].
      assert (Hhead : head ∈ L) by (apply Hin; left).
      assert (Hcomps : ∀ c l, c ∈ components → l ∈ wto_labels c → l ∈ L).
      { intros c l Hc Hl. apply Hin. right. apply list_elem_of_join.
        exists (wto_labels c). split; [exact Hl|]. apply list_elem_of_fmap. eauto. }
      assert (Hpre : ∃ pre, (if eic then get_pre (m_entry cfg) st0
                             else cycle_initial_pre cfg w head st0) = Ok pre).
      { destruct eic eqn:Heic; [|apply cycle_initial_pre_cover; assumption].
        apply get_pre_cover; [|exact Hst0].
        unfold eic in Heic. destruct (_skip st); [|discriminate].
        apply Hin. apply is_member_labels. exact Heic. }
      destruct Hpre as [pre ->]. cbn [mbind result_mbind result_bind].
      destruct (IHi head components 1 pre st0 Hhead Hcomps Hst0) as [Hna Hok].
      destruct (increasing cfg w fuel head components 1 pre st0) as [r| |];
        [|contradiction|split; discriminate].
      cbn [mbind result_mbind result_bind].
      exact (IHd head components 1 r.2 r.1 Hhead Hcomps (Hok r eq_refl)).
  - intros head components k pre st Hhead Hcomps Hst. rewrite increasing_unfold.
    destruct (transform_to_post_cover head pre (set_pre head pre st) Hhead
                (set_pre_cover head pre st Hhead Hst)) as (st1 & -> & Hc1 & _).
    cbn [mbind result_mbind result_bind].
    destruct (Hbody components st1 Hcomps Hc1) as [Hna Hok].
    destruct (foldM _ st1 components) as [st2| |]; [|contradiction|split; discriminate].
    cbn [mbind result_mbind result_bind]. specialize (Hok st2 eq_refl).
    destruct (join_all_prevs_cover head st2 Hhead Hok) as [new_pre ->].
    cbn [mbind result_mbind result_bind].
    destruct (leq new_pre pre).
    + split; [discriminate|]. intros r [= <-]. simpl. apply set_pre_cover; assumption.
    + apply IHi; assumption.
  - intros head components k pre st Hhead Hcomps Hst. rewrite decreasing_unfold.
    destruct (transform_to_post_cover head pre st Hhead Hst) as (st1 & -> & Hc1 & _).
    cbn [mbind result_mbind result_bind].
    destruct (Hbody components st1 Hcomps Hc1) as [Hna Hok].
    destruct (foldM _ st1 components) as [st2| |]; [|contradiction|split; discriminate].
    cbn [mbind result_mbind result_bind]. specialize (Hok st2 eq_refl).
    destruct (join_all_prevs_cover head st2 Hhead Hok) as [new_pre ->].
    cbn [mbind result_mbind result_bind].
    destruct (leq pre new_pre).
    + split; [discriminate|]. intros r [= <-]. exact Hok.
    + apply IHd; [assumption..|]. apply set_pre_cover; assumption.
Qed.

End tables.

(** X29. On a well-formed CFG whose entry names a block, with a weak
    topological order that mentions only labels of the CFG, the analysis
    raises no error, whatever the abstract domain does: no table lookup
    fails and no block is missing. When it returns, the two tables have
    exactly the labels of the CFG as keys. *)
Theorem analyzer_never_aborts (cfg : cfg_t Instruction) (w : list wto_component_t)
    (fuel : nat) :
  cfg_wf cfg → m_entry cfg ∈ dom (m_blocks cfg) →
  (∀ c l, c ∈ w → l ∈ wto_labels c → l ∈ dom (m_blocks cfg)) →
  run_forward_analyzer cfg w fuel ≠ Abort ∧
  ∀ pre post, run_forward_analyzer cfg w fuel = Ok (pre, post) →
    dom pre = dom (m_blocks cfg) ∧ dom post = dom (m_blocks cfg).
Proof.
  intros Hwf Hentry Hw. unfold run_forward_analyzer.
  assert (Hnew : tables_cover (dom (m_blocks cfg)) (iterator_new cfg)).
  { assert (Htbl : dom (list_to_map ((λ l, (l, bottom)) <$> labels cfg) : gmap nat D)
                   = dom (m_blocks cfg)).
    { rewrite dom_list_to_map_L, <- list_fmap_compose.
      apply set_eq. intros x. rewrite elem_of_list_to_set, list_elem_of_fmap. unfold labels.
      split.
      - intros (l & -> & Hl). apply elem_of_sorted_labels in Hl. exact Hl.
      - intros Hx. exists x. split; [reflexivity | apply elem_of_sorted_labels, Hx]. }
    split; simpl; [|exact Htbl]. rewrite dom_insert_L, Htbl. set_solver. }
  assert (Hbody : ∀ components st,
            (∀ c l, c ∈ components → l ∈ wto_labels c → l ∈ dom (m_blocks cfg)) →
            tables_cover (dom (m_blocks cfg)) st →
            foldM (λ st0 x, visit cfg w fuel x st0) st components ≠ Abort ∧
            ∀ st', foldM (λ st0 x, visit cfg w fuel x st0) st components = Ok st' →
                   tables_cover (dom (m_blocks cfg)) st').
  { induction components as [|c cs IHcs]; simpl; intros st Hin Hst.
    - split; [discriminate|]. intros st' [= <-]. exact Hst.
    - destruct (proj1 (visit_cover cfg w Hwf fuel) c st (λ l, Hin c l ltac:(left)) Hst)
        as [Hna Hok].
      destruct (visit cfg w fuel c st) as [st1| |]; [|contradiction|split; discriminate].
      apply IHcs; [|exact (Hok st1 eq_refl)].
      intros c' l Hc'. apply Hin. right. exact Hc'. }
  destruct (Hbody w (iterator_new cfg) Hw Hnew) as [Hna Hok].
  destruct (foldM _ (iterator_new cfg) w) as [st| |]; [|contradiction|split; discriminate].
  cbn [mbind result_mbind result_bind]. split; [discriminate|].
  intros pre post [= <- <-]. exact (Hok st eq_refl).
Qed.

End iterator_extra.

Lemma loop_cfg_wf : cfg_wf counter.loop_cfg.
Proof.
  apply cfg_produced_wf. unfold counter.loop_cfg.
  repeat apply connect_or_keep_produced.
  repeat apply produced_stmt. apply produced_insert, produced_new.
Qed.


Lemma analyzer_never_aborts_witness :
  fwd_analyzer.run_forward_analyzer counter.loop_cfg counter.loop_wto 10 ≠ Abort ∧
  ∀ pre post, fwd_analyzer.run_forward_analyzer counter.loop_cfg counter.loop_wto 10
              = Ok (pre, post) →
    dom pre = dom (m_blocks counter.loop_cfg) ∧ dom post = dom (m_blocks counter.loop_cfg).
Proof.
  assert (Hentry : m_entry counter.loop_cfg ∈ dom (m_blocks counter.loop_cfg)).
  { apply elem_of_dom. vm_compute. eauto. }
  assert (Hw : ∀ c l, c ∈ counter.loop_wto → l ∈ wto_labels c →
                      l ∈ dom (m_blocks counter.loop_cfg)).
  { assert (HF : Forall (λ c, Forall (λ l, is_Some (m_blocks counter.loop_cfg !! l))
                                     (wto_labels c)) counter.loop_wto).
    { unfold counter.loop_wto. cbn [wto_labels fmap list_fmap mjoin list_join app].
      repeat first [apply Forall_nil | apply Forall_cons; split
                   | (vm_compute; eexists; reflexivity)]. }
    intros c l Hc Hl. apply elem_of_dom.
    exact (proj1 (Forall_forall _ _) (proj1 (Forall_forall _ _) HF c Hc) l Hl). }
  exact (analyzer_never_aborts counter.loop_cfg counter.loop_wto 10 loop_cfg_wf Hentry Hw).
Defined.

(** A vertex placed before the entry in the order is skipped: here the
    order visits [2] first, and its tables stay as the constructor left
    them. *)
Example skipped_vertex_stays_bottom :
  fwd_analyzer.visit counter.loop_cfg [wto_vertex 2; wto_vertex 0] 1 (wto_vertex 2)
    (fwd_analyzer.iterator_new counter.loop_cfg)
  = Ok (fwd_analyzer.iterator_new counter.loop_cfg).
Proof. vm_compute. reflexivity. Qed.
